(** * node-routeros-mod: the wire engine of the RouterOS API client

    A shallow embedding of [dist/connector/Receiver.js],
    [dist/connector/Connector.js], [dist/RStream.js] and
    [dist/CommandBuilder.js], and the properties of the specification
    checked against it.

    Conventions of the embedding:
    - a JavaScript number is [JS.num]: an integer, [NaN] or [undefined]
      (the decoder reads past the end of a buffer, which yields
      [undefined], and adds it, which yields [NaN]); every integer that
      occurs is far below 2^53, so [+] on doubles is exact;
    - the bit operators [&] and [<<] work on signed 32-bit integers;
    - a Buffer is the list of its bytes, a string the list of its UTF-16
      code units;
    - a method is a function on the object's record that returns the new
      record together with what the call did to the outside world (the
      callbacks it invoked, the events it emitted) and, where the source
      throws, the exception;
    - a call into Node throws where Node throws and the code can get
      there: [emit] of an [error] event that has no listener,
      [socket.connect] and [tls.connect] on a port that is missing or
      out of range, [socket.setTimeout] on a delay that is [NaN] or
      negative. The listeners and callbacks themselves are the caller's
      code and are left open. *)

From Stdlib Require Import ZArith List Lia String Ascii Bool.
From stdpp Require Import base option list gmap.
Import ListNotations.

(** ** JavaScript values *)

Module JS.
Local Open Scope Z_scope.

Inductive num : Type :=
| Num (z : Z)
| NaN
| Undefined.

(** [ToInt32] of ECMAScript on an integer: reduce modulo 2^32 into
    [-2^31, 2^31). *)
Definition wrap32 (z : Z) : Z := (z + 2 ^ 31) mod 2 ^ 32 - 2 ^ 31.

Definition ToInt32 (v : num) : Z :=
  match v with
  | Num z => wrap32 z
  | NaN | Undefined => 0
  end.

(** [a & b] *)
Definition band (a b : num) : num :=
  Num (wrap32 (Z.land (ToInt32 a) (ToInt32 b))).

(** [a << n], for a shift count [0 <= n < 32] *)
Definition shl (a : num) (n : Z) : num :=
  Num (wrap32 (Z.shiftl (ToInt32 a) n)).

(** [a + b] on numbers; [undefined] converts to [NaN]. *)
Definition add (a b : num) : num :=
  match a, b with
  | Num x, Num y => Num (x + y)
  | _, _ => NaN
  end.

(** [a - b] *)
Definition sub (a b : num) : num :=
  match a, b with
  | Num x, Num y => Num (x - y)
  | _, _ => NaN
  end.

(** [a > 0]: false on [NaN] and [undefined]. *)
Definition gt0 (a : num) : bool :=
  match a with
  | Num z => 0 <? z
  | _ => false
  end.

(** [a <= b]: false when either side is [NaN] or [undefined]. *)
Definition le (a b : num) : bool :=
  match a, b with
  | Num x, Num y => x <=? y
  | _, _ => false
  end.

(** A positive number used as an offset into a Buffer. *)
Definition offset (a : num) : nat :=
  match a with
  | Num z => Z.to_nat z
  | _ => 0%nat
  end.

(** [a * b] *)
Definition mul (a b : num) : num :=
  match a, b with
  | Num x, Num y => Num (x * y)
  | _, _ => NaN
  end.

(** [a === k] for an integer literal [k] *)
Definition seq_lit (a : num) (k : Z) : bool :=
  match a with
  | Num z => z =? k
  | _ => false
  end.

(** Truthiness of a number: [0], [NaN] and [undefined] are falsy. *)
Definition truthy (a : num) : bool :=
  match a with
  | Num z => negb (z =? 0)
  | _ => false
  end.

(** What the code throws or rejects with: [new RosException(errno)];
    the [TypeError] of a method call on [undefined] and of a call that
    misses an argument; the [RangeError] of Node for an argument out of
    range; the error [ERR_UNHANDLED_ERROR] of an [error] event that has
    no listener and carries no [Error]. [OutOfFuel] is not
    JavaScript's: the loops of the model count their rounds, and a
    loop that is given too few rounds ends with it, so that a result
    can never be mistaken for one of a loop cut short. *)
Inductive exn : Type :=
| RosException (errno : string)
| TypeError
| RangeError
| UnhandledError
| OutOfFuel.

(** A string is the list of its UTF-16 code units. *)
Abbreviation str := (list Z) (only parsing).

Definition lit (s : string) : str :=
  map (fun a => Z.of_nat (nat_of_ascii a)) (list_ascii_of_string s).

(** [s.substring(n)] *)
Definition substring (n : nat) (s : str) : str := drop n s.

(** [/^p/.test(s)] for a literal prefix [p] *)
Fixpoint starts_with (p s : str) : bool :=
  match p, s with
  | [], _ => true
  | _ :: _, [] => false
  | a :: p', b :: s' => (a =? b) && starts_with p' s'
  end.

(** Truthiness of a string or [null]: the empty string and [null] are
    falsy. *)
Definition truthy_str (s : option str) : bool :=
  match s with
  | Some (_ :: _) => true
  | _ => false
  end.

(** A Buffer is the list of its bytes, each in [0, 255]. *)
Abbreviation Buffer := (list Z) (only parsing).

(** [data[i]] *)
Definition at_ (data : Buffer) (i : nat) : num :=
  match data !! i with
  | Some b => Num b
  | None => Undefined
  end.

(** [data.slice(i)] *)
Definition slice_from (i : nat) (data : Buffer) : Buffer := drop i data.

(** [data.slice(0, n)] *)
Definition slice_to (n : nat) (data : Buffer) : Buffer := take n data.

End JS.

(** ** iconv-lite's [win1252] decoding

    [iconv.decode(buf, 'win1252')] maps every byte to one UTF-16 code
    unit: bytes below 0x80 and from 0xA0 on map to themselves, the
    block 0x80-0x9F follows the Windows-1252 code page, and the five
    bytes the code page leaves undefined become U+FFFD. *)

Module Iconv.
Local Open Scope Z_scope.

Definition win1252_high : list Z :=
  [ 0x20AC; 0xFFFD; 0x201A; 0x0192; 0x201E; 0x2026; 0x2020; 0x2021;
    0x02C6; 0x2030; 0x0160; 0x2039; 0x0152; 0xFFFD; 0x017D; 0xFFFD;
    0xFFFD; 0x2018; 0x2019; 0x201C; 0x201D; 0x2022; 0x2013; 0x2014;
    0x02DC; 0x2122; 0x0161; 0x203A; 0x0153; 0xFFFD; 0x017E; 0x0178 ].

Definition win1252 (b : Z) : Z :=
  if (0x80 <=? b) && (b <? 0xA0)
  then nth (Z.to_nat (b - 0x80)) win1252_high 0xFFFD
  else b.

Definition decode (data : JS.Buffer) : JS.str := map win1252 data.

End Iconv.

(** ** Receiver.decodeLength *)

Module Length.
Import JS.
Local Open Scope Z_scope.

(** [data[idx++]]: the byte read and the advanced index. *)
Definition next (data : Buffer) (idx : nat) : num * nat :=
  (at_ data idx, S idx).

(** [Receiver.decodeLength]: the pair [[idx, len]] of the number of
    prefix bytes and the decoded length. The function reads no field of
    the Receiver and writes none. *)
Definition decodeLength (data : Buffer) : nat * num :=
  let idx := 0%nat in
  let '(b, idx) := next data idx in
  if truthy (band b (Num 128)) then
    if seq_lit (band b (Num 192)) 128 then
      let '(d, idx) := next data idx in
      let len := add (shl (band b (Num 63)) 8) d in
      (idx, len)
    else if seq_lit (band b (Num 224)) 192 then
      let '(d, idx) := next data idx in
      let len := add (shl (band b (Num 31)) 8) d in
      let '(d, idx) := next data idx in
      let len := add (shl len 8) d in
      (idx, len)
    else if seq_lit (band b (Num 240)) 224 then
      let '(d, idx) := next data idx in
      let len := add (shl (band b (Num 15)) 8) d in
      let '(d, idx) := next data idx in
      let len := add (shl len 8) d in
      let '(d, idx) := next data idx in
      let len := add (shl len 8) d in
      (idx, len)
    else
      let '(d, idx) := next data idx in
      let len := d in
      let '(d, idx) := next data idx in
      let len := add (shl len 8) d in
      let '(d, idx) := next data idx in
      let len := add (shl len 8) d in
      let '(d, idx) := next data idx in
      let len := add (shl len 8) d in
      (idx, len)
  else
    (idx, b).

(** Modelled from the spec: the encoder of the length prefix lives in
    [Transmitter.js], which is not among the sources; section 4.1 of the
    specification gives the five prefix forms and says that the encoder
    picks the shortest one. *)
Definition prefix_size (L : Z) : nat :=
  if L <? 0x80 then 1
  else if L <? 0x4000 then 2
  else if L <? 0x200000 then 3
  else if L <? 0x10000000 then 4
  else 5.

(** Modelled from the spec: the bytes of the shortest prefix form of
    [L] (section 4.1: [0xxxxxxx], [10xxxxxx b1], [110xxxxx b1 b2],
    [1110xxxx b1 b2 b3], [11110000] followed by the 32-bit big-endian
    value). *)
Definition encode_length (L : Z) : Buffer :=
  let byte (k : Z) := Z.land (Z.shiftr L k) 0xFF in
  if L <? 0x80 then [L]
  else if L <? 0x4000 then [Z.lor 0x80 (Z.shiftr L 8); byte 0]
  else if L <? 0x200000 then [Z.lor 0xC0 (Z.shiftr L 16); byte 8; byte 0]
  else if L <? 0x10000000 then
    [Z.lor 0xE0 (Z.shiftr L 24); byte 16; byte 8; byte 0]
  else [0xF0; byte 24; byte 16; byte 8; byte 0].

(** What the decoder's tests see in a first byte [marker | h]. *)
Definition head_form (marker keep : Z) (h : Z) : bool :=
  let b := Num (Z.lor marker h) in
  truthy (band b (Num 128)) &&
  Bool.eqb (seq_lit (band b (Num 192)) 128) (marker =? 0x80) &&
  Bool.eqb (seq_lit (band b (Num 224)) 192) (marker =? 0xC0) &&
  Bool.eqb (seq_lit (band b (Num 240)) 224) (marker =? 0xE0) &&
  seq_lit (band b (Num keep)) h.

End Length.

(** ** Methods with effects

    A method body is a function on the fields of its object: it returns
    the fields after the call, what the call did to the outside world
    (calls to collaborators, events emitted) in the order it happened,
    and how the call ended. An exception skips the rest of the body and
    keeps every assignment made before it, as in the source. *)

Module Eff.

Section Eff.
Context {S E X : Type}.

Inductive completion (A : Type) : Type :=
| Return (a : A)
| Throw (e : X).

Record outcome (A : Type) : Type := mkOutcome {
  final : S;
  emitted : list E;
  ending : completion A
}.

Definition M (A : Type) : Type := S -> outcome A.

End Eff.

Arguments completion X A : clear implicits.
Arguments Return {X A} a.
Arguments Throw {X A} e.
Arguments outcome S E X A : clear implicits.
Arguments mkOutcome {S E X A}.
Arguments final {S E X A}.
Arguments emitted {S E X A}.
Arguments ending {S E X A}.
Arguments M S E X A : clear implicits.

Section Ops.
Context {S E X : Type}.

Definition ret {A} (a : A) : M S E X A := fun s => mkOutcome s [] (Return a).

Definition bind {A B} (m : M S E X A) (f : A -> M S E X B) : M S E X B :=
  fun s =>
    match m s with
    | mkOutcome s1 e1 (Return a) =>
        match f a s1 with
        | mkOutcome s2 e2 c => mkOutcome s2 (e1 ++ e2) c
        end
    | mkOutcome s1 e1 (Throw e) => mkOutcome s1 e1 (Throw e)
    end.

(** Read the fields. *)
Definition this : M S E X S := fun s => mkOutcome s [] (Return s).

(** Assign to fields. *)
Definition assign (f : S -> S) : M S E X unit :=
  fun s => mkOutcome (f s) [] (Return tt).

Definition emit (ev : E) : M S E X unit := fun s => mkOutcome s [ev] (Return tt).

Definition throw {A} (e : X) : M S E X A := fun s => mkOutcome s [] (Throw e).

(** [if (b) m] *)
Definition when (b : bool) (m : M S E X unit) : M S E X unit :=
  if b then m else ret tt.

End Ops.

Notation "x <- m ;; k" := (bind m (fun x => k))
  (at level 62, m at next level, right associativity).
Notation "m ;;; k" := (bind m (fun _ => k))
  (at level 62, right associativity).

End Eff.

(** ** Receiver *)

Module Receiver.
Import JS Eff.
Local Open Scope Z_scope.

(** A subscriber is a JavaScript function; the model keeps its
    identity and records every call made to it. A subscriber that calls
    back into the Receiver while it runs is outside the model. *)
Definition Callback : Type := nat.

(** The value stored per tag: [{ name: tag, callback: callback }]. *)
Record Tag : Type := mkTag { name : str; callback : Callback }.

(** An entry of [sentencePipe]: [{ sentence, hadMore }]. *)
Record Line : Type := mkLine { sentence : str; hadMore : bool }.

Record t : Type := mk {
  tags : gmap (list Z) Tag;
  dataLength : num;
  sentencePipe : list Line;
  processingSentencePipe : bool;
  currentLine : str;
  currentReply : option str;            (* [None] is [null] *)
  currentTag : option str;              (* [None] is [null] *)
  currentPacket : list str;
  lengthDescriptorSegment : option Buffer   (* [None] is [undefined]/[null] *)
}.

(** The fields as the constructor leaves them. *)
Definition new : t :=
  {| tags := ∅;
     dataLength := Num 0;
     sentencePipe := [];
     processingSentencePipe := false;
     currentLine := [];
     currentReply := Some [];
     currentTag := Some [];
     currentPacket := [];
     lengthDescriptorSegment := None |}.

Definition with_tags v (r : t) : t :=
  mk v (dataLength r) (sentencePipe r) (processingSentencePipe r)
     (currentLine r) (currentReply r) (currentTag r) (currentPacket r)
     (lengthDescriptorSegment r).
Definition with_dataLength v (r : t) : t :=
  mk (tags r) v (sentencePipe r) (processingSentencePipe r)
     (currentLine r) (currentReply r) (currentTag r) (currentPacket r)
     (lengthDescriptorSegment r).
Definition with_sentencePipe v (r : t) : t :=
  mk (tags r) (dataLength r) v (processingSentencePipe r)
     (currentLine r) (currentReply r) (currentTag r) (currentPacket r)
     (lengthDescriptorSegment r).
Definition with_processingSentencePipe v (r : t) : t :=
  mk (tags r) (dataLength r) (sentencePipe r) v
     (currentLine r) (currentReply r) (currentTag r) (currentPacket r)
     (lengthDescriptorSegment r).
Definition with_currentLine v (r : t) : t :=
  mk (tags r) (dataLength r) (sentencePipe r) (processingSentencePipe r)
     v (currentReply r) (currentTag r) (currentPacket r)
     (lengthDescriptorSegment r).
Definition with_currentReply v (r : t) : t :=
  mk (tags r) (dataLength r) (sentencePipe r) (processingSentencePipe r)
     (currentLine r) v (currentTag r) (currentPacket r)
     (lengthDescriptorSegment r).
Definition with_currentTag v (r : t) : t :=
  mk (tags r) (dataLength r) (sentencePipe r) (processingSentencePipe r)
     (currentLine r) (currentReply r) v (currentPacket r)
     (lengthDescriptorSegment r).
Definition with_currentPacket v (r : t) : t :=
  mk (tags r) (dataLength r) (sentencePipe r) (processingSentencePipe r)
     (currentLine r) (currentReply r) (currentTag r) v
     (lengthDescriptorSegment r).
Definition with_lengthDescriptorSegment v (r : t) : t :=
  mk (tags r) (dataLength r) (sentencePipe r) (processingSentencePipe r)
     (currentLine r) (currentReply r) (currentTag r) (currentPacket r) v.

(** What a method does to the outside world. *)
Inductive event : Type :=
| Called (cb : Callback) (packet : list str)   (* [tag.callback(this.currentPacket)] *)
| SocketFatal.                                 (* [this.socket.emit('fatal')] *)

Definition M : Type -> Type := Eff.M t event exn.

Fixpoint eqb_str (a b : str) : bool :=
  match a, b with
  | [], [] => true
  | x :: a', y :: b' => (x =? y) && eqb_str a' b'
  | _, _ => false
  end.

(** [this.currentReply === '!fatal'] *)
Definition reply_is (reply : option str) (s : str) : bool :=
  match reply with
  | Some x => eqb_str x s
  | None => false
  end.

(** [read(tag, callback)] *)
Definition read (tag : str) (cb : Callback) (r : t) : t :=
  with_tags (<[tag := mkTag tag cb]> (tags r)) r.

(** [stop(tag)] *)
Definition stop (tag : str) (r : t) : t :=
  with_tags (delete tag (tags r)) r.

(** [cleanUp()] *)
Definition cleanUp : M unit :=
  assign (with_currentPacket []) ;;;
  assign (with_currentTag None) ;;;
  assign (with_currentReply None).

(** [sendTagData(currentTag)] *)
Definition sendTagData (tag : str) : M unit :=
  r <- this ;;
  match tags r !! tag with
  | Some entry => emit (Called (callback entry) (currentPacket r))
  | None => throw (RosException "UNREGISTEREDTAG")
  end ;;;
  cleanUp.

(** [if (this.currentTag) this.sendTagData(this.currentTag)] *)
Definition sendCurrentTag : M unit :=
  r <- this ;;
  match currentTag r with
  | Some (c :: tag) => sendTagData (c :: tag)
  | _ => ret tt
  end.

(** The closure [process] of [processSentence]. It calls itself once
    per line it shifts from the pipe, so [S (length sentencePipe)]
    rounds are enough; [fuel] counts them. *)
Fixpoint process (fuel : nat) : M unit :=
  match fuel with
  | O => throw OutOfFuel
  | S fuel =>
      r <- this ;;
      match sentencePipe r with
      | line :: rest =>
          assign (with_sentencePipe rest) ;;;
          if negb (hadMore line) && reply_is (currentReply r) (lit "!fatal")
          then emit SocketFatal
          else
            (if starts_with (lit ".tag=") (sentence line) then
               assign (with_currentTag (Some (substring 5 (sentence line))))
             else if starts_with (lit "!") (sentence line) then
               sendCurrentTag ;;;
               assign (fun r => with_currentPacket (currentPacket r ++ [sentence line]) r) ;;;
               assign (with_currentReply (Some (sentence line)))
             else
               assign (fun r => with_currentPacket (currentPacket r ++ [sentence line]) r)) ;;;
            r <- this ;;
            if (length (sentencePipe r) =? 0)%nat && seq_lit (dataLength r) 0 then
              when (negb (hadMore line)) sendCurrentTag ;;;
              assign (with_processingSentencePipe false)
            else process fuel
      | [] => assign (with_processingSentencePipe false)
      end
  end.

(** [processSentence()] *)
Definition processSentence : M unit :=
  r <- this ;;
  if negb (processingSentencePipe r) then
    assign (with_processingSentencePipe true) ;;;
    process (S (length (sentencePipe r)))
  else ret tt.

(** [this.sentencePipe.push(line)] *)
Definition pushLine (line : Line) : M unit :=
  assign (fun r => with_sentencePipe (sentencePipe r ++ [line]) r).

(** [data.equals(nullBuffer)] *)
Definition equals_nullBuffer (data : Buffer) : bool :=
  match data with
  | [b] => b =? 0
  | _ => false
  end.

(** The two statements that follow both calls of [decodeLength]:
    [[
      if (this.dataLength === 1 && data.equals(nullBuffer)) {
          this.dataLength = 0;
          data = data.slice(1);
      }
    ]]
    The result is the new value of the local [data]. *)
Definition dropPadding (data : Buffer) : M Buffer :=
  r <- this ;;
  if seq_lit (dataLength r) 1 && equals_nullBuffer data then
    assign (with_dataLength (Num 0)) ;;;
    ret (slice_from 1 data)
  else ret data.

(** The [while (data.length > 0)] loop of [processRawData]. Every round
    that does not [break] removes at least one byte from [data], so
    [S (length data)] rounds are enough; [fuel] counts them. *)
Fixpoint rawLoop (fuel : nat) (data : Buffer) : M unit :=
  match fuel with
  | O => throw OutOfFuel
  | S fuel =>
      if (0 <? length data)%nat then
        r <- this ;;
        if gt0 (dataLength r) then
          let len := Num (Z.of_nat (length data)) in
          if le len (dataLength r) then
            assign (fun r => with_dataLength (sub (dataLength r) len) r) ;;;
            assign (fun r => with_currentLine (currentLine r ++ Iconv.decode data) r) ;;;
            r <- this ;;
            when (seq_lit (dataLength r) 0)
              (pushLine {| sentence := currentLine r;
                           hadMore := negb (seq_lit (dataLength r) (Z.of_nat (length data))) |} ;;;
               processSentence ;;;
               assign (with_currentLine []))
            (* break *)
          else
            let want := offset (dataLength r) in
            let tmpBuffer := slice_to want data in
            let tmpStr := Iconv.decode tmpBuffer in
            assign (fun r => with_currentLine (currentLine r ++ tmpStr) r) ;;;
            r <- this ;;
            let line := currentLine r in
            assign (with_currentLine []) ;;;
            let data := slice_from want data in
            let '(descriptor_length, len) := Length.decodeLength data in
            when (length data <? descriptor_length)%nat
              (assign (with_lengthDescriptorSegment (Some data))) ;;;
            assign (with_dataLength len) ;;;
            let data := slice_from descriptor_length data in
            data <- dropPadding data ;;
            pushLine {| sentence := line; hadMore := (0 <? length data)%nat |} ;;;
            processSentence ;;;
            rawLoop fuel data
        else
          let '(descriptor_length, len) := Length.decodeLength data in
          assign (with_dataLength len) ;;;
          let data := slice_from descriptor_length data in
          data <- dropPadding data ;;
          rawLoop fuel data
      else ret tt
  end.

(** [processRawData(data)] *)
Definition processRawData (data : Buffer) : M unit :=
  r <- this ;;
  data <- match lengthDescriptorSegment r with
          | Some segment =>
              assign (with_lengthDescriptorSegment None) ;;;
              ret (segment ++ data)
          | None => ret data
          end ;;
  rawLoop (S (length data)) data.

(** The socket's [data] events one after the other, as
    [Connector.onData] hands them over. An exception leaves the handler
    of its chunk; the socket goes on to deliver the next chunk. The
    result is the Receiver after the last chunk, everything emitted, and
    the exceptions in the order they were thrown. *)
Fixpoint feed (chunks : list Buffer) (r : t) : t * list event * list exn :=
  match chunks with
  | [] => (r, [], [])
  | c :: rest =>
      let o := processRawData c r in
      let '(r', evs, exns) := feed rest (final o) in
      (r', emitted o ++ evs,
       match ending o with Throw e => e :: exns | Return _ => exns end)
  end.

(** What [feed] delivered to subscribers. *)
Definition delivered (chunks : list Buffer) (r : t) : list event :=
  snd (fst (feed chunks r)).

(** A caller's use of the tag map: [read] and [stop] in any order. *)
Inductive op : Type :=
| DoRead (tag : str) (cb : Callback)
| DoStop (tag : str).

Definition apply_op (r : t) (o : op) : t :=
  match o with
  | DoRead tag cb => read tag cb r
  | DoStop tag => stop tag r
  end.

Definition run (ops : list op) (r : t) : t := fold_left apply_op ops r.

(** The subscribers of a tag: the entries of the map under that key. *)
Definition subscribers (tag : str) (r : t) : list Tag :=
  map snd (filter (fun kv => fst kv = tag) (map_to_list (tags r))).

End Receiver.

(** ** The wire format *)

Module Wire.
Import JS.
Local Open Scope Z_scope.

(** The bytes of an ASCII string. *)
Definition bytes (s : string) : Buffer := lit s.

(** Modelled from the spec: the encoder lives in [Transmitter.js],
    which is not among the sources. Section 4.2: a word on the wire is
    its length prefix followed by its payload bytes. *)
Definition word (w : Buffer) : Buffer :=
  Length.encode_length (Z.of_nat (length w)) ++ w.

(** Modelled from the spec: section 3, a sentence is a sequence of
    non-empty words terminated by an empty word, whose encoding is the
    single byte 0. *)
Definition sentence (ws : list Buffer) : Buffer :=
  concat (map word ws) ++ [0].

(** The segmentation that hands over one byte at a time. *)
Definition bytewise (data : Buffer) : list Buffer := map (fun b => [b]) data.

End Wire.

(** ** Replies and their segmentations *)

Module Reply.
Import JS Eff Receiver.
Local Open Scope Z_scope.

(** A piece of a sentence on the wire: bytes that the transport does
    not separate. [Head] is the first part of a length prefix that the
    transport has cut in two; its second part is the piece that
    follows it. *)
Inductive piece : Type :=
| Whole (bs : Buffer)
| Head (bs : Buffer).

Definition bytes_of (p : piece) : Buffer :=
  match p with
  | Whole bs | Head bs => bs
  end.

(** The bytes of a chunk made of pieces. *)
Definition chunk (g : list piece) : Buffer := concat (map bytes_of g).

(** The payload of a word: a chunk boundary may fall between any two
    of its bytes. *)
Definition payload (w : Buffer) : list piece := map (fun b => Whole [b]) w.

(** A length prefix, cut after its first [j] bytes; with [j = 0], or
    [j] not less than the size of the prefix, it is not cut. *)
Definition prefix_pieces (j : nat) (p : Buffer) : list piece :=
  if (0 <? j)%nat && (j <? length p)%nat
  then [Head (take j p); Whole (drop j p)]
  else [Whole p].

(** The pieces of a word on the wire whose prefix is cut after [j]
    bytes. *)
Definition pieces_word (j : nat) (w : Buffer) : list piece :=
  prefix_pieces j (Length.encode_length (Z.of_nat (length w))) ++ payload w.

(** The pieces of a sentence: those of its words, and the terminator.
    [cuts] says for every word where its prefix is cut (where the list
    ends, no prefix is cut any more). A segmentation is a choice of
    cuts and a grouping of these pieces into chunks. *)
Fixpoint pieces (cuts : list nat) (ws : list Buffer) : list piece :=
  match ws with
  | [] => [Whole [0]]
  | w :: ws' => pieces_word (hd 0%nat cuts) w ++ pieces (tl cuts) ws'
  end.

(** The chunk is not empty and does not begin with the first part of
    a prefix that is cut. *)
Definition begins_whole (g : list piece) : Prop :=
  match g with
  | Whole _ :: _ => True
  | _ => False
  end.

(** A word of a reply: not empty, not the single byte 0 (which
    [dropPadding] takes for padding after a prefix of 1), and of a
    length that the decoder reads as it was written. *)
Definition wf_word (w : Buffer) : Prop :=
  w <> [] /\ w <> [0] /\ Z.of_nat (length w) < 2 ^ 31.

(** The Receiver between two replies: no word in progress, nothing in
    the pipe, no tag and no packet gathered, no [!fatal] seen. *)
Definition idle (r : Receiver.t) : Prop :=
  dataLength r = Num 0 /\
  sentencePipe r = [] /\
  processingSentencePipe r = false /\
  currentLine r = [] /\
  truthy_str (currentTag r) = false /\
  currentPacket r = [] /\
  lengthDescriptorSegment r = None /\
  reply_is (currentReply r) (lit "!fatal") = false.

(** The Receiver after [cleanUp], nothing pending. *)
Definition cleared (r : Receiver.t) : Receiver.t :=
  mk (tags r) (Num 0) [] false [] None None [] None.

(** What the Receiver has gathered of the reply in progress:
    [currentTag], [currentPacket] and [currentReply]. *)
Record gathered : Type := mkGathered {
  g_tag : option str;
  g_packet : list str;
  g_reply : option str
}.

(** What [process] does with one line when it sends nothing. *)
Definition absorb (d : str) (a : gathered) : gathered :=
  if starts_with (lit ".tag=") d then
    mkGathered (Some (substring 5 d)) (g_packet a) (g_reply a)
  else if starts_with (lit "!") d then
    mkGathered (g_tag a) (g_packet a ++ [d]) (Some d)
  else
    mkGathered (g_tag a) (g_packet a ++ [d]) (g_reply a).

Definition gather (ds : list str) (a : gathered) : gathered :=
  fold_left (fun a d => absorb d a) ds a.

(** The Receiver between two lines: nothing in the pipe. *)
Definition at_rest (m : gmap (list Z) Tag) (dl : num) (line : str)
    (a : gathered) (seg : option Buffer) : Receiver.t :=
  mk m dl [] false line (g_reply a) (g_tag a) (g_packet a) seg.

(** The line [d] can be taken in without a call of [sendTagData] and
    without the [fatal] event. *)
Definition quiet (d : str) (a : gathered) : Prop :=
  reply_is (g_reply a) (lit "!fatal") = false /\
  (starts_with (lit "!") d = true -> truthy_str (g_tag a) = false).

Fixpoint quiet_all (ds : list str) (a : gathered) : Prop :=
  match ds with
  | [] => True
  | d :: ds' => quiet d a /\ quiet_all ds' (absorb d a)
  end.

(** The Receiver between two chunks of a reply that will have gathered
    [target] at its end, and the pieces still to come: either at the
    start of a word, or inside the payload of one, [t] being what is
    left of it, or inside the prefix of one, [h] being the part of the
    prefix that has arrived. *)
Inductive pos (m : gmap (list Z) Tag) (target : gathered) :
    Receiver.t -> list piece -> Prop :=
| pos_A a cuts ws :
    ws <> [] -> Forall wf_word ws ->
    quiet_all (map Iconv.decode ws) a ->
    gather (map Iconv.decode ws) a = target ->
    pos m target (at_rest m (Num 0) [] a None) (pieces cuts ws)
| pos_B a line t cuts ws :
    t <> [] -> Z.of_nat (length t) < 2 ^ 31 -> Forall wf_word ws ->
    quiet_all ((line ++ Iconv.decode t) :: map Iconv.decode ws) a ->
    gather ((line ++ Iconv.decode t) :: map Iconv.decode ws) a = target ->
    pos m target (at_rest m (Num (Z.of_nat (length t))) line a None)
        (payload t ++ pieces cuts ws)
| pos_C a h rest w cuts ws :
    h <> [] -> rest <> [] ->
    h ++ rest = Length.encode_length (Z.of_nat (length w)) ->
    Forall wf_word (w :: ws) ->
    quiet_all (map Iconv.decode (w :: ws)) a ->
    gather (map Iconv.decode (w :: ws)) a = target ->
    pos m target (at_rest m NaN [] a (Some h))
        (Whole rest :: payload w ++ pieces cuts ws).

(** The Receiver when the whole reply has been handed over. *)
Definition delivered_outcome (m : gmap (list Z) Tag) (target : gathered)
    (entry : Tag) : outcome Receiver.t event exn unit :=
  mkOutcome (mk m (Num 0) [] false [] None None [] None)
            [Called (callback entry) (g_packet target)] (Return tt).

(** What a chunk must leave behind: the reply delivered when nothing
    is left to come, and otherwise a Receiver that is ready for the
    rest, nothing sent. *)
Definition after (m : gmap (list Z) Tag) (target : gathered) (entry : Tag)
    (o : outcome Receiver.t event exn unit) (rem : list piece) : Prop :=
  match rem with
  | [] => o = delivered_outcome m target entry
  | _ => exists r', o = mkOutcome r' [] (Return tt) /\ pos m target r' rem
  end.

(** The call was cut short by the model's count of rounds. *)
Definition cut_short {A} (c : completion exn A) : bool :=
  match c with
  | Throw OutOfFuel => true
  | _ => false
  end.

(** A computation that is not cut short, whatever the state. *)
Definition safe {A} (m : Receiver.M A) : Prop :=
  forall s, cut_short (ending (m s)) = false.

End Reply.

(** ** Connector *)

Module Connector.
Import JS Eff.
Local Open Scope Z_scope.

(** The options object handed to [tls.connect]; the Connector passes
    it on and reads nothing in it. It is taken to be one that
    [tls.connect] accepts. *)
Definition TlsOptions : Type := list (string * string).

(** [options.tls]: left out, a boolean, an options object, or [null]. *)
Inductive tls_value : Type :=
| TlsUndefined
| TlsBoolean (b : bool)
| TlsObject (o : TlsOptions)
| TlsNull.

(** [typeof v === 'object'] *)
Definition is_object (v : tls_value) : bool :=
  match v with
  | TlsObject _ | TlsNull => true
  | _ => false
  end.

Definition tls_truthy (v : tls_value) : bool :=
  match v with
  | TlsObject _ => true
  | TlsBoolean b => b
  | _ => false
  end.

(** The constructor's argument; a field that is left out is
    [Undefined]. *)
Record Options : Type := mkOptions {
  opt_host : str;
  opt_timeout : num;
  opt_port : num;
  opt_tls : tls_value
}.

(** The methods the Connector binds as listeners. *)
Inductive handler : Type :=
| h_onConnect | h_onEnd | h_onTimeout | h_onError | h_onData.

(** What the Connector does to its collaborators: the socket, the
    Transmitter, its own listeners (it is an EventEmitter) and, through
    the Receiver, the subscribers of tags. A call is listed whether it
    returns or throws. *)
Inductive call : Type :=
| TlsConnect (port : num) (host : str) (options : tls_value) (cb : handler)
| NewSocket
| SocketOn (ev : string) (h : handler)
| SocketOnce (ev : string) (h : handler)
| SocketSetTimeout (ms : num)
| SocketSetKeepAlive (enable : bool)
| SocketConnect (port : num) (host : str)
| SocketEnd
| SocketDestroy
| TransmitterWrite (line : option str)
| TransmitterRunPool
| Emit (ev : string) (err : option exn)
| RemoveAllListeners
| FromReceiver (ev : Receiver.event).

Record t : Type := mk {
  connected : bool;
  connecting : bool;
  closing : bool;
  host : str;
  timeout : num;
  port : num;
  tls : tls_value;
  socket : bool;                     (* [this.socket] has been created *)
  receiver : option Receiver.t;      (* [None] before [connect()] *)
  listeners : list string            (* the events that have a listener *)
}.

Definition with_connected v (c : t) : t :=
  mk v (connecting c) (closing c) (host c) (timeout c) (port c) (tls c)
     (socket c) (receiver c) (listeners c).
Definition with_connecting v (c : t) : t :=
  mk (connected c) v (closing c) (host c) (timeout c) (port c) (tls c)
     (socket c) (receiver c) (listeners c).
Definition with_closing v (c : t) : t :=
  mk (connected c) (connecting c) v (host c) (timeout c) (port c) (tls c)
     (socket c) (receiver c) (listeners c).
Definition with_timeout v (c : t) : t :=
  mk (connected c) (connecting c) (closing c) (host c) v (port c) (tls c)
     (socket c) (receiver c) (listeners c).
Definition with_port v (c : t) : t :=
  mk (connected c) (connecting c) (closing c) (host c) (timeout c) v (tls c)
     (socket c) (receiver c) (listeners c).
Definition with_tls v (c : t) : t :=
  mk (connected c) (connecting c) (closing c) (host c) (timeout c) (port c) v
     (socket c) (receiver c) (listeners c).
Definition with_socket v (c : t) : t :=
  mk (connected c) (connecting c) (closing c) (host c) (timeout c) (port c)
     (tls c) v (receiver c) (listeners c).
Definition with_receiver v (c : t) : t :=
  mk (connected c) (connecting c) (closing c) (host c) (timeout c) (port c)
     (tls c) (socket c) v (listeners c).
Definition with_listeners v (c : t) : t :=
  mk (connected c) (connecting c) (closing c) (host c) (timeout c) (port c)
     (tls c) (socket c) (receiver c) v.

Definition M : Type -> Type := Eff.M t call exn.

(** [constructor(options)] *)
Definition constructor (options : Options) : t :=
  let c := {| connected := false; connecting := false; closing := false;
              host := opt_host options; timeout := Undefined;
              port := Undefined; tls := TlsUndefined;
              socket := false; receiver := None; listeners := [] |} in
  let c := if truthy (opt_timeout options)
           then with_timeout (opt_timeout options) c else c in
  let c := if truthy (opt_port options)
           then with_port (opt_port options) c else c in
  let options_tls :=
    match opt_tls options with
    | TlsBoolean true => TlsObject []
    | v => v
    end in
  if is_object options_tls then
    let c := if negb (truthy (opt_port options))
             then with_port (Num 8729) c else c in
    with_tls options_tls c
  else c.

(** [on(ev, listener)], which the Connector has from EventEmitter:
    its owner puts a listener on one of its events. *)
Definition on (ev : string) : M unit :=
  assign (fun c => with_listeners (ev :: listeners c) c).

Definition listens (ev : string) (c : t) : bool :=
  existsb (String.eqb ev) (listeners c).

(** [this.emit(ev, err, this)]. An [error] event that has no listener
    is thrown by EventEmitter: the error itself when it is an [Error],
    as a RosException is. The listeners are the owner's code. *)
Definition emit_event (ev : string) (err : option exn) : M unit :=
  c <- this ;;
  if String.eqb ev "error" && negb (listens "error" c) then
    throw (match err with Some e => e | None => UnhandledError end)
  else emit (Emit ev err).

(** The port that Node's [socket.connect] and [tls.connect] take: an
    integer from 0 to 65535. *)
Definition valid_port (p : num) : bool :=
  match p with
  | Num z => (0 <=? z) && (z <=? 65535)
  | _ => false
  end.

(** The delay that Node's [socket.setTimeout] takes: a finite number
    that is not negative. *)
Definition valid_msecs (ms : num) : bool :=
  match ms with
  | Num z => 0 <=? z
  | _ => false
  end.

(** A call that Node refuses with an exception when its arguments are
    not in order. *)
Definition checked (what : call) (ok : bool) (e : exn) : M unit :=
  emit what ;;;
  if ok then ret tt else throw e.

(** [tls.connect(port, host, options, listener)]: a [RangeError] for a
    port out of range. *)
Definition tls_connect (p : num) (h : str) (o : tls_value) (cb : handler) : M unit :=
  checked (TlsConnect p h o cb) (valid_port p) RangeError.

(** [socket.setTimeout(msecs)]: a [RangeError] for [NaN] and for a
    negative delay. *)
Definition socket_setTimeout (ms : num) : M unit :=
  checked (SocketSetTimeout ms) (valid_msecs ms) RangeError.

(** [socket.connect(port, host)]: a [TypeError] when the port is
    [undefined], a [RangeError] for a port out of range. *)
Definition socket_connect (p : num) (h : str) : M unit :=
  match p with
  | Undefined => checked (SocketConnect p h) false TypeError
  | _ => checked (SocketConnect p h) (valid_port p) RangeError
  end.

(** [connect()] *)
Definition connect : M unit :=
  c <- this ;;
  when (negb (connected c))
    (when (negb (connecting c))
       (assign (with_connecting true) ;;;
        if tls_truthy (tls c) then
          tls_connect (port c) (host c) (tls c) h_onConnect ;;;
          assign (with_socket true) ;;;
          assign (with_receiver (Some Receiver.new)) ;;;
          emit (SocketOn "data" h_onData) ;;;
          emit (SocketOn "tlsClientError" h_onError) ;;;
          emit (SocketOnce "end" h_onEnd) ;;;
          emit (SocketOnce "timeout" h_onTimeout) ;;;
          emit (SocketOnce "fatal" h_onEnd) ;;;
          emit (SocketOn "error" h_onError) ;;;
          socket_setTimeout (mul (timeout c) (Num 1000)) ;;;
          emit (SocketSetKeepAlive true)
        else
          emit NewSocket ;;;
          assign (with_socket true) ;;;
          assign (with_receiver (Some Receiver.new)) ;;;
          emit (SocketOnce "connect" h_onConnect) ;;;
          emit (SocketOnce "end" h_onEnd) ;;;
          emit (SocketOnce "timeout" h_onTimeout) ;;;
          emit (SocketOnce "fatal" h_onEnd) ;;;
          emit (SocketOn "error" h_onError) ;;;
          emit (SocketOn "data" h_onData) ;;;
          socket_setTimeout (mul (timeout c) (Num 1000)) ;;;
          emit (SocketSetKeepAlive true) ;;;
          socket_connect (port c) (host c))).

(** A method call on [this.socket] or [this.transmitter], which exist
    from [connect()] on. *)
Definition on_socket (what : call) : M unit :=
  c <- this ;;
  if socket c then emit what else throw TypeError.

(** [write(data)] *)
Definition write (data : list str) : M unit :=
  (fix lines (l : list str) : M unit :=
     match l with
     | [] => ret tt
     | line :: l' => on_socket (TransmitterWrite (Some line)) ;;; lines l'
     end) data ;;;
  on_socket (TransmitterWrite None).

(** [read(tag, callback)] *)
Definition read (tag : str) (cb : Receiver.Callback) : M unit :=
  c <- this ;;
  match receiver c with
  | Some r => assign (with_receiver (Some (Receiver.read tag cb r)))
  | None => throw TypeError
  end.

(** [stopRead(tag)] *)
Definition stopRead (tag : str) : M unit :=
  c <- this ;;
  match receiver c with
  | Some r => assign (with_receiver (Some (Receiver.stop tag r)))
  | None => throw TypeError
  end.

(** [close()] *)
Definition close : M unit :=
  c <- this ;;
  when (negb (closing c))
    (assign (with_closing true) ;;;
     on_socket SocketEnd).

(** [destroy()] *)
Definition destroy : M unit :=
  on_socket SocketDestroy ;;;
  emit RemoveAllListeners ;;;
  assign (with_listeners []).

(** [onConnect()] *)
Definition onConnect : M unit :=
  assign (with_connecting false) ;;;
  assign (with_connected true) ;;;
  on_socket TransmitterRunPool ;;;
  emit_event "connected" None.

(** [onEnd()] *)
Definition onEnd : M unit :=
  emit_event "close" None ;;;
  destroy.

(** [onError(err)]; [errno] is [err.errno]. *)
Definition onError (errno : string) : M unit :=
  let err := RosException errno in
  emit_event "error" (Some err) ;;;
  destroy.

(** [onTimeout()] *)
Definition onTimeout : M unit :=
  emit_event "timeout" (Some (RosException "SOCKTMOUT")) ;;;
  destroy.

(** [onData(data)]: the Receiver's [processRawData] on the Connector's
    Receiver; what it calls and what it throws pass through. *)
Definition onData (data : Buffer) : M unit :=
  c <- this ;;
  match receiver c with
  | Some r =>
      let o := Receiver.processRawData data r in
      fun c =>
        mkOutcome (with_receiver (Some (final o)) c)
                  (map FromReceiver (emitted o)) (ending o)
  | None => throw TypeError
  end.

(** A Connector whose owner listens for [error], that has connected
    to port 8728 and holds a subscriber for tag 1. *)
Definition connected_with_subscriber : t :=
  let options := mkOptions (lit "10.0.0.1") (Num 10) (Num 8728) TlsUndefined in
  let c := final (on "error" (constructor options)) in
  let c := final (connect c) in
  let c := final (onConnect c) in
  final (read (lit "1") 7%nat c).

(** A call of a subscriber among the Connector's effects. *)
Definition calls_subscriber (x : call) : bool :=
  match x with
  | FromReceiver (Receiver.Called _ _) => true
  | _ => false
  end.

(** The socket calls of [connect] that carry the port. *)
Definition connects_to (x : call) : option (bool * num) :=
  match x with
  | TlsConnect p _ _ _ => Some (true, p)
  | SocketConnect p _ => Some (false, p)
  | _ => None
  end.

(** Where [connect()] on a new Connector connects: over TLS or not, and
    to which port. *)
Definition target (options : Options) : list (bool * num) :=
  omap connects_to (emitted (connect (constructor options))).

(** TLS is configured: [tls] is [true] or an options object. *)
Definition tls_configured (v : tls_value) : bool :=
  match v with
  | TlsBoolean true | TlsObject _ => true
  | _ => false
  end.

End Connector.

(** ** RStream *)

Module RStream.
Import JS Eff.

(** The consumer's callback, by identity. *)
Definition Callback : Type := nat.

(** The Channel the stream was built on. Its class is a collaborator
    of the stream: the stream calls it and listens to its events. *)
Record Channel : Type := mkChannel { Id : str }.

(** The argument of [onStream]: a parsed reply, with its [.section]
    property if it has one, or the empty array that the debounce timer
    passes. *)
Inductive Packet : Type :=
| Row (section : option str) (fields : list (str * str))
| EmptyArray.

(** [packet['.section']] *)
Definition section_of (p : Packet) : option str :=
  match p with
  | Row s _ => s
  | EmptyArray => None
  end.

(** The data handed to a listener or to the consumer. *)
Inductive value : Type :=
| Null
| OnePacket (p : Packet)
| Batch (ps : list Packet)
| Trap (message : str).

Inductive handler : Type :=
| h_onClose | h_onStreamPacket | h_onTrap | h_onDone.

(** What the stream does to the outside: the events it emits, the
    calls of the consumer's callback, and its calls on channels. *)
Inductive call : Type :=
| Emit (ev : string) (arg : value)
| Invoke (cb : Callback) (err : option str) (data : value)
| ChannelOn (ev : string) (h : handler)
| ChannelOnce (ev : string) (h : handler)
| ChannelWrite (params : list str)
| ChannelClose
| CancelWrite (words : list str).   (* [new Channel(...).write(words)] *)

(** A debounced function as the stream uses it: created, and armed or
    not. The model has no clock; a timer that is armed may fire. *)
Record Debounce : Type := mkDebounce { armed : bool }.

Record t : Type := mk {
  shouldDebounceEmptyData : bool;
  streaming : bool;
  pausing : bool;
  paused : bool;
  stopping : bool;
  stopped : bool;
  trapped : bool;
  currentSection : option str;
  forcelyStop : bool;
  currentSectionPacket : list Packet;
  channel : Channel;
  params : list str;
  callback : option Callback;
  debounceSendingEmptyData : option Debounce;
  sectionPacketSendingTimeout : bool;     (* a timer is pending *)
  listeners : list string                 (* the events that have a listener *)
}.

(** [new RStream(channel, params, callback)] *)
Definition constructor (channel : Channel) (params : list str)
    (callback : option Callback) : t :=
  {| shouldDebounceEmptyData := false;
     streaming := true;
     pausing := false;
     paused := false;
     stopping := false;
     stopped := false;
     trapped := false;
     currentSection := None;
     forcelyStop := false;
     currentSectionPacket := [];
     channel := channel;
     params := params;
     callback := callback;
     debounceSendingEmptyData := None;
     sectionPacketSendingTimeout := false;
     listeners := [] |}.

Definition with_shouldDebounceEmptyData v (s : t) : t :=
  mk v (streaming s) (pausing s) (paused s) (stopping s) (stopped s)
     (trapped s) (currentSection s) (forcelyStop s) (currentSectionPacket
     s) (channel s) (params s) (callback s) (debounceSendingEmptyData s)
     (sectionPacketSendingTimeout s) (listeners s).
Definition with_streaming v (s : t) : t :=
  mk (shouldDebounceEmptyData s) v (pausing s) (paused s) (stopping s)
     (stopped s) (trapped s) (currentSection s) (forcelyStop s)
     (currentSectionPacket s) (channel s) (params s) (callback s)
     (debounceSendingEmptyData s) (sectionPacketSendingTimeout s)
     (listeners s).
Definition with_pausing v (s : t) : t :=
  mk (shouldDebounceEmptyData s) (streaming s) v (paused s) (stopping s)
     (stopped s) (trapped s) (currentSection s) (forcelyStop s)
     (currentSectionPacket s) (channel s) (params s) (callback s)
     (debounceSendingEmptyData s) (sectionPacketSendingTimeout s)
     (listeners s).
Definition with_paused v (s : t) : t :=
  mk (shouldDebounceEmptyData s) (streaming s) (pausing s) v (stopping s)
     (stopped s) (trapped s) (currentSection s) (forcelyStop s)
     (currentSectionPacket s) (channel s) (params s) (callback s)
     (debounceSendingEmptyData s) (sectionPacketSendingTimeout s)
     (listeners s).
Definition with_stopping v (s : t) : t :=
  mk (shouldDebounceEmptyData s) (streaming s) (pausing s) (paused s) v
     (stopped s) (trapped s) (currentSection s) (forcelyStop s)
     (currentSectionPacket s) (channel s) (params s) (callback s)
     (debounceSendingEmptyData s) (sectionPacketSendingTimeout s)
     (listeners s).
Definition with_stopped v (s : t) : t :=
  mk (shouldDebounceEmptyData s) (streaming s) (pausing s) (paused s)
     (stopping s) v (trapped s) (currentSection s) (forcelyStop s)
     (currentSectionPacket s) (channel s) (params s) (callback s)
     (debounceSendingEmptyData s) (sectionPacketSendingTimeout s)
     (listeners s).
Definition with_trapped v (s : t) : t :=
  mk (shouldDebounceEmptyData s) (streaming s) (pausing s) (paused s)
     (stopping s) (stopped s) v (currentSection s) (forcelyStop s)
     (currentSectionPacket s) (channel s) (params s) (callback s)
     (debounceSendingEmptyData s) (sectionPacketSendingTimeout s)
     (listeners s).
Definition with_currentSection v (s : t) : t :=
  mk (shouldDebounceEmptyData s) (streaming s) (pausing s) (paused s)
     (stopping s) (stopped s) (trapped s) v (forcelyStop s)
     (currentSectionPacket s) (channel s) (params s) (callback s)
     (debounceSendingEmptyData s) (sectionPacketSendingTimeout s)
     (listeners s).
Definition with_forcelyStop v (s : t) : t :=
  mk (shouldDebounceEmptyData s) (streaming s) (pausing s) (paused s)
     (stopping s) (stopped s) (trapped s) (currentSection s) v
     (currentSectionPacket s) (channel s) (params s) (callback s)
     (debounceSendingEmptyData s) (sectionPacketSendingTimeout s)
     (listeners s).
Definition with_currentSectionPacket v (s : t) : t :=
  mk (shouldDebounceEmptyData s) (streaming s) (pausing s) (paused s)
     (stopping s) (stopped s) (trapped s) (currentSection s) (forcelyStop
     s) v (channel s) (params s) (callback s) (debounceSendingEmptyData s)
     (sectionPacketSendingTimeout s) (listeners s).
Definition with_callback v (s : t) : t :=
  mk (shouldDebounceEmptyData s) (streaming s) (pausing s) (paused s)
     (stopping s) (stopped s) (trapped s) (currentSection s) (forcelyStop
     s) (currentSectionPacket s) (channel s) (params s) v
     (debounceSendingEmptyData s) (sectionPacketSendingTimeout s)
     (listeners s).
Definition with_debounceSendingEmptyData v (s : t) : t :=
  mk (shouldDebounceEmptyData s) (streaming s) (pausing s) (paused s)
     (stopping s) (stopped s) (trapped s) (currentSection s) (forcelyStop
     s) (currentSectionPacket s) (channel s) (params s) (callback s) v
     (sectionPacketSendingTimeout s) (listeners s).
Definition with_sectionPacketSendingTimeout v (s : t) : t :=
  mk (shouldDebounceEmptyData s) (streaming s) (pausing s) (paused s)
     (stopping s) (stopped s) (trapped s) (currentSection s) (forcelyStop
     s) (currentSectionPacket s) (channel s) (params s) (callback s)
     (debounceSendingEmptyData s) v (listeners s).
Definition with_listeners v (s : t) : t :=
  mk (shouldDebounceEmptyData s) (streaming s) (pausing s) (paused s)
     (stopping s) (stopped s) (trapped s) (currentSection s) (forcelyStop
     s) (currentSectionPacket s) (channel s) (params s) (callback s)
     (debounceSendingEmptyData s) (sectionPacketSendingTimeout s) v.

Definition M : Type -> Type := Eff.M t call exn.

(** The promise a method returns: already resolved, already rejected,
    or waiting for the [/cancel] write to settle. *)
Inductive promise : Type :=
| Resolved
| Rejected (e : exn)
| Pending.

(** [data(callback)] *)
Definition data (cb : Callback) : M unit :=
  assign (with_callback (Some cb)).

(** [on(ev, listener)], which the stream has from EventEmitter: the
    consumer puts a listener on one of its events. *)
Definition on (ev : string) : M unit :=
  assign (fun s => with_listeners (ev :: listeners s) s).

Definition listens (ev : string) (s : t) : bool :=
  existsb (String.eqb ev) (listeners s).

(** [this.emit(ev, arg)]. An [error] event that has no listener is
    thrown by EventEmitter; what the stream emits as [error] is the
    trap, which is no [Error], so the exception is
    [ERR_UNHANDLED_ERROR]. The listeners are the consumer's code. *)
Definition emit_event (ev : string) (arg : value) : M unit :=
  s <- this ;;
  if String.eqb ev "error" && negb (listens "error" s) then throw UnhandledError
  else emit (Emit ev arg).

(** [this.debounceSendingEmptyData.run()] *)
Definition debounce_run : M unit :=
  s <- this ;;
  when (bool_decide (is_Some (debounceSendingEmptyData s)))
    (assign (with_debounceSendingEmptyData (Some (mkDebounce true)))).

(** [this.debounceSendingEmptyData.cancel()] *)
Definition debounce_cancel : M unit :=
  s <- this ;;
  when (bool_decide (is_Some (debounceSendingEmptyData s)))
    (assign (with_debounceSendingEmptyData (Some (mkDebounce false)))).

(** [prepareDebounceEmptyData()]. The interval it reads from the
    [=interval=] parameter only sets the delay of the timer, which the
    model does not have. *)
Definition prepareDebounceEmptyData : M unit :=
  assign (with_shouldDebounceEmptyData true) ;;;
  assign (with_debounceSendingEmptyData (Some (mkDebounce false))).

(** The closure [sendData] of [onStream]. *)
Definition sendData : M unit :=
  s <- this ;;
  match callback s with
  | Some cb => emit (Invoke cb None (Batch (currentSectionPacket s)))
  | None => throw TypeError
  end ;;;
  assign (with_currentSectionPacket []).

(** [this.currentSectionPacket.length > 0 &&
     packet['.section'] !== this.currentSection] *)
Definition section_changed (sec : str) (s : t) : bool :=
  (0 <? length (currentSectionPacket s))%nat &&
  negb (bool_decide (Some sec = currentSection s)).

(** [onStream(packet)] *)
Definition onStream (packet : Packet) : M unit :=
  emit_event "data" (OnePacket packet) ;;;
  s <- this ;;
  match callback s with
  | Some cb =>
      match section_of packet with
      | Some (c :: sec) =>
          assign (with_sectionPacketSendingTimeout false) ;;;   (* clearTimeout *)
          assign (with_sectionPacketSendingTimeout true) ;;;    (* setTimeout *)
          when (section_changed (c :: sec) s)
            (assign (with_sectionPacketSendingTimeout false) ;;;
             sendData) ;;;
          assign (with_currentSection (Some (c :: sec))) ;;;
          assign (fun s => with_currentSectionPacket
                             (currentSectionPacket s ++ [packet]) s)
      | _ => emit (Invoke cb None (OnePacket packet))
      end
  | None => ret tt
  end.

(** The section timer fires: [sendData] runs. *)
Definition sectionTimeout : M unit :=
  s <- this ;;
  when (sectionPacketSendingTimeout s)
    (assign (with_sectionPacketSendingTimeout false) ;;;
     sendData).

(** The debounce timer fires: the function given to [debounce] runs. *)
Definition debounceTimeout : M unit :=
  s <- this ;;
  match debounceSendingEmptyData s with
  | Some d =>
      when (armed d)
        (assign (with_debounceSendingEmptyData (Some (mkDebounce false))) ;;;
         when (negb (stopped s) || negb (stopping s) ||
               negb (paused s) || negb (pausing s))
           (onStream EmptyArray ;;;
            debounce_run))
  | None => ret tt
  end.

(** [onTrap(data)]; [message] is [data.message]. *)
Definition onTrap (message : str) : M unit :=
  if bool_decide (message = lit "interrupted") then
    assign (with_streaming false)
  else
    assign (with_stopped true) ;;;
    assign (with_trapped true) ;;;
    s <- this ;;
    match callback s with
    | Some cb => emit (Invoke cb (Some message) Null)
    | None => emit_event "error" (Trap message)
    end ;;;
    emit_event "trap" (Trap message).

(** [onDone()] *)
Definition onDone : M unit :=
  s <- this ;;
  when (stopped s) (emit ChannelClose).

(** The listener of the channel's [close] event that [start] installs. *)
Definition onClose : M unit :=
  s <- this ;;
  when (forcelyStop s || (negb (pausing s) && negb (paused s)))
    (when (negb (trapped s)) (emit_event "done" Null) ;;;
     emit_event "close" Null) ;;;
  assign (with_stopped false).

(** The listener of the channel's [stream] event that [start]
    installs. *)
Definition onStreamPacket (packet : Packet) : M unit :=
  debounce_run ;;;
  onStream packet.

(** [start()] *)
Definition start : M unit :=
  s <- this ;;
  when (negb (stopped s) && negb (stopping s))
    (emit (ChannelOn "close" h_onClose) ;;;
     emit (ChannelOn "stream" h_onStreamPacket) ;;;
     emit (ChannelOnce "trap" h_onTrap) ;;;
     emit (ChannelOnce "done" h_onDone) ;;;
     emit (ChannelWrite (params s)) ;;;
     emit_event "started" Null ;;;
     when (shouldDebounceEmptyData s) prepareDebounceEmptyData).

(** [resume()] *)
Definition resume : M promise :=
  s <- this ;;
  if stopped s || stopping s then ret (Rejected (RosException "STREAMCLOSD"))
  else
    when (negb (streaming s))
      (assign (with_pausing false) ;;;
       start ;;;
       assign (with_streaming true)) ;;;
    ret Resolved.

(** [stop(pausing)], up to the promise it returns. When the promise is
    [Pending] the [/cancel] write is under way, and [stop_then] runs
    once it resolves. *)
Definition stop (pausing_ : bool) : M promise :=
  s <- this ;;
  if stopped s || stopping s then ret Resolved
  else
    when (negb pausing_) (assign (with_forcelyStop true)) ;;;
    if paused s then
      assign (with_streaming false) ;;;
      assign (with_stopping false) ;;;
      assign (with_stopped true) ;;;
      emit ChannelClose ;;;
      ret Resolved
    else
      when (negb (pausing s)) (assign (with_stopping true)) ;;;
      debounce_cancel ;;;
      emit (CancelWrite [lit "/cancel"; lit "=tag=" ++ Id (channel s)]) ;;;
      ret Pending.

(** The [then] callback of [stop]'s write. *)
Definition stop_then : M promise :=
  assign (with_streaming false) ;;;
  s <- this ;;
  when (negb (pausing s))
    (assign (with_stopping false) ;;;
     assign (with_stopped true)) ;;;
  emit_event "stopped" Null ;;;
  ret Resolved.

(** [close()] *)
Definition close : M promise := stop false.

(** [pause()], up to the promise it returns. When the promise is
    [Pending], [pause_then] runs once [stop(true)] has resolved. *)
Definition pause : M promise :=
  s <- this ;;
  if stopped s || stopping s then ret (Rejected (RosException "STREAMCLOSD"))
  else if pausing s || paused s then ret Resolved
  else if streaming s then
    assign (with_pausing true) ;;;
    stop true
  else ret Resolved.

(** The [then] callback of [pause]. *)
Definition pause_then : M promise :=
  assign (with_pausing false) ;;;
  assign (with_paused true) ;;;
  ret Resolved.

(** The calls of the consumer's callback among the effects. *)
Definition invocations (l : list call) : list (Callback * option (list Z) * value) :=
  omap (fun x => match x with
                 | Invoke cb err v => Some (cb, err, v)
                 | _ => None
                 end) l.

(** The [data] events among the effects. *)
Definition data_events (l : list call) : list value :=
  omap (fun x => match x with
                 | Emit "data" v => Some v
                 | _ => None
                 end) l.

(** A stream that was started and then stopped: [stop()] was called
    and its [/cancel] write has resolved. *)
Definition stopped_stream : t :=
  let s := constructor (mkChannel (lit "a1")) [lit "/ip/address/listen"] (Some 3%nat) in
  let s := final (start s) in
  let s := final (stop false s) in
  final (stop_then s).

End RStream.

(** ** Whole sentences in one chunk *)

Module Chunk.
Import JS Eff Receiver Reply.
Local Open Scope Z_scope.

(** A word that the decoder reads as it was written: not empty, and
    shorter than 2^31 bytes. *)
Definition sized (w : Buffer) : Prop :=
  w <> [] /\ Z.of_nat (length w) < 2 ^ 31.

(** The [while] loop with the rounds that [processRawData] gives it. *)
Definition loop (data : Buffer) : M unit := rawLoop (S (length data)) data.

(** A word on the wire, followed by the terminator when it is the last
    of its sentence. *)
Definition item_bytes (it : Buffer * bool) : Buffer :=
  Wire.word (fst it) ++ (if snd it then [0] else []).

Definition items_bytes (its : list (Buffer * bool)) : Buffer :=
  concat (map item_bytes its).

(** The words of a sentence, the last one marked. *)
Fixpoint items_of (ws : list Buffer) : list (Buffer * bool) :=
  match ws with
  | [] => []
  | [w] => [(w, true)]
  | w :: ws' => (w, false) :: items_of ws'
  end.

(** [if (this.currentTag)]: the tag that [sendTagData] would get. *)
Definition pending_tag (a : gathered) : option str :=
  match g_tag a with
  | Some (c :: T) => Some (c :: T)
  | _ => None
  end.

(** What [process] does to the reply in progress with a line that had
    more data after it: a [.tag=] line sets the tag; a [!] line first
    sends what was gathered for the pending tag and starts over, then
    joins the packet and becomes the reply; any other line joins the
    packet. *)
Definition take (d : str) (a : gathered) : gathered :=
  if starts_with (lit ".tag=") d then
    mkGathered (Some (substring 5 d)) (g_packet a) (g_reply a)
  else if starts_with (lit "!") d then
    match pending_tag a with
    | Some _ => mkGathered None [d] (Some d)
    | None => mkGathered (g_tag a) (g_packet a ++ [d]) (Some d)
    end
  else
    mkGathered (g_tag a) (g_packet a ++ [d]) (g_reply a).

(** The call that a [!] line causes when a tag is pending and has a
    subscriber. *)
Definition flushed (m : gmap (list Z) Tag) (d : str) (a : gathered) : list event :=
  if starts_with (lit "!") d then
    match pending_tag a with
    | Some T =>
        match m !! T with
        | Some entry => [Called (callback entry) (g_packet a)]
        | None => []
        end
    | None => []
    end
  else [].

(** The line does not make [sendTagData] throw: if it starts with [!]
    and a tag is pending, the tag has a subscriber. *)
Definition registered (m : gmap (list Z) Tag) (d : str) (a : gathered) : Prop :=
  starts_with (lit "!") d = true ->
  forall T, pending_tag a = Some T -> is_Some (m !! T).

Fixpoint registered_all (m : gmap (list Z) Tag) (ds : list str) (a : gathered) : Prop :=
  match ds with
  | [] => True
  | d :: ds' => registered m d a /\ registered_all m ds' (take d a)
  end.

(** An outcome with events before it. *)
Definition prepend {A} (evs : list event) (o : outcome Receiver.t event exn A) :
    outcome Receiver.t event exn A :=
  mkOutcome (final o) (evs ++ emitted o) (ending o).

(** The lines of a chunk, one after the other: every line had more
    data after it; [fin] is what happens when they are through. *)
Fixpoint lines_outcome (m : gmap (list Z) Tag) (ds : list str)
    (fin : gathered -> outcome Receiver.t event exn unit)
    (a : gathered) : outcome Receiver.t event exn unit :=
  match ds with
  | [] => fin a
  | d :: ds' => prepend (flushed m d a) (lines_outcome m ds' fin (take d a))
  end.

(** The last line of a chunk that holds whole sentences: it is
    followed by its terminator alone and goes through
    [processSentence] with [hadMore] false. *)
Definition last_line (m : gmap (list Z) Tag) (lastl : str) (a : gathered) :
    outcome Receiver.t event exn unit :=
  (pushLine (mkLine lastl false) ;;; processSentence) (at_rest m (Num 0) [] a None).

(** The chunk ends with the last byte of a word: the Receiver is left
    between two words. *)
Definition settled (m : gmap (list Z) Tag) (a : gathered) :
    outcome Receiver.t event exn unit :=
  mkOutcome (at_rest m (Num 0) [] a None) [] (Return tt).

(** What the loop leaves as it is while the pipe is not processed. *)
Definition same_reply (r r' : Receiver.t) : Prop :=
  processingSentencePipe r' = processingSentencePipe r /\
  tags r' = tags r /\
  currentPacket r' = currentPacket r /\
  currentTag r' = currentTag r /\
  currentReply r' = currentReply r.

(** A tagged reply: the reply word, the words before the tag word,
    the tag, the words after the tag word, and the entry that the tag
    map holds for the tag. *)
Record reply : Type := mkReply {
  bang : Buffer;
  before : list Buffer;
  tag : Buffer;
  behind : list Buffer;
  subscriber : Tag
}.

(** The words of the reply on the wire. *)
Definition reply_words (rp : reply) : list Buffer :=
  bang rp :: before rp ++ (Wire.bytes ".tag=" ++ tag rp) :: behind rp.

(** What its subscriber is to get: the words but the tag word,
    decoded. *)
Definition reply_packet (rp : reply) : list str :=
  map Iconv.decode (bang rp :: before rp ++ behind rp).

Definition reply_call (rp : reply) : event :=
  Called (callback (subscriber rp)) (reply_packet rp).

(** A word that is neither a reply word nor a tag word. *)
Definition plain (w : Buffer) : Prop :=
  starts_with (lit ".tag=") (Iconv.decode w) = false /\
  starts_with (lit "!") (Iconv.decode w) = false.

Definition well_formed (m : gmap (list Z) Tag) (rp : reply) : Prop :=
  Forall sized (reply_words rp) /\
  starts_with (lit "!") (Iconv.decode (bang rp)) = true /\
  Iconv.decode (bang rp) <> lit "!fatal" /\
  Forall plain (before rp ++ behind rp) /\
  tag rp <> [] /\
  m !! Iconv.decode (tag rp) = Some (subscriber rp).

(** What the Receiver has gathered when the last word of the reply
    has been taken in and nothing has been sent yet. *)
Definition gathered_reply (rp : reply) : gathered :=
  mkGathered (Some (Iconv.decode (tag rp))) (reply_packet rp)
             (Some (Iconv.decode (bang rp))).

(** The Receiver between two replies of a chunk: nothing gathered and
    nothing to send, or the reply before, whose call is still to
    come. *)
Definition ready (m : gmap (list Z) Tag) (a : gathered) (evs : list event) : Prop :=
  (truthy_str (g_tag a) = false /\ g_packet a = [] /\ evs = []) \/
  (exists rp, well_formed m rp /\ a = gathered_reply rp /\ evs = [reply_call rp]).

End Chunk.

(** ** Calls from outside, one after the other *)

Module Calls.
Import Eff.

Section Calls.
Context {S E X : Type}.

(** The calls that the outside makes on an object, one after the
    other: the user, the event loop, a timer. An exception ends the
    call that threw it, not the calls after it. The result is the
    object after the last call and everything the calls emitted. *)
Fixpoint run (calls : list (Eff.M S E X unit)) (s : S) : S * list E :=
  match calls with
  | [] => (s, [])
  | call :: rest =>
      let o := call s in
      let '(s', evs) := run rest (final o) in
      (s', emitted o ++ evs)
  end.

End Calls.
End Calls.

(** ** The life of a Connector *)

Module ConnectorLife.
Import JS Eff Connector.

(** What can happen to a Connector: the calls of its owner and the
    events of its socket. *)
Inductive op : Type :=
| Connect
| Write (data : list str)
| Read (tag : str) (cb : Receiver.Callback)
| StopRead (tag : str)
| Close
| Destroy
| OnConnect
| OnEnd
| OnError (errno : string)
| OnTimeout
| OnData (data : Buffer)
| On (ev : string).

Definition step (o : op) : Connector.M unit :=
  match o with
  | Connect => connect
  | Write data => write data
  | Read tag cb => read tag cb
  | StopRead tag => stopRead tag
  | Close => close
  | Destroy => destroy
  | OnConnect => onConnect
  | OnEnd => onEnd
  | OnError errno => onError errno
  | OnTimeout => onTimeout
  | OnData data => onData data
  | On ev => on ev
  end.

Definition life (ops : list op) (c : Connector.t) : Connector.t * list call :=
  Calls.run (map step ops) c.

(** A socket is created: [new Socket()] or [tls.connect(...)]. *)
Definition opens (x : call) : bool :=
  match x with
  | NewSocket | TlsConnect _ _ _ _ => true
  | _ => false
  end.

(** [socket.end()] *)
Definition ends (x : call) : bool :=
  match x with
  | SocketEnd => true
  | _ => false
  end.

(** How many sockets the calls created, and how often they called
    [socket.end()]. *)
Definition sockets_opened (l : list call) : nat := length (List.filter opens l).
Definition sockets_ended (l : list call) : nat := length (List.filter ends l).

(** The sockets that a Connector can still create: none once
    [connect()] has gone through. *)
Definition sockets_left (c : Connector.t) : nat :=
  if connected c || connecting c then 0%nat else 1%nat.

(** The calls of [socket.end()] that it can still make: none once
    [close()] has been called. *)
Definition ends_left (c : Connector.t) : nat :=
  if closing c then 0%nat else 1%nat.

(** The operation touches the subscription of [tag]. *)
Definition touches (tag : str) (o : op) : bool :=
  match o with
  | Read t _ | StopRead t => bool_decide (t = tag)
  | _ => false
  end.

End ConnectorLife.

(** ** CommandBuilder *)

Module CommandBuilder.
Import JS.

(** A number that JavaScript prints as the decimal digits of an
    integer: a safe integer, whose magnitude is at most 2^53 - 1. *)
Record safe_integer : Type := mkSafe {
  int_value : Z;
  int_safe : Is_true (Z.abs int_value <=? 2 ^ 53 - 1)%Z
}.

(** The argument of [param] and [where]: [string | number | boolean].
    Of the numbers the model has the safe integers. *)
Inductive value : Type :=
| VString (s : str)
| VBoolean (b : bool)
| VInteger (n : safe_integer).

(** The decimal digits of a natural number below 10^fuel, the most
    significant first. *)
Fixpoint digits (fuel : nat) (n : Z) (acc : str) : str :=
  match fuel with
  | O => acc
  | S fuel' =>
      let acc' := (48 + n mod 10)%Z :: acc in
      if (n <? 10)%Z then acc' else digits fuel' (n / 10)%Z acc'
  end.

(** [String(n)] for a safe integer, which has at most 16 digits. *)
Definition decimal (n : safe_integer) : str :=
  let z := int_value n in
  if (z <? 0)%Z then 45%Z :: digits 16 (- z)%Z [] else digits 16 z [].

(** What the template literal makes of the value. *)
Definition to_string (v : value) : str :=
  match v with
  | VString s => s
  | VBoolean true => lit "true"
  | VBoolean false => lit "false"
  | VInteger n => decimal n
  end.

Record t : Type := mk {
  command : str;
  words : list str
}.

(** [new CommandBuilder(command)] *)
Definition constructor (command : str) : t :=
  {| command := command; words := [] |}.

(** [this.words.push(word)] *)
Definition push (word : str) (b : t) : t :=
  mk (command b) (words b ++ [word]).

(** [param(key, value)] *)
Definition param (key : str) (v : value) (b : t) : t :=
  push (lit "=" ++ key ++ lit "=" ++ to_string v) b.

(** [id(id)] *)
Definition id (i : str) (b : t) : t :=
  push (lit "=.id=" ++ i) b.

(** [where(key, value)] *)
Definition where_ (key : str) (v : value) (b : t) : t :=
  push (lit "?=" ++ key ++ lit "=" ++ to_string v) b.

(** [whereLike(key, value)] *)
Definition whereLike (key : str) (v : str) (b : t) : t :=
  push (lit "?" ++ key ++ lit "~" ++ v) b.

(** [fields.join(',')] *)
Fixpoint join (sep : str) (fields : list str) : str :=
  match fields with
  | [] => []
  | [f] => f
  | f :: rest => f ++ sep ++ join sep rest
  end.

(** [select(...fields)] *)
Definition select (fields : list str) (b : t) : t :=
  push (lit "=.proplist=" ++ join (lit ",") fields) b.

(** [build()] *)
Definition build (b : t) : list str :=
  command b :: words b.

(** A call in a chain. Every method returns [this], so a chain is the
    calls applied to the builder one after the other. *)
Inductive call : Type :=
| Param (key : str) (v : value)
| IdOf (i : str)
| Where (key : str) (v : value)
| WhereLike (key : str) (v : str)
| Select (fields : list str).

Definition apply (b : t) (c : call) : t :=
  match c with
  | Param key v => param key v b
  | IdOf i => id i b
  | Where key v => where_ key v b
  | WhereLike key v => whereLike key v b
  | Select fields => select fields b
  end.

Definition chain (calls : list call) (b : t) : t := fold_left apply calls b.

(** The word that a call adds to the command. *)
Definition word_of (c : call) : str :=
  match c with
  | Param key v => lit "=" ++ key ++ lit "=" ++ to_string v
  | IdOf i => lit "=.id=" ++ i
  | Where key v => lit "?=" ++ key ++ lit "=" ++ to_string v
  | WhereLike key v => lit "?" ++ key ++ lit "~" ++ v
  | Select fields => lit "=.proplist=" ++ join (lit ",") fields
  end.

End CommandBuilder.

(** * Properties *)

(** ** The length codec *)

Section LengthCodec.
Import JS Length.
Local Open Scope Z_scope.

(** A boolean property checked on [0 .. n-1] holds on that range. *)
Lemma range_forallb (P : Z -> bool) (n : nat) :
  forallb P (map Z.of_nat (seq 0 n)) = true ->
  forall z, 0 <= z < Z.of_nat n -> P z = true.
Proof.
  intros H z Hz. rewrite forallb_forall in H. apply H.
  apply in_map_iff. exists (Z.to_nat z). split; [lia|].
  apply in_seq. lia.
Qed.

Lemma wrap32_small z : - 2 ^ 31 <= z < 2 ^ 31 -> wrap32 z = z.
Proof. intros H. unfold wrap32. rewrite Z.mod_small; lia. Qed.

(** [x << 8] is [x * 256] as long as the result fits 31 bits. *)
Lemma shl8_small x : 0 <= x < 2 ^ 23 -> shl (Num x) 8 = Num (x * 256).
Proof.
  intros H. unfold shl, ToInt32. rewrite (wrap32_small x) by lia.
  rewrite Z.shiftl_mul_pow2 by lia. change (2 ^ 8) with 256.
  rewrite wrap32_small; [reflexivity | lia].
Qed.

Lemma head_form2 h : 0 <= h < 64 -> head_form 0x80 63 h = true.
Proof. apply (range_forallb (head_form 0x80 63) 64). vm_compute. reflexivity. Qed.

Lemma head_form3 h : 0 <= h < 32 -> head_form 0xC0 31 h = true.
Proof. apply (range_forallb (head_form 0xC0 31) 32). vm_compute. reflexivity. Qed.

Lemma head_form4 h : 0 <= h < 16 -> head_form 0xE0 15 h = true.
Proof. apply (range_forallb (head_form 0xE0 15) 16). vm_compute. reflexivity. Qed.

Lemma seq_lit_band_eq a b h : seq_lit (band a b) h = true -> band a b = Num h.
Proof. unfold band, seq_lit. intros H. apply Z.eqb_eq in H. congruence. Qed.

Ltac split_head H :=
  unfold head_form in H;
  repeat (apply andb_prop in H; destruct H as [H ?]);
  repeat match goal with
         | E : Bool.eqb _ _ = true |- _ => apply Bool.eqb_prop in E; cbn [Z.eqb Pos.eqb] in E
         | E : seq_lit (band _ _) _ = true |- _ => apply seq_lit_band_eq in E
         end.

Lemma decode_form1 b rest :
  0 <= b < 128 -> decodeLength (b :: rest) = (1%nat, Num b).
Proof.
  intros Hb.
  assert (H : truthy (band (Num b) (Num 128)) = false).
  { apply negb_true_iff.
    apply (range_forallb (fun b => negb (truthy (band (Num b) (Num 128)))) 128);
      [vm_compute; reflexivity | lia]. }
  unfold decodeLength, next, at_. cbn [lookup list_lookup]. rewrite H. reflexivity.
Qed.

Lemma decode_form2 h lo rest :
  0 <= h < 64 ->
  decodeLength (Z.lor 0x80 h :: lo :: rest) = (2%nat, Num (h * 256 + lo)).
Proof.
  intros Hh. pose proof (head_form2 h Hh) as H. split_head H.
  unfold decodeLength, next, at_. cbn [lookup list_lookup].
  rewrite H, H3, H0, shl8_small by lia. reflexivity.
Qed.

Lemma decode_form3 h m lo rest :
  0 <= h < 32 -> 0 <= m < 256 ->
  decodeLength (Z.lor 0xC0 h :: m :: lo :: rest)
  = (3%nat, Num ((h * 256 + m) * 256 + lo)).
Proof.
  intros Hh Hm. pose proof (head_form3 h Hh) as H. split_head H.
  unfold decodeLength, next, at_. cbn [lookup list_lookup].
  rewrite H, H3, H2, H0, shl8_small by lia. cbn [add].
  rewrite shl8_small by lia. reflexivity.
Qed.

Lemma decode_form4 h m1 m2 lo rest :
  0 <= h < 16 -> 0 <= m1 < 256 -> 0 <= m2 < 256 ->
  decodeLength (Z.lor 0xE0 h :: m1 :: m2 :: lo :: rest)
  = (4%nat, Num (((h * 256 + m1) * 256 + m2) * 256 + lo)).
Proof.
  intros Hh Hm1 Hm2. pose proof (head_form4 h Hh) as H. split_head H.
  unfold decodeLength, next, at_. cbn [lookup list_lookup].
  rewrite H, H3, H2, H1, H0, shl8_small by lia. cbn [add].
  rewrite shl8_small by lia. cbn [add].
  rewrite shl8_small by lia. reflexivity.
Qed.

Lemma decode_form5 m0 m1 m2 lo rest :
  0 <= m0 < 128 -> 0 <= m1 < 256 -> 0 <= m2 < 256 ->
  decodeLength (0xF0 :: m0 :: m1 :: m2 :: lo :: rest)
  = (5%nat, Num (((m0 * 256 + m1) * 256 + m2) * 256 + lo)).
Proof.
  intros H0 H1 H2.
  unfold decodeLength, next, at_. cbn [lookup list_lookup].
  change (truthy (band (Num 240) (Num 128))) with true.
  change (seq_lit (band (Num 240) (Num 192)) 128) with false.
  change (seq_lit (band (Num 240) (Num 224)) 192) with false.
  change (seq_lit (band (Num 240) (Num 240)) 224) with false.
  cbv iota.
  rewrite shl8_small by lia. cbn [add].
  rewrite shl8_small by lia. cbn [add].
  rewrite shl8_small by lia. reflexivity.
Qed.

(** The bytes of [L] as the encoder cuts them. *)
Lemma byte_of L k : 0 <= k -> Z.land (Z.shiftr L k) 0xFF = (L / 2 ^ k) mod 256.
Proof.
  intros Hk. rewrite Z.shiftr_div_pow2 by lia.
  change 0xFF with (Z.ones 8). rewrite Z.land_ones by lia. reflexivity.
Qed.

Lemma length_encode_length L : length (encode_length L) = prefix_size L.
Proof.
  unfold encode_length, prefix_size.
  repeat match goal with |- context [if ?c then _ else _] => destruct c end;
    reflexivity.
Qed.

(** The decoder reads the prefix of [L] in front of any bytes. *)
Lemma decodeLength_prefix (L : Z) (more : Buffer) :
  0 <= L < 2 ^ 31 ->
  decodeLength (encode_length L ++ more) = (prefix_size L, Num L).
Proof.
  intros HL. unfold encode_length, prefix_size.
  rewrite !byte_of by lia. rewrite !Z.shiftr_div_pow2 by lia.
  destruct (Z.ltb_spec L 0x80).
  { apply decode_form1. lia. }
  destruct (Z.ltb_spec L 0x4000).
  { cbn [app]. rewrite decode_form2 by (Z.div_mod_to_equations; lia).
    do 2 f_equal. Z.div_mod_to_equations; lia. }
  destruct (Z.ltb_spec L 0x200000).
  { cbn [app]. rewrite decode_form3 by (Z.div_mod_to_equations; lia).
    do 2 f_equal. Z.div_mod_to_equations; lia. }
  destruct (Z.ltb_spec L 0x10000000).
  { cbn [app]. rewrite decode_form4 by (Z.div_mod_to_equations; lia).
    do 2 f_equal. Z.div_mod_to_equations; lia. }
  cbn [app]. rewrite decode_form5 by (Z.div_mod_to_equations; lia).
  do 2 f_equal. Z.div_mod_to_equations; lia.
Qed.

(** On a buffer that is not empty and shorter than the prefix that its
    first byte announces, the decoder reads past the end: the length
    it returns is [NaN]. *)
Lemma decodeLength_nan (data : Buffer) :
  data <> [] ->
  (length data < fst (decodeLength data))%nat ->
  snd (decodeLength data) = NaN.
Proof.
  intros Hne Hlen. unfold decodeLength, next in *.
  destruct data as [|b [|d1 [|d2 [|d3 [|d4 rest]]]]]; [congruence| | | | |];
    cbn [at_ lookup list_lookup] in *;
    repeat match goal with
           | |- context [if ?c then _ else _] => destruct c
           end;
    cbn in Hlen |- *; try lia; reflexivity.
Qed.

(** The decoder's signal of insufficient data. [decodeLength] is a
    function of the buffer alone: it reads no field of the Receiver and
    writes none. It announces between one and five prefix bytes, and on
    a buffer that is not empty and shorter than what it announces the
    length it returns is [NaN]. *)
Theorem decodeLength_short (data : Buffer) :
  data <> [] ->
  (length data < fst (decodeLength data))%nat ->
  (1 <= fst (decodeLength data) <= 5)%nat /\
  snd (decodeLength data) = NaN.
Proof.
  intros Hne Hlen. split; [|apply decodeLength_nan; assumption].
  clear. unfold decodeLength, next.
  repeat match goal with |- context [if ?c then _ else _] => destruct c end;
    cbn; lia.
Qed.

Lemma decodeLength_short_witness :
  let data : Buffer := [0x81] in
  data <> [] /\ (length data < fst (decodeLength data))%nat /\
  (1 <= fst (decodeLength data) <= 5)%nat /\
  snd (decodeLength data) = NaN.
Proof.
  cbv zeta. split; [discriminate|]. split; [vm_compute; lia|].
  apply (decodeLength_short [0x81]); [discriminate | vm_compute; lia].
Defined.

(** C2 (as amended). For every length [L] below 2^31, the range of
    word lengths of the data model, [decodeLength] on the shortest
    prefix form of [L] returns the number of prefix bytes and [L]. *)
Theorem decodeLength_encode_length (L : Z) :
  0 <= L < 2 ^ 31 ->
  decodeLength (encode_length L) = (prefix_size L, Num L).
Proof.
  intros HL. rewrite <- (app_nil_r (encode_length L)).
  apply decodeLength_prefix. exact HL.
Qed.

(** The round trip at a length of each of the five prefix forms. *)
Lemma decodeLength_encode_length_witness :
  let lengths := [0; 6; 127; 128; 300; 16383; 16384; 2097151; 2097152;
                  268435455; 268435456; 2147483647] in
  Forall (fun L => 0 <= L < 2 ^ 31 /\
                   decodeLength (encode_length L) = (prefix_size L, Num L))
         lengths.
Proof.
  cbv zeta.
  repeat (constructor; [ split; [ lia | apply decodeLength_encode_length; lia ] | ]).
  constructor.
Defined.

(** C2 as stated fails from 2^31 on: the five-byte form of 2^31 is
    [F0 80 00 00 00], and the decoder's last [<< 8] overflows the signed
    32-bit range, so it returns -2^31. *)
Lemma decodeLength_encode_length_2_31 :
  0 <= 2 ^ 31 < 2 ^ 32 /\
  encode_length (2 ^ 31) = [0xF0; 0x80; 0; 0; 0] /\
  decodeLength (encode_length (2 ^ 31)) = (5%nat, Num (- 2 ^ 31)) /\
  decodeLength (encode_length (2 ^ 31)) <> (prefix_size (2 ^ 31), Num (2 ^ 31)).
Proof.
  split; [lia|]. split; [reflexivity|]. split; [reflexivity|].
  vm_compute. discriminate.
Qed.

End LengthCodec.

(** ** The tag map *)

Section TagMap.
Import JS Receiver.

Lemma tags_read tag cb r : tags (read tag cb r) = <[tag := mkTag tag cb]> (tags r).
Proof. reflexivity. Qed.

Lemma tags_stop tag r : tags (stop tag r) = delete tag (tags r).
Proof. reflexivity. Qed.

Lemma run_app ops1 ops2 r : run (ops1 ++ ops2) r = run ops2 (run ops1 r).
Proof. unfold run. apply fold_left_app. Qed.

(** A list without repetition whose elements all equal [x] is empty or
    [[x]]. *)
Lemma NoDup_all_eq {A} (l : list A) (x : A) :
  NoDup l -> (forall y, y ∈ l -> y = x) -> l = [] \/ l = [x].
Proof.
  intros Hnd Hall. destruct l as [|a [|b l]]; [left; reflexivity | right | exfalso].
  - f_equal. apply Hall. left.
  - assert (a = x) as -> by (apply Hall; left).
    assert (b = x) as -> by (apply Hall; right; left).
    apply NoDup_cons in Hnd as [Hnotin _]. apply Hnotin. left.
Qed.

(** The subscribers of a tag are what the map holds under it: at most
    one. *)
Lemma subscribers_lookup tag r :
  subscribers tag r = match tags r !! tag with Some e => [e] | None => [] end.
Proof.
  unfold subscribers.
  remember (filter (fun kv : str * Tag => kv.1 = tag) (map_to_list (tags r)))
    as l eqn:El.
  assert (Hin : forall k e, (k, e) ∈ l <-> k = tag /\ tags r !! k = Some e).
  { intros k e. rewrite El, list_elem_of_filter, elem_of_map_to_list.
    reflexivity. }
  assert (Hnd : NoDup l) by (rewrite El; apply NoDup_filter, NoDup_map_to_list).
  clear El.
  destruct (tags r !! tag) as [e|] eqn:E.
  - assert (Hall : forall y, y ∈ l -> y = (tag, e)).
    { intros [k e'] Hy. apply Hin in Hy as [-> Hy].
      cut (Some e' = Some e); [intros [= ->]; reflexivity|].
      transitivity (tags r !! tag); [symmetry; exact Hy | exact E]. }
    destruct (NoDup_all_eq l (tag, e) Hnd Hall) as [Hl|Hl].
    + assert (H : (tag, e) ∈ l) by (apply Hin; auto).
      rewrite Hl in H. inversion H.
    + rewrite Hl. reflexivity.
  - destruct l as [|[k e] l']; [reflexivity|].
    assert (H : (k, e) ∈ (k, e) :: l') by left.
    apply Hin in H as [-> H].
    cut (Some e = None); [discriminate|].
    transitivity (tags r !! tag); [symmetry; exact H | exact E].
Qed.

(** C10. [read] on a tag that already has a subscriber replaces the
    subscriber: after [read(t, c1)] and [read(t, c2)], whatever calls
    of [read] and [stop] came before, the map holds [c2] under [t] and
    nothing else under [t], it is the same map that [read(t, c2)] alone
    would have given, and [read] has no way to fail (it is a total
    function of the Receiver). After every sequence of calls a tag has
    at most one subscriber. *)
Theorem read_replaces_subscriber (ops : list op) (t : str) (c1 c2 : Callback) :
  let before := run ops new in
  let r := run (ops ++ [DoRead t c1; DoRead t c2]) new in
  tags r !! t = Some (mkTag t c2) /\
  subscribers t r = [mkTag t c2] /\
  tags r = tags (read t c2 before) /\
  size (tags r) = size (tags (read t c1 before)) /\
  (forall ops' t', length (subscribers t' (run ops' new)) <= 1).
Proof.
  cbv zeta. rewrite run_app.
  change (run [DoRead t c1; DoRead t c2] (run ops new))
    with (read t c2 (read t c1 (run ops new))).
  set (before := run ops new).
  rewrite !tags_read.
  assert (Hlookup : <[t:=mkTag t c2]> (<[t:=mkTag t c1]> (tags before)) !! t
                    = Some (mkTag t c2)) by apply lookup_insert_eq.
  split; [exact Hlookup|].
  split.
  { rewrite subscribers_lookup, !tags_read, Hlookup. reflexivity. }
  split; [apply insert_insert_eq|].
  split.
  { rewrite insert_insert_eq.
    destruct (tags before !! t) as [e|] eqn:E.
    - rewrite !map_size_insert_Some by (eexists; exact E). reflexivity.
    - rewrite !map_size_insert_None by exact E. reflexivity. }
  intros ops' t'. rewrite subscribers_lookup.
  destruct (tags (run ops' new) !! t'); cbn; lia.
Qed.

End TagMap.

(** ** The effect monad *)

Section MonadLaws.
Import Eff.

Lemma bind_this {S E X A} (k : S -> Eff.M S E X A) (s : S) : bind this k s = k s s.
Proof. unfold bind, this. destruct (k s s); reflexivity. Qed.

Lemma bind_assign {S E X A} (f : S -> S) (k : unit -> Eff.M S E X A) (s : S) :
  bind (assign f) k s = k tt (f s).
Proof. unfold bind, assign. destruct (k tt (f s)); reflexivity. Qed.

Lemma bind_ret {S E X A B} (a : A) (k : A -> Eff.M S E X B) (s : S) :
  bind (ret a) k s = k a s.
Proof. unfold bind, ret. destruct (k a s); reflexivity. Qed.

Lemma bind_bind {S E X A B C} (m : Eff.M S E X A) (f : A -> Eff.M S E X B)
    (g : B -> Eff.M S E X C) (s : S) :
  bind (bind m f) g s = bind m (fun x => bind (f x) g) s.
Proof.
  unfold bind. destruct (m s) as [s1 e1 [a|x]]; [|reflexivity].
  destruct (f a s1) as [s2 e2 [b|x]]; [|reflexivity].
  destruct (g b s2) as [s3 e3 c]. rewrite app_assoc. reflexivity.
Qed.

Lemma bind_quiet {S E X A B} (m : Eff.M S E X A) (k : A -> Eff.M S E X B)
    (s s1 : S) (a : A) :
  m s = mkOutcome s1 [] (Return a) -> bind m k s = k a s1.
Proof. intros H. unfold bind. rewrite H. destruct (k a s1); reflexivity. Qed.

Lemma bind_outcome {S E X A B} (m : Eff.M S E X A) (k : A -> Eff.M S E X B)
    (s s1 s2 : S) (a : A) (b : B) e1 e2 :
  m s = mkOutcome s1 e1 (Return a) ->
  k a s1 = mkOutcome s2 e2 (Return b) ->
  bind m k s = mkOutcome s2 (e1 ++ e2) (Return b).
Proof. intros H1 H2. unfold bind. rewrite H1, H2. reflexivity. Qed.

Lemma bind_final_ret {S E X A B} (m : Eff.M S E X A) (k : A -> Eff.M S E X B) (s : S) :
  (forall a s1, final (k a s1) = s1) -> final (bind m k s) = final (m s).
Proof.
  intros H. unfold bind. destruct (m s) as [s1 e1 [a|x]]; [|reflexivity].
  specialize (H a s1). destruct (k a s1); exact H.
Qed.

End MonadLaws.

(** ** The Receiver's loops *)

Section ReceiverLoops.
Import JS Eff Receiver Wire Reply.
Local Open Scope Z_scope.

#[local] Arguments lit : simpl never.
#[local] Arguments reply_is : simpl never.
#[local] Arguments starts_with : simpl never.
#[local] Arguments seq_lit : simpl never.
#[local] Arguments truthy_str : simpl never.
#[local] Arguments substring : simpl never.
#[local] Arguments Iconv.decode : simpl never.
#[local] Arguments Length.decodeLength : simpl never.
#[local] Arguments rawLoop : simpl never.
#[local] Arguments Length.encode_length : simpl never.
#[local] Arguments Length.prefix_size : simpl never.

(** One round of the loop. *)
Lemma rawLoop_S fuel data :
  rawLoop (S fuel) data =
      if (0 <? length data)%nat then
        r <- this ;;
        if gt0 (dataLength r) then
          let len := Num (Z.of_nat (length data)) in
          if le len (dataLength r) then
            assign (fun r => with_dataLength (sub (dataLength r) len) r) ;;;
            assign (fun r => with_currentLine (currentLine r ++ Iconv.decode data) r) ;;;
            r <- this ;;
            when (seq_lit (dataLength r) 0)
              (pushLine (mkLine (currentLine r)
                                (negb (seq_lit (dataLength r) (Z.of_nat (length data))))) ;;;
               processSentence ;;;
               assign (with_currentLine []))
          else
            let want := offset (dataLength r) in
            let tmpBuffer := slice_to want data in
            let tmpStr := Iconv.decode tmpBuffer in
            assign (fun r => with_currentLine (currentLine r ++ tmpStr) r) ;;;
            r <- this ;;
            let line := currentLine r in
            assign (with_currentLine []) ;;;
            let data := slice_from want data in
            let '(descriptor_length, len) := Length.decodeLength data in
            when (length data <? descriptor_length)%nat
              (assign (with_lengthDescriptorSegment (Some data))) ;;;
            assign (with_dataLength len) ;;;
            let data := slice_from descriptor_length data in
            data <- dropPadding data ;;
            pushLine (mkLine line (0 <? length data)%nat) ;;;
            processSentence ;;;
            rawLoop fuel data
        else
          let '(descriptor_length, len) := Length.decodeLength data in
          assign (with_dataLength len) ;;;
          let data := slice_from descriptor_length data in
          data <- dropPadding data ;;
          rawLoop fuel data
      else ret tt.
Proof. reflexivity. Qed.

Lemma rawLoop_nil fuel r : rawLoop (S fuel) [] r = mkOutcome r [] (Return tt).
Proof. reflexivity. Qed.

Lemma safe_ret {A} (a : A) : safe (ret a).
Proof. intros s. reflexivity. Qed.

Lemma safe_this : safe this.
Proof. intros s. reflexivity. Qed.

Lemma safe_assign f : safe (assign f).
Proof. intros s. reflexivity. Qed.

Lemma safe_bind {A B} (m : Receiver.M A) (k : A -> Receiver.M B) :
  safe m -> (forall a, safe (k a)) -> safe (bind m k).
Proof.
  intros Hm Hk s. unfold bind. specialize (Hm s).
  destruct (m s) as [s1 e1 [a|e]]; cbn in *.
  - specialize (Hk a s1). destruct (k a s1); exact Hk.
  - exact Hm.
Qed.

Lemma safe_when b (m : Receiver.M unit) : safe m -> safe (when b m).
Proof. intros H. destruct b; [exact H | apply safe_ret]. Qed.

Ltac split_stuck :=
  match goal with
  | |- context [if ?b then _ else _] => destruct b eqn:?
  | |- context [match ?x with Some _ => _ | None => _ end] => destruct x eqn:?
  | |- context [match ?x with [] => _ | _ :: _ => _ end] => destruct x eqn:?
  end.

(** [process] has rounds enough when it has more than there are lines
    in the pipe. *)
Lemma process_total fuel : forall r,
  (length (sentencePipe r) < fuel)%nat ->
  cut_short (ending (process fuel r)) = false.
Proof.
  induction fuel as [|fuel IH]; intros r Hlen; [lia|].
  destruct r as [m dl pipe busy cl rp tg pk seg]. cbn [sentencePipe] in Hlen.
  destruct pipe as [|[d h] rest].
  - reflexivity.
  - cbn [length] in Hlen.
    cbn [process].
    unfold sendCurrentTag, sendTagData, cleanUp, when, bind, assign, this, ret, emit, throw.
    cbn.
    repeat (split_stuck; cbn); try reflexivity;
      match goal with
      | |- context [process fuel ?st] =>
          pose proof (IH st) as Hst;
          destruct (process fuel st) as [s2 e2 c2];
          cbn in Hst |- *; apply Hst; lia
      end.
Qed.

Lemma safe_processSentence : safe processSentence.
Proof.
  intros r. unfold processSentence. rewrite bind_this.
  destruct (processingSentencePipe r); [reflexivity|].
  cbn [negb]. rewrite bind_assign. apply process_total.
  destruct r; cbn. lia.
Qed.

Lemma safe_bind_dropPadding {B} (d : list Z) (k : list Z -> Receiver.M B) :
  (forall d', (length d' <= length d)%nat -> safe (k d')) ->
  safe (bind (dropPadding d) k).
Proof.
  intros Hk s. unfold dropPadding, bind at 1, bind at 1, this.
  destruct (seq_lit (dataLength s) 1 && equals_nullBuffer d).
  - cbn. pose proof (Hk (slice_from 1 d)) as H.
    unfold slice_from in *. rewrite length_drop in H.
    specialize (H ltac:(lia) (with_dataLength (Num 0) s)).
    destruct (k _ _); exact H.
  - cbn. pose proof (Hk d ltac:(lia) s) as H. destruct (k d s); exact H.
Qed.

Lemma decodeLength_idx data : (1 <= fst (Length.decodeLength data))%nat.
Proof.
  unfold Length.decodeLength, Length.next.
  repeat match goal with |- context [if ?c then _ else _] => destruct c end;
    cbn; lia.
Qed.

Lemma gt0_offset (v : num) : gt0 v = true -> (1 <= offset v)%nat.
Proof. destruct v; cbn; try discriminate. intros H. apply Z.ltb_lt in H. lia. Qed.

(** The loop has rounds enough when it has more than there are bytes:
    every round that goes on has removed at least one. *)
Lemma rawLoop_total fuel : forall data,
  (length data < fuel)%nat -> safe (rawLoop fuel data).
Proof.
  induction fuel as [|fuel IH]; intros data Hlen; [lia|].
  rewrite rawLoop_S.
  destruct (0 <? length data)%nat eqn:Hpos; [|apply safe_ret].
  apply Nat.ltb_lt in Hpos.
  apply safe_bind; [apply safe_this|]. intros r.
  destruct (gt0 (dataLength r)) eqn:Hgt.
  - cbv zeta. destruct (le _ _).
    + repeat (apply safe_bind; [first [apply safe_assign | apply safe_this]|]; intros).
      apply safe_when.
      repeat (apply safe_bind;
              [first [apply safe_assign | apply safe_processSentence]|]; intros).
      apply safe_assign.
    + apply gt0_offset in Hgt.
      repeat (apply safe_bind; [first [apply safe_assign | apply safe_this]|]; intros).
      pose proof (decodeLength_idx (slice_from (offset (dataLength r)) data)) as Hidx.
      destruct (Length.decodeLength _) as [descriptor_length len].
      apply safe_bind; [apply safe_when, safe_assign|]. intros _.
      apply safe_bind; [apply safe_assign|]. intros _.
      apply safe_bind_dropPadding. intros d' Hd'.
      repeat (apply safe_bind;
              [first [apply safe_assign | apply safe_processSentence]|]; intros).
      apply IH. unfold slice_from in Hd'. rewrite !length_drop in Hd'. lia.
  - pose proof (decodeLength_idx data) as Hidx.
    destruct (Length.decodeLength data) as [descriptor_length len]. cbn [fst] in Hidx.
    apply safe_bind; [apply safe_assign|]. intros _.
    apply safe_bind_dropPadding. intros d' Hd'.
    apply IH. unfold slice_from in Hd'. rewrite length_drop in Hd'. lia.
Qed.

(** [processRawData] gives its loops rounds enough: on every chunk and
    from every state of the Receiver, the model of the call runs to
    the end of the source's loops (or to the exception the source
    throws). *)
Lemma processRawData_total data r :
  ending (processRawData data r) <> Throw OutOfFuel.
Proof.
  assert (H : safe (processRawData data)).
  { unfold processRawData. apply safe_bind; [apply safe_this|]. intros r0.
    apply safe_bind.
    - destruct (lengthDescriptorSegment r0).
      + apply safe_bind; [apply safe_assign | intros; apply safe_ret].
      + apply safe_ret.
    - intros d. apply rawLoop_total. lia. }
  specialize (H r). intros E. rewrite E in H. discriminate H.
Qed.

(** [process] writes neither [lengthDescriptorSegment] nor
    [dataLength], whether it returns or throws. *)
Lemma process_frame fuel : forall r,
  lengthDescriptorSegment (final (process fuel r)) = lengthDescriptorSegment r /\
  dataLength (final (process fuel r)) = dataLength r.
Proof.
  induction fuel as [|fuel IH]; intros r; [split; reflexivity|].
  destruct r as [m dl pipe busy cl rp tg pk seg].
  destruct pipe as [|[d h] rest]; [split; reflexivity|].
  cbn [process].
  unfold sendCurrentTag, sendTagData, cleanUp, when, bind, assign, this, ret, emit, throw.
  cbn.
  repeat (split_stuck; cbn); try (split; reflexivity);
    match goal with
    | |- context [process fuel ?st] =>
        pose proof (IH st) as Hst;
        destruct (process fuel st) as [s2 e2 c2];
        cbn in Hst |- *; exact Hst
    end.
Qed.

Lemma push_process_frame (l : Line) (r : Receiver.t) :
  lengthDescriptorSegment (final ((pushLine l ;;; processSentence) r))
  = lengthDescriptorSegment r /\
  dataLength (final ((pushLine l ;;; processSentence) r)) = dataLength r.
Proof.
  unfold pushLine, processSentence. rewrite bind_assign, bind_this.
  destruct r as [m dl pipe busy cl rp tg pk seg].
  cbn [with_sentencePipe sentencePipe processingSentencePipe].
  destruct busy; cbn [negb]; [split; reflexivity|].
  rewrite bind_assign.
  apply (process_frame _ (with_processingSentencePipe true
                            (mk m dl (pipe ++ [l]) false cl rp tg pk seg))).
Qed.

(** The part of C3 that holds: in the middle of a sentence, a chunk
    that ends inside a length prefix has the bytes of the prefix kept
    in [lengthDescriptorSegment], whatever [processSentence] does with
    the word before them, and the next chunk is read with these bytes
    in front of it. *)
Theorem partial_prefix_mid_sentence (r : Receiver.t) (t p : Buffer) :
  lengthDescriptorSegment r = None ->
  t <> [] ->
  dataLength r = Num (Z.of_nat (length t)) ->
  p <> [] ->
  (length p < fst (Length.decodeLength p))%nat ->
  let r' := final (processRawData (t ++ p) r) in
  lengthDescriptorSegment r' = Some p /\
  dataLength r' = NaN /\
  forall next,
    processRawData next r'
    = rawLoop (S (length (p ++ next))) (p ++ next)
              (with_lengthDescriptorSegment None r').
Proof.
  intros Hseg Ht Hdl Hp Hshort.
  assert (Htpos : (0 < length t)%nat) by (destruct t; [congruence | cbn; lia]).
  assert (Hppos : (0 < length p)%nat) by (destruct p; [congruence | cbn; lia]).
  assert (Hloop : forall fuel,
             lengthDescriptorSegment (final (rawLoop (S (S fuel)) (t ++ p) r)) = Some p /\
             dataLength (final (rawLoop (S (S fuel)) (t ++ p) r)) = NaN).
  { intros fuel. rewrite rawLoop_S.
    assert (Hlen : (0 <? length (t ++ p))%nat = true)
      by (apply Nat.ltb_lt; rewrite length_app; lia).
    rewrite Hlen, bind_this, Hdl.
    assert (Hgt : gt0 (Num (Z.of_nat (length t))) = true) by (apply Z.ltb_lt; lia).
    assert (Hle : le (Num (Z.of_nat (length (t ++ p)))) (Num (Z.of_nat (length t))) = false)
      by (apply Z.leb_gt; rewrite length_app; lia).
    rewrite Hgt. cbv zeta. rewrite Hle.
    cbn [offset]. rewrite Nat2Z.id. unfold slice_to, slice_from.
    rewrite take_app_length, drop_app_length.
    rewrite bind_assign, bind_this, bind_assign.
    pose proof (decodeLength_nan p Hp Hshort) as Hnan.
    destruct (Length.decodeLength p) as [descriptor_length len].
    cbn [fst snd] in Hshort, Hnan. subst len.
    assert (Hlt : (length p <? descriptor_length)%nat = true) by (apply Nat.ltb_lt; lia).
    rewrite Hlt. cbn [when]. rewrite !bind_assign.
    rewrite drop_ge by lia.
    unfold dropPadding. rewrite bind_bind, bind_this.
    cbn [with_dataLength dataLength].
    change (seq_lit NaN 1) with false. cbn [andb]. rewrite bind_ret.
    rewrite <- bind_bind.
    rewrite !bind_final_ret by (intros; rewrite rawLoop_nil; reflexivity).
    match goal with
    | |- context [final ((pushLine ?l ;;; processSentence) ?s)] =>
        destruct (push_process_frame l s) as [F1 F2]; rewrite F1, F2
    end.
    destruct r; split; reflexivity. }
  assert (Hframe : lengthDescriptorSegment (final (processRawData (t ++ p) r)) = Some p /\
                   dataLength (final (processRawData (t ++ p) r)) = NaN).
  { unfold processRawData. rewrite bind_this, Hseg, bind_ret.
    destruct (length (t ++ p)) as [|k] eqn:E; [rewrite length_app in E; lia|].
    apply Hloop. }
  cbv zeta. destruct Hframe as [H1 H2]. split; [exact H1|]. split; [exact H2|].
  intros next. unfold processRawData at 1.
  rewrite bind_this, H1, bind_bind, bind_assign, bind_ret. reflexivity.
Qed.

Lemma partial_prefix_mid_sentence_witness :
  let r := with_dataLength (Num 3) new in
  let t := bytes "!re" in
  let p : Buffer := [0x81] in
  let r' := final (processRawData (t ++ p) r) in
  (length p < fst (Length.decodeLength p))%nat /\
  lengthDescriptorSegment r' = Some p /\
  dataLength r' = NaN /\
  forall next,
    processRawData next r'
    = rawLoop (S (length (p ++ next))) (p ++ next)
              (with_lengthDescriptorSegment None r').
Proof.
  cbv zeta. split; [vm_compute; lia|].
  apply (partial_prefix_mid_sentence (with_dataLength (Num 3) new) (bytes "!re") [0x81]).
  - reflexivity.
  - discriminate.
  - reflexivity.
  - discriminate.
  - vm_compute. lia.
Defined.

Lemma bang_not_tag d : starts_with (lit "!") d = true -> starts_with (lit ".tag=") d = false.
Proof.
  change (lit "!") with [33]. change (lit ".tag=") with [46; 116; 97; 103; 61].
  destruct d as [|c d]; cbn [starts_with]; [discriminate|]. unfold starts_with; fold starts_with.
  destruct (Z.eqb_spec 33 c) as [E|E]; [subst c; reflexivity | discriminate].
Qed.

Ltac step_if :=
  match goal with
  | H : ?b = true |- context [if ?b then _ else _] => rewrite H
  | H : ?b = false |- context [if ?b then _ else _] => rewrite H
  | H : ?b = true |- context [?b && _] => rewrite H
  | H : ?b = false |- context [?b && _] => rewrite H
  | H : ?b = true |- context [_ && ?b] => rewrite H
  | H : ?b = false |- context [_ && ?b] => rewrite H
  | H : ?x = [] |- context [match ?x with [] => _ | _ :: _ => _ end] => rewrite H
  | H : ?x = _ :: _ |- context [match ?x with [] => _ | _ :: _ => _ end] => rewrite H
  | H : ?x = Some _ |- context [match ?x with Some _ => _ | None => _ end] => rewrite H
  | H : ?x = None |- context [match ?x with Some _ => _ | None => _ end] => rewrite H
  end.

Ltac unfold_methods :=
  unfold pushLine, processSentence, sendCurrentTag, sendTagData, cleanUp,
    dropPadding, when, bind, assign, this, ret, emit, throw.

Ltac run := unfold_methods; cbn; repeat (step_if; unfold_methods; cbn).

(** A line that sends nothing: either more is expected, or the tag
    gathered so far is empty. *)
Lemma push_process_quiet m dl cl a seg d h :
  quiet d a ->
  seq_lit dl 0 && negb h = false \/ truthy_str (g_tag (absorb d a)) = false ->
  (pushLine (mkLine d h) ;;; processSentence) (at_rest m dl cl a seg)
  = mkOutcome (at_rest m dl cl (absorb d a) seg) [] (Return tt).
Proof.
  intros [Hfatal Hbang] Hlast.
  unfold absorb in *.
  destruct a as [tg pk rp]. cbn [g_tag g_packet g_reply] in *.
  unfold at_rest.
  destruct (starts_with (lit ".tag=") d) eqn:Etag;
    [clear Hbang
    |destruct (starts_with (lit "!") d) eqn:Ebang;
     [specialize (Hbang eq_refl)|clear Hbang]];
    destruct (seq_lit dl 0) eqn:Edl, h; cbn [negb andb] in Hlast;
    cbn [g_tag g_packet g_reply] in *;
    try (destruct Hlast as [Hlast|Hlast]; [discriminate Hlast|]);
    try (destruct (substring 5 d) eqn:Esub; [|discriminate Hlast]);
    try (destruct tg as [[|]|]; try discriminate Hlast; try discriminate Hbang);
    run; reflexivity.
Qed.

(** The last line of a reply: the tag gathered has a subscriber. *)
Lemma push_process_final m cl a seg d c T entry :
  quiet d a ->
  g_tag (absorb d a) = Some (c :: T) ->
  m !! (c :: T) = Some entry ->
  (pushLine (mkLine d false) ;;; processSentence) (at_rest m (Num 0) cl a seg)
  = mkOutcome (mk m (Num 0) [] false cl None None [] seg)
              [Called (callback entry) (g_packet (absorb d a))] (Return tt).
Proof.
  intros [Hfatal Hbang] Htag Hm.
  assert (E0 : seq_lit (Num 0) 0 = true) by reflexivity.
  unfold absorb in *.
  destruct a as [tg pk rp]. cbn [g_tag g_packet g_reply] in *.
  unfold at_rest.
  destruct (starts_with (lit ".tag=") d) eqn:Etag;
    [clear Hbang
    |destruct (starts_with (lit "!") d) eqn:Ebang;
     [specialize (Hbang eq_refl)|clear Hbang]];
    cbn [g_tag g_packet g_reply] in *.
  - injection Htag as Htag. run. reflexivity.
  - subst tg. discriminate Hbang.
  - subst tg. run. reflexivity.
Qed.

Lemma prefix_size_pos n : (0 < Length.prefix_size n)%nat.
Proof.
  unfold Length.prefix_size.
  repeat match goal with |- context [if ?c then _ else _] => destruct c end; lia.
Qed.

(** At the start of a word: the loop reads the prefix and goes on with
    the payload. *)
Lemma rawLoop_A fuel n more m line a :
  0 < n < 2 ^ 31 -> ~ (n = 1 /\ more = [0]) ->
  rawLoop (S fuel) (Length.encode_length n ++ more) (at_rest m (Num 0) line a None)
  = rawLoop fuel more (at_rest m (Num n) line a None).
Proof.
  intros Hn Hpad.
  rewrite rawLoop_S.
  assert (Hlen : (0 <? length (Length.encode_length n ++ more))%nat = true).
  { apply Nat.ltb_lt. rewrite length_app, length_encode_length.
    pose proof (prefix_size_pos n). lia. }
  rewrite Hlen, bind_this. cbn [dataLength at_rest gt0 Z.ltb Z.compare].
  rewrite decodeLength_prefix by lia.
  rewrite bind_assign. unfold slice_from.
  rewrite <- length_encode_length, drop_app_length.
  unfold dropPadding. rewrite bind_bind, bind_this.
  cbn [with_dataLength dataLength].
  assert (Hp : seq_lit (Num n) 1 && equals_nullBuffer more = false).
  { destruct (seq_lit (Num n) 1) eqn:E1; [|reflexivity].
    destruct more as [|b [|? ?]]; try reflexivity. cbn.
    apply Z.eqb_neq. intros ->. apply Hpad. split; [|reflexivity].
    unfold seq_lit in E1. apply Z.eqb_eq in E1. exact E1. }
  rewrite Hp, bind_ret. reflexivity.
Qed.

(** Inside a word: the chunk ends before the payload does. *)
Lemma rawLoop_B1_partial fuel data k m line a :
  data <> [] -> (length data < k)%nat ->
  rawLoop (S fuel) data (at_rest m (Num (Z.of_nat k)) line a None)
  = mkOutcome (at_rest m (Num (Z.of_nat (k - length data)))
                       (line ++ Iconv.decode data) a None) [] (Return tt).
Proof.
  intros Hne Hlt. rewrite rawLoop_S.
  assert (Hlen : (0 <? length data)%nat = true)
    by (apply Nat.ltb_lt; destruct data; [congruence | cbn; lia]).
  rewrite Hlen, bind_this. cbn [dataLength at_rest].
  assert (Hgt : gt0 (Num (Z.of_nat k)) = true) by (apply Z.ltb_lt; lia).
  assert (Hle : le (Num (Z.of_nat (length data))) (Num (Z.of_nat k)) = true)
    by (apply Z.leb_le; lia).
  rewrite Hgt. cbv zeta. rewrite Hle.
  rewrite !bind_assign, bind_this.
  cbn [at_rest with_dataLength with_currentLine dataLength currentLine sub
       tags sentencePipe processingSentencePipe currentReply currentTag
       currentPacket lengthDescriptorSegment].
  replace (Z.of_nat k - Z.of_nat (length data)) with (Z.of_nat (k - length data)) by lia.
  assert (Hz : seq_lit (Num (Z.of_nat (k - length data))) 0 = false)
    by (apply Z.eqb_neq; lia).
  rewrite Hz. reflexivity.
Qed.

(** Inside a word: the chunk ends with the payload. The line is pushed
    with [hadMore] set, so nothing is sent. *)
Lemma rawLoop_B1_complete fuel data m line a :
  data <> [] -> quiet (line ++ Iconv.decode data) a ->
  rawLoop (S fuel) data (at_rest m (Num (Z.of_nat (length data))) line a None)
  = mkOutcome (at_rest m (Num 0) [] (absorb (line ++ Iconv.decode data) a) None)
              [] (Return tt).
Proof.
  intros Hne Hq. rewrite rawLoop_S.
  assert (Hpos : (0 < length data)%nat) by (destruct data; [congruence | cbn; lia]).
  assert (Hlen : (0 <? length data)%nat = true) by (apply Nat.ltb_lt; exact Hpos).
  rewrite Hlen, bind_this. cbn [dataLength at_rest].
  assert (Hgt : gt0 (Num (Z.of_nat (length data))) = true) by (apply Z.ltb_lt; lia).
  assert (Hle : le (Num (Z.of_nat (length data))) (Num (Z.of_nat (length data))) = true)
    by (apply Z.leb_le; lia).
  rewrite Hgt. cbv zeta. rewrite Hle.
  rewrite !bind_assign, bind_this.
  cbn [at_rest with_dataLength with_currentLine dataLength currentLine sub
       tags sentencePipe processingSentencePipe currentReply currentTag
       currentPacket lengthDescriptorSegment].
  rewrite Z.sub_diag.
  change (seq_lit (Num 0) 0) with true. cbn [when].
  assert (Hh : seq_lit (Num 0) (Z.of_nat (length data)) = false)
    by (apply Z.eqb_neq; lia).
  rewrite Hh. cbn [negb].
  rewrite <- bind_bind.
  erewrite bind_quiet.
  2:{ apply (push_process_quiet m (Num 0) (line ++ Iconv.decode data) a None).
      - exact Hq.
      - left. reflexivity. }
  reflexivity.
Qed.

(** Inside a word: the payload ends within the chunk and the prefix of
    the next word follows. *)
Lemma rawLoop_B2 fuel t n more m line a :
  t <> [] -> 0 <= n < 2 ^ 31 -> ~ (n = 1 /\ more = [0]) ->
  rawLoop (S fuel) (t ++ Length.encode_length n ++ more)
          (at_rest m (Num (Z.of_nat (length t))) line a None)
  = bind (pushLine (mkLine (line ++ Iconv.decode t) (0 <? length more)%nat) ;;;
          processSentence)
         (fun _ => rawLoop fuel more)
         (at_rest m (Num n) [] a None).
Proof.
  intros Hne Hn Hpad. rewrite rawLoop_S.
  assert (Hpos : (0 < length t)%nat) by (destruct t; [congruence | cbn; lia]).
  pose proof (prefix_size_pos n) as Hps.
  assert (Hlen : (0 <? length (t ++ Length.encode_length n ++ more))%nat = true).
  { apply Nat.ltb_lt. rewrite length_app. lia. }
  rewrite Hlen, bind_this. cbn [dataLength at_rest].
  assert (Hgt : gt0 (Num (Z.of_nat (length t))) = true) by (apply Z.ltb_lt; lia).
  assert (Hle : le (Num (Z.of_nat (length (t ++ Length.encode_length n ++ more))))
                   (Num (Z.of_nat (length t))) = false).
  { apply Z.leb_gt. rewrite !length_app, length_encode_length. lia. }
  rewrite Hgt. cbv zeta. rewrite Hle.
  cbn [offset]. rewrite Nat2Z.id. unfold slice_to, slice_from.
  rewrite take_app_length, drop_app_length.
  rewrite bind_assign, bind_this, bind_assign.
  cbn [at_rest with_dataLength with_currentLine dataLength currentLine
       tags sentencePipe processingSentencePipe currentReply currentTag
       currentPacket lengthDescriptorSegment].
  rewrite decodeLength_prefix by exact Hn.
  assert (Hseg : (length (Length.encode_length n ++ more) <? Length.prefix_size n)%nat
                 = false).
  { apply Nat.ltb_ge. rewrite length_app, length_encode_length. lia. }
  rewrite Hseg. cbn [when]. rewrite bind_ret, bind_assign.
  rewrite <- length_encode_length, drop_app_length.
  unfold dropPadding. rewrite bind_bind, bind_this.
  cbn [with_dataLength dataLength].
  assert (Hp : seq_lit (Num n) 1 && equals_nullBuffer more = false).
  { destruct (seq_lit (Num n) 1) eqn:E1; [|reflexivity].
    destruct more as [|b [|? ?]]; try reflexivity. cbn.
    apply Z.eqb_neq. intros ->. apply Hpad. split; [|reflexivity].
    unfold seq_lit in E1. apply Z.eqb_eq in E1. exact E1. }
  rewrite Hp, bind_ret.
  rewrite <- bind_bind. reflexivity.
Qed.

Lemma concat_singletons (t : list Z) : concat (map (fun b => [b]) t) = t.
Proof. induction t as [|b t IH]; [reflexivity|]. cbn. rewrite IH. reflexivity. Qed.

Lemma chunk_cons (p : piece) (g : list piece) : chunk (p :: g) = bytes_of p ++ chunk g.
Proof. reflexivity. Qed.

Lemma chunk_app (g1 g2 : list piece) : chunk (g1 ++ g2) = chunk g1 ++ chunk g2.
Proof. unfold chunk. rewrite map_app, concat_app. reflexivity. Qed.

Lemma chunk_payload (t : list Z) : chunk (payload t) = t.
Proof.
  unfold chunk, payload. induction t as [|b t IH]; [reflexivity|].
  cbn. cbn in IH. rewrite IH. reflexivity.
Qed.

(** A prefix is in one piece, or in two parts that are not empty. *)
Lemma prefix_pieces_cases (j : nat) (p : list Z) :
  prefix_pieces j p = [Whole p] \/
  exists h rest, h <> [] /\ rest <> [] /\ h ++ rest = p /\
                 prefix_pieces j p = [Head h; Whole rest].
Proof.
  unfold prefix_pieces.
  destruct (0 <? j)%nat eqn:E1; [|left; reflexivity].
  destruct (j <? length p)%nat eqn:E2; [|left; reflexivity].
  apply Nat.ltb_lt in E1, E2. right.
  exists (take j p), (drop j p). split; [|split; [|split]].
  - intros H. apply (f_equal (@length Z)) in H. rewrite length_take in H. cbn in H. lia.
  - intros H. apply (f_equal (@length Z)) in H. rewrite length_drop in H. cbn in H. lia.
  - apply take_drop.
  - reflexivity.
Qed.

Lemma chunk_prefix_pieces (j : nat) (p : list Z) : chunk (prefix_pieces j p) = p.
Proof.
  destruct (prefix_pieces_cases j p) as [-> | (h & rest & _ & _ & <- & ->)].
  - cbn. apply app_nil_r.
  - cbn. rewrite app_nil_r. reflexivity.
Qed.

Lemma pieces_nil cuts : pieces cuts [] = [Whole [0]].
Proof. reflexivity. Qed.

Lemma pieces_cons cuts w ws :
  pieces cuts (w :: ws)
  = prefix_pieces (hd 0%nat cuts) (Length.encode_length (Z.of_nat (length w)))
    ++ payload w ++ pieces (tl cuts) ws.
Proof. cbn [pieces]. unfold pieces_word. rewrite <- app_assoc. reflexivity. Qed.

Lemma pieces_not_nil cuts ws : pieces cuts ws <> [].
Proof.
  destruct ws as [|w ws]; [discriminate|]. rewrite pieces_cons.
  destruct (prefix_pieces_cases (hd 0%nat cuts)
              (Length.encode_length (Z.of_nat (length w))))
    as [-> | (h & rest & _ & _ & _ & ->)]; discriminate.
Qed.

(** How many prefix bytes the decoder announces depends on the first
    byte alone. *)
Lemma decodeLength_announces (b : Z) (x y : list Z) :
  fst (Length.decodeLength (b :: x)) = fst (Length.decodeLength (b :: y)).
Proof.
  unfold Length.decodeLength, Length.next, at_. cbn [lookup list_lookup].
  repeat match goal with |- context [if ?c then _ else _] => destruct c end;
    reflexivity.
Qed.

(** The first part of a prefix that is cut is shorter than what it
    announces. *)
Lemma head_short (n : Z) (h rest : list Z) :
  0 <= n < 2 ^ 31 -> h <> [] -> rest <> [] ->
  h ++ rest = Length.encode_length n ->
  (length h < fst (Length.decodeLength h))%nat.
Proof.
  intros Hn Hh Hrest Heq.
  destruct h as [|b h]; [congruence|].
  rewrite (decodeLength_announces b h (h ++ rest)).
  change (b :: h ++ rest) with ((b :: h) ++ rest).
  rewrite Heq, <- (app_nil_r (Length.encode_length n)), decodeLength_prefix by exact Hn.
  cbn [fst]. rewrite <- length_encode_length, <- Heq, length_app.
  destruct rest; [congruence | cbn; lia].
Qed.

(** At the start of a word, also after a prefix that came in two
    parts ([dataLength] is then [NaN]): the loop reads the prefix and
    goes on with the payload. *)
Lemma rawLoop_start fuel n more m dl line a :
  gt0 dl = false ->
  0 < n < 2 ^ 31 -> ~ (n = 1 /\ more = [0]) ->
  rawLoop (S fuel) (Length.encode_length n ++ more) (at_rest m dl line a None)
  = rawLoop fuel more (at_rest m (Num n) line a None).
Proof.
  intros Hdl Hn Hpad.
  rewrite rawLoop_S.
  assert (Hlen : (0 <? length (Length.encode_length n ++ more))%nat = true).
  { apply Nat.ltb_lt. rewrite length_app, length_encode_length.
    pose proof (prefix_size_pos n). lia. }
  rewrite Hlen, bind_this. cbn [dataLength at_rest]. rewrite Hdl.
  rewrite decodeLength_prefix by lia.
  rewrite bind_assign. unfold slice_from.
  rewrite <- length_encode_length, drop_app_length.
  unfold dropPadding. rewrite bind_bind, bind_this.
  cbn [with_dataLength dataLength].
  assert (Hp : seq_lit (Num n) 1 && equals_nullBuffer more = false).
  { destruct (seq_lit (Num n) 1) eqn:E1; [|reflexivity].
    destruct more as [|b [|? ?]]; try reflexivity. cbn.
    apply Z.eqb_neq. intros ->. apply Hpad. split; [|reflexivity].
    unfold seq_lit in E1. apply Z.eqb_eq in E1. exact E1. }
  rewrite Hp, bind_ret. reflexivity.
Qed.

(** Inside a word: the payload ends within the chunk, and the chunk
    ends inside the prefix of the next word. The part of the prefix is
    kept, and the line is pushed with nothing after it. *)
Lemma rawLoop_B2_cut fuel t h m line a :
  t <> [] -> h <> [] -> (length h < fst (Length.decodeLength h))%nat ->
  rawLoop (S fuel) (t ++ h) (at_rest m (Num (Z.of_nat (length t))) line a None)
  = bind (pushLine (mkLine (line ++ Iconv.decode t) false) ;;; processSentence)
         (fun _ => rawLoop fuel [])
         (at_rest m NaN [] a (Some h)).
Proof.
  intros Hne Hh Hshort. rewrite rawLoop_S.
  assert (Hpos : (0 < length t)%nat) by (destruct t; [congruence | cbn; lia]).
  assert (Hhpos : (0 < length h)%nat) by (destruct h; [congruence | cbn; lia]).
  assert (Hlen : (0 <? length (t ++ h))%nat = true).
  { apply Nat.ltb_lt. rewrite length_app. lia. }
  rewrite Hlen, bind_this. cbn [dataLength at_rest].
  assert (Hgt : gt0 (Num (Z.of_nat (length t))) = true) by (apply Z.ltb_lt; lia).
  assert (Hle : le (Num (Z.of_nat (length (t ++ h)))) (Num (Z.of_nat (length t))) = false).
  { apply Z.leb_gt. rewrite !length_app. lia. }
  rewrite Hgt. cbv zeta. rewrite Hle.
  cbn [offset]. rewrite Nat2Z.id. unfold slice_to, slice_from.
  rewrite take_app_length, drop_app_length.
  rewrite bind_assign, bind_this, bind_assign.
  cbn [at_rest with_dataLength with_currentLine dataLength currentLine
       tags sentencePipe processingSentencePipe currentReply currentTag
       currentPacket lengthDescriptorSegment].
  pose proof (decodeLength_nan h Hh Hshort) as Hnan.
  destruct (Length.decodeLength h) as [descriptor_length len].
  cbn [fst snd] in Hshort, Hnan. subst len.
  assert (Hlt : (length h <? descriptor_length)%nat = true) by (apply Nat.ltb_lt; lia).
  rewrite Hlt. cbn [when]. rewrite !bind_assign.
  rewrite drop_ge by lia.
  unfold dropPadding. rewrite bind_bind, bind_this.
  cbn [with_dataLength with_lengthDescriptorSegment dataLength
       tags sentencePipe processingSentencePipe currentLine currentReply currentTag
       currentPacket lengthDescriptorSegment].
  change (seq_lit NaN 1) with false. cbn [andb]. rewrite bind_ret.
  rewrite <- bind_bind. reflexivity.
Qed.

Section Segmented.

Variable m : gmap (list Z) Tag.
Variable target : gathered.
Variables (c : Z) (T : list Z) (entry : Tag).
Hypothesis target_tag : g_tag target = Some (c :: T).
Hypothesis target_subscribed : m !! (c :: T) = Some entry.

Lemma after_nonempty o rem r' :
  rem <> [] -> o = mkOutcome r' [] (Return tt) -> pos m target r' rem -> after m target entry o rem.
Proof.
  intros Hne -> H. destruct rem; [congruence|].
  exists r'. split; [reflexivity | exact H].
Qed.

Lemma after_inv o rem :
  rem <> [] -> after m target entry o rem ->
  exists r', o = mkOutcome r' [] (Return tt) /\ pos m target r' rem.
Proof. intros Hne H. destruct rem; [congruence | exact H]. Qed.

(** [dropPadding] does not fire on the words of a reply. *)
Lemma no_padding (w : list Z) (k rem rest : list piece) :
  wf_word w ->
  payload w ++ rest = k ++ rem ->
  ~ (Z.of_nat (length w) = 1 /\ chunk k = [0]).
Proof.
  intros (Hne & Hnul & _) Heq [Hlen Hk].
  destruct w as [|b w']; [congruence|].
  destruct w' as [|b' w'']; [|cbn in Hlen; lia].
  destruct k as [|x k]; [discriminate Hk|].
  cbn in Heq. injection Heq as <- _. cbn in Hk. injection Hk as -> _. congruence.
Qed.

Lemma decode_app (x y : list Z) :
  Iconv.decode (x ++ y) = Iconv.decode x ++ Iconv.decode y.
Proof. apply map_app. Qed.

(** The chunk ends inside the payload of the word in progress, or
    exactly at its end. *)
Lemma loopB_inside cuts ws t line a g k fuel :
  t <> [] -> Z.of_nat (length t) < 2 ^ 31 -> Forall wf_word ws ->
  quiet_all ((line ++ Iconv.decode t) :: map Iconv.decode ws) a ->
  gather ((line ++ Iconv.decode t) :: map Iconv.decode ws) a = target ->
  payload t = g ++ k ->
  k ++ pieces cuts ws <> [Whole [0]] ->
  after m target entry (rawLoop (S fuel) (chunk g)
                 (at_rest m (Num (Z.of_nat (length t))) line a None))
        (k ++ pieces cuts ws).
Proof.
  intros Ht Htlen Hwf Hq Hg Hk Hrem.
  unfold payload in Hk.
  apply map_eq_app in Hk as (t1 & t2 & -> & <- & <-).
  fold (payload t1). fold (payload t2) in Hrem |- *.
  rewrite chunk_payload.
  destruct t1 as [|b1 t1].
  - (* nothing of the payload in this chunk *)
    rewrite rawLoop_nil. cbn [app] in *.
    apply after_nonempty with (r' := at_rest m (Num (Z.of_nat (length t2))) line a None).
    + destruct t2; [congruence | discriminate].
    + reflexivity.
    + apply pos_B; assumption.
  - destruct t2 as [|b2 t2].
    + (* the payload ends with the chunk *)
      rewrite app_nil_r in *. cbn [payload map app] in *.
      destruct Hq as [Hq1 Hq2].
      rewrite rawLoop_B1_complete by (assumption || discriminate).
      apply after_nonempty
        with (r' := at_rest m (Num 0) []
                            (absorb (line ++ Iconv.decode (b1 :: t1)) a) None).
      * apply pieces_not_nil.
      * reflexivity.
      * apply pos_A; try assumption.
        intros ->. apply Hrem. reflexivity.
    + (* the payload goes on in the next chunk *)
      rewrite rawLoop_B1_partial
        by (try discriminate; rewrite length_app; cbn; lia).
      replace (length ((b1 :: t1) ++ b2 :: t2) - length (b1 :: t1))%nat
        with (length (b2 :: t2)) by (rewrite length_app; lia).
      apply after_nonempty
        with (r' := at_rest m (Num (Z.of_nat (length (b2 :: t2))))
                            (line ++ Iconv.decode (b1 :: t1)) a None).
      * discriminate.
      * reflexivity.
      * rewrite decode_app, app_assoc in Hq, Hg.
        apply pos_B; try assumption; [discriminate|].
        rewrite length_app in Htlen. lia.
Qed.

(** The rest of a chunk, from inside the payload of a word. *)
Lemma loopB ws : forall cuts t line a g rem fuel,
  t <> [] -> Z.of_nat (length t) < 2 ^ 31 -> Forall wf_word ws ->
  quiet_all ((line ++ Iconv.decode t) :: map Iconv.decode ws) a ->
  gather ((line ++ Iconv.decode t) :: map Iconv.decode ws) a = target ->
  payload t ++ pieces cuts ws = g ++ rem ->
  rem <> [Whole [0]] ->
  (length (chunk g) < fuel)%nat ->
  after m target entry
        (rawLoop fuel (chunk g) (at_rest m (Num (Z.of_nat (length t))) line a None)) rem.
Proof.
  induction ws as [|w ws IH];
    intros cuts t line a g rem fuel Ht Htlen Hwf Hq Hg Heq Hrem Hfuel;
    (destruct fuel as [|fuel]; [lia|]);
    (apply app_eq_inv in Heq as [(k & Hk1 & Hk2) | (k & Hk1 & Hk2)];
     [subst rem; apply loopB_inside; assumption|]);
    (destruct k as [|x k];
     [rewrite app_nil_r in Hk1; cbn [app] in Hk2; subst g rem;
      match goal with
      | |- after _ _ _ _ (pieces ?cs ?ws') =>
          apply (loopB_inside cs ws' t line a (payload t) [])
      end;
      [assumption .. | symmetry; apply app_nil_r | exact Hrem]
     |]).
  - (* the terminator follows: the reply is complete *)
    rewrite pieces_nil in Hk2. injection Hk2 as <- Hk2.
    symmetry in Hk2. apply app_eq_nil in Hk2 as [-> ->]. subst g.
    rewrite chunk_app, chunk_payload in Hfuel |- *. cbn [chunk map bytes_of concat app] in Hfuel |- *.
    rewrite length_app in Hfuel. cbn [length] in Hfuel.
    destruct fuel as [|fuel]; [lia|].
    change [0] with (Length.encode_length 0 ++ []).
    rewrite rawLoop_B2 by (try assumption; lia).
    cbn [length Nat.ltb Nat.leb]. cbn in Hg. destruct Hq as [Hq _].
    unfold after, delivered_outcome.
    change [Called (callback entry) (g_packet target)]
      with ([Called (callback entry) (g_packet target)] ++ []).
    rewrite <- Hg.
    eapply bind_outcome.
    + apply push_process_final with (c := c) (T := T) (entry := entry).
      * exact Hq.
      * rewrite Hg. exact target_tag.
      * exact target_subscribed.
    + rewrite rawLoop_nil. reflexivity.
  - (* another word follows *)
    rewrite pieces_cons in Hk2.
    apply Forall_cons in Hwf as [Hw Hwf]. destruct Hq as [Hq1 Hq2].
    pose proof Hw as (Hw1 & Hw2 & Hw3).
    assert (Hwpos : (0 < length w)%nat) by (destruct w; [congruence | cbn; lia]).
    assert (Htpos : (0 < length t)%nat) by (destruct t; [congruence | cbn; lia]).
    assert (Hz : seq_lit (Num (Z.of_nat (length w))) 0 = false)
      by (apply Z.eqb_neq; lia).
    (* the prefix of the next word is whole in this chunk *)
    assert (Hnext : forall k',
               payload w ++ pieces (tl cuts) ws = k' ++ rem ->
               (length (t ++ Length.encode_length (Z.of_nat (length w)) ++ chunk k')
                < S fuel)%nat ->
               after m target entry
                 (rawLoop (S fuel)
                    (t ++ Length.encode_length (Z.of_nat (length w)) ++ chunk k')
                    (at_rest m (Num (Z.of_nat (length t))) line a None)) rem).
    { intros k' Hk' Hfuel'.
      rewrite rawLoop_B2;
        [ | assumption | lia | eapply no_padding; [exact Hw | exact Hk'] ].
      erewrite bind_quiet.
      2:{ apply push_process_quiet; [exact Hq1|].
          left. rewrite Hz. reflexivity. }
      apply (IH (tl cuts) w [] _ k' rem fuel); try assumption.
      rewrite !length_app in Hfuel'. lia. }
    destruct (prefix_pieces_cases (hd 0%nat cuts)
                (Length.encode_length (Z.of_nat (length w))))
      as [E | (h & rest & Hh & Hrest & Hp & E)]; rewrite E in Hk2.
    + cbn [app] in Hk2. injection Hk2 as <- Hk2. subst g.
      rewrite chunk_app, chunk_payload, chunk_cons in Hfuel |- *.
      cbn [bytes_of] in Hfuel |- *.
      apply Hnext; assumption.
    + cbn [app] in Hk2. injection Hk2 as <- Hk2. subst g.
      destruct k as [|y k].
      * (* the chunk ends inside the prefix *)
        cbn [app] in Hk2. subst rem.
        rewrite chunk_app, chunk_payload in Hfuel |- *.
        cbn [chunk map bytes_of concat] in Hfuel |- *.
        rewrite app_nil_r in Hfuel |- *.
        rewrite rawLoop_B2_cut;
          [ | assumption | assumption
            | apply (head_short (Z.of_nat (length w)) h rest); [lia | assumption ..] ].
        erewrite bind_quiet.
        2:{ apply push_process_quiet; [exact Hq1|]. left. reflexivity. }
        rewrite length_app in Hfuel.
        assert (Hhpos : (0 < length h)%nat) by (destruct h; [congruence | cbn; lia]).
        destruct fuel as [|fuel]; [lia|]. rewrite rawLoop_nil.
        apply after_nonempty
          with (r' := at_rest m NaN [] (absorb (line ++ Iconv.decode t) a) (Some h)).
        -- discriminate.
        -- reflexivity.
        -- apply pos_C; try assumption. constructor; assumption.
      * (* the rest of the prefix is in this chunk too *)
        cbn [app] in Hk2. injection Hk2 as <- Hk2.
        rewrite chunk_app, chunk_payload, !chunk_cons in Hfuel |- *.
        cbn [bytes_of] in Hfuel |- *.
        rewrite (app_assoc h rest), Hp in Hfuel |- *.
        apply Hnext; assumption.
Qed.

(** One chunk, from a Receiver between two chunks. *)
Lemma chunk_step r all :
  pos m target r all ->
  forall g rem, all = g ++ rem -> begins_whole g -> rem <> [Whole [0]] ->
  after m target entry (processRawData (chunk g) r) rem.
Proof.
  intros Hpos g rem Heq Hg Hrem.
  unfold processRawData. rewrite bind_this.
  destruct Hpos as [a cuts ws Hws Hwf Hq Hgather
                   | a line t cuts ws Ht Htlen Hwf Hq Hgather
                   | a h rest w cuts ws Hh Hrest Hp Hwf Hq Hgather];
    cbn [at_rest lengthDescriptorSegment].
  - rewrite bind_ret.
    destruct ws as [|w ws]; [congruence|].
    rewrite pieces_cons in Heq.
    destruct g as [|x g]; [destruct Hg|].
    apply Forall_cons in Hwf as [Hw Hwf].
    pose proof Hw as (Hw1 & Hw2 & Hw3).
    assert (Hwpos : (0 < length w)%nat) by (destruct w; [congruence | cbn; lia]).
    destruct (prefix_pieces_cases (hd 0%nat cuts)
                (Length.encode_length (Z.of_nat (length w))))
      as [E | (h & rest & _ & _ & _ & E)]; rewrite E in Heq;
      cbn [app] in Heq; injection Heq as <- Heq; [|destruct Hg].
    rewrite chunk_cons. cbn [bytes_of].
    rewrite rawLoop_A;
      [ | lia | eapply no_padding; [exact Hw | exact Heq] ].
    apply (loopB ws (tl cuts) w [] a g rem); try assumption.
    rewrite length_app. pose proof (prefix_size_pos (Z.of_nat (length w))).
    rewrite length_encode_length. lia.
  - rewrite bind_ret.
    apply (loopB ws cuts t line a g rem); try assumption. lia.
  - rewrite bind_bind, bind_assign, bind_ret.
    change (with_lengthDescriptorSegment None (at_rest m NaN [] a (Some h)))
      with (at_rest m NaN [] a None).
    destruct g as [|x g]; [destruct Hg|].
    cbn [app] in Heq. injection Heq as <- Heq.
    apply Forall_cons in Hwf as [Hw Hwf].
    pose proof Hw as (Hw1 & Hw2 & Hw3).
    assert (Hwpos : (0 < length w)%nat) by (destruct w; [congruence | cbn; lia]).
    rewrite chunk_cons. cbn [bytes_of].
    rewrite (app_assoc h rest), Hp.
    rewrite rawLoop_start;
      [ | reflexivity | lia | eapply no_padding; [exact Hw | exact Heq] ].
    apply (loopB ws cuts w [] a g rem); try assumption.
    rewrite length_app. pose proof (prefix_size_pos (Z.of_nat (length w))).
    rewrite length_encode_length. lia.
Qed.

Lemma rest_not_terminator (g : list piece) (gs : list (list piece)) :
  Forall begins_whole gs ->
  last (g :: gs) <> Some [Whole [0]] ->
  concat gs <> [Whole [0]].
Proof.
  intros Hne Hlast Hc.
  destruct gs as [|g1 gs]; [discriminate Hc|].
  apply Forall_cons in Hne as [Hg1 Hne].
  destruct g1 as [|x g1]; [destruct Hg1|].
  cbn in Hc. injection Hc as -> Hc.
  apply app_eq_nil in Hc as [-> Hc].
  destruct gs as [|g2 gs].
  - apply Hlast. reflexivity.
  - apply Forall_cons in Hne as [Hg2 _].
    cbn in Hc. apply app_eq_nil in Hc as [Hc _]. subst g2. destruct Hg2.
Qed.

(** All the chunks, from a Receiver between two chunks. *)
Lemma feed_pos (groups : list (list piece)) : forall r,
  pos m target r (concat groups) ->
  groups <> [] ->
  Forall begins_whole groups ->
  last groups <> Some [Whole [0]] ->
  feed (map chunk groups) r
  = (mk m (Num 0) [] false [] None None [] None,
     [Called (callback entry) (g_packet target)], []).
Proof.
  induction groups as [|g gs IH]; intros r Hpos Hne Hall Hlast; [congruence|].
  apply Forall_cons in Hall as [Hg Hall].
  pose proof (chunk_step r _ Hpos g (concat gs) eq_refl Hg
                         (rest_not_terminator g gs Hall Hlast)) as Hafter.
  cbn [map feed].
  destruct gs as [|g1 gs].
  - change (processRawData (chunk g) r = delivered_outcome m target entry) in Hafter.
    cbv zeta. rewrite Hafter. reflexivity.
  - assert (Hrest : concat (g1 :: gs) <> []).
    { apply Forall_cons in Hall as [Hg1 _].
      destruct g1; [destruct Hg1 | discriminate]. }
    apply (after_inv _ _ Hrest) in Hafter as (r' & Hr' & Hpos').
    cbv zeta. rewrite Hr'. cbn [final emitted ending app].
    rewrite (IH r' Hpos'); [reflexivity | discriminate | exact Hall |].
    rewrite last_cons in Hlast. destruct (last (g1 :: gs)); [exact Hlast|].
    discriminate.
Qed.

End Segmented.

Lemma eqb_str_eq (a b : list Z) : eqb_str a b = true <-> a = b.
Proof.
  revert b. induction a as [|x a IH]; intros [|y b]; cbn; try (split; congruence).
  rewrite andb_true_iff, Z.eqb_eq, IH. split; [intros [-> ->]; reflexivity|].
  intros [= -> ->]. auto.
Qed.

Lemma reply_is_other (d s : list Z) : d <> s -> reply_is (Some d) s = false.
Proof.
  intros H. unfold reply_is. destruct (eqb_str d s) eqn:E; [|reflexivity].
  apply eqb_str_eq in E. contradiction.
Qed.

Lemma gather_app ds1 ds2 a : gather (ds1 ++ ds2) a = gather ds2 (gather ds1 a).
Proof. unfold gather. apply fold_left_app. Qed.

Lemma quiet_all_app ds1 ds2 a :
  quiet_all ds1 a -> quiet_all ds2 (gather ds1 a) -> quiet_all (ds1 ++ ds2) a.
Proof.
  revert a. induction ds1 as [|d ds1 IH]; intros a H1 H2; [exact H2|].
  destruct H1 as [Hd H1]. split; [exact Hd|]. apply IH; assumption.
Qed.

(** The words before the tag word: the tag stays empty, every word
    joins the packet. *)
Lemma gather_before_tag ds : forall a,
  Forall (fun d => starts_with (lit ".tag=") d = false /\ d <> lit "!fatal") ds ->
  truthy_str (g_tag a) = false ->
  reply_is (g_reply a) (lit "!fatal") = false ->
  quiet_all ds a /\
  g_tag (gather ds a) = g_tag a /\
  g_packet (gather ds a) = g_packet a ++ ds /\
  reply_is (g_reply (gather ds a)) (lit "!fatal") = false.
Proof.
  induction ds as [|d ds IH]; intros a Hds Htag Hreply.
  - cbn. rewrite app_nil_r. auto.
  - apply Forall_cons in Hds as [[Hd1 Hd2] Hds].
    assert (Ha : g_tag (absorb d a) = g_tag a /\
                 g_packet (absorb d a) = g_packet a ++ [d] /\
                 reply_is (g_reply (absorb d a)) (lit "!fatal") = false).
    { unfold absorb. rewrite Hd1.
      destruct (starts_with (lit "!") d); cbn [g_tag g_packet g_reply];
        auto using reply_is_other. }
    destruct Ha as (Ha1 & Ha2 & Ha3).
    destruct (IH (absorb d a) Hds) as (I1 & I2 & I3 & I4);
      [rewrite Ha1; exact Htag | exact Ha3 |].
    split; [split; [split; [exact Hreply | intros _; exact Htag] | exact I1] |].
    change (gather (d :: ds) a) with (gather ds (absorb d a)).
    rewrite I2, I3, Ha1, Ha2, <- app_assoc. auto.
Qed.

(** The words after the tag word: the tag stays, every word joins the
    packet. *)
Lemma gather_after_tag ds : forall a,
  Forall (fun d => starts_with (lit ".tag=") d = false /\
                   starts_with (lit "!") d = false) ds ->
  reply_is (g_reply a) (lit "!fatal") = false ->
  quiet_all ds a /\
  g_tag (gather ds a) = g_tag a /\
  g_packet (gather ds a) = g_packet a ++ ds.
Proof.
  induction ds as [|d ds IH]; intros a Hds Hreply.
  - cbn. rewrite app_nil_r. auto.
  - apply Forall_cons in Hds as [[Hd1 Hd2] Hds].
    assert (Ha : absorb d a = mkGathered (g_tag a) (g_packet a ++ [d]) (g_reply a))
      by (unfold absorb; rewrite Hd1, Hd2; reflexivity).
    destruct (IH (absorb d a) Hds) as (I1 & I2 & I3);
      [rewrite Ha; exact Hreply |].
    split; [split; [split; [exact Hreply | congruence] | exact I1] |].
    change (gather (d :: ds) a) with (gather ds (absorb d a)).
    rewrite I2, I3, Ha. cbn [g_tag g_packet]. rewrite <- app_assoc. auto.
Qed.

Lemma starts_with_app (p x : list Z) : starts_with p (p ++ x) = true.
Proof.
  induction p as [|a p IH]; [destruct x; reflexivity|].
  cbn [app]. unfold starts_with; fold starts_with. rewrite Z.eqb_refl. exact IH.
Qed.

(** A tagged reply, cut into chunks between its pieces, from an idle
    Receiver: the subscriber of the tag gets the words of the reply
    but the tag word, once, and the Receiver is cleared. *)
Lemma feed_tagged_reply (r : Receiver.t) (pre post : list (list Z))
    (T : list Z) (entry : Tag) (cuts : list nat) (groups : list (list piece)) :
  let ws := pre ++ (bytes ".tag=" ++ T) :: post in
  idle r ->
  T <> [] ->
  tags r !! Iconv.decode T = Some entry ->
  Forall wf_word ws ->
  Forall (fun w => starts_with (lit ".tag=") (Iconv.decode w) = false) (pre ++ post) ->
  Forall (fun w => starts_with (lit "!") (Iconv.decode w) = false) post ->
  Forall (fun w => Iconv.decode w <> lit "!fatal") pre ->
  concat groups = pieces cuts ws ->
  Forall begins_whole groups ->
  last groups <> Some [Whole [0]] ->
  feed (map chunk groups) r
  = (cleared r, [Called (callback entry) (map Iconv.decode (pre ++ post))], []).
Proof.
  intros ws (H1 & H2 & H3 & H4 & H5 & H6 & H7 & H8) HT Hsub Hwf Hnotag Hnobang
         Hnofatal Hgroups Hne Hlast.
  destruct r as [m dl pipe busy cl rp tg pk seg]. cbn in H1, H2, H3, H4, H5, H6, H7, H8, Hsub.
  subst dl pipe busy cl pk seg. unfold cleared. cbn [tags].
  apply Forall_app in Hnotag as [Hnotag_pre Hnotag_post].
  set (a0 := mkGathered tg [] rp).
  set (tagd := lit ".tag=" ++ Iconv.decode T).
  assert (Hdec : map Iconv.decode ws
                 = map Iconv.decode pre ++ tagd :: map Iconv.decode post).
  { unfold ws, tagd. rewrite map_app. cbn [map]. rewrite decode_app. reflexivity. }
  (* the words before the tag *)
  destruct (gather_before_tag (map Iconv.decode pre) a0) as (Q1 & G1 & P1 & R1);
    [ | exact H5 | exact H8 | ].
  { apply Forall_map. apply Forall_and. split; assumption. }
  set (a1 := gather (map Iconv.decode pre) a0) in *.
  (* the tag word *)
  assert (Htagd : starts_with (lit ".tag=") tagd = true) by apply starts_with_app.
  assert (Ha2 : absorb tagd a1
                = mkGathered (Some (Iconv.decode T)) (g_packet a1) (g_reply a1)).
  { unfold absorb. rewrite Htagd. unfold tagd, substring.
    change 5%nat with (length (lit ".tag=")). rewrite drop_app_length. reflexivity. }
  assert (Qtag : quiet tagd a1).
  { split; [exact R1|]. intros Hbang. apply bang_not_tag in Hbang. congruence. }
  (* the words after the tag *)
  destruct (gather_after_tag (map Iconv.decode post) (absorb tagd a1))
    as (Q3 & G3 & P3); [ | rewrite Ha2; exact R1 | ].
  { apply Forall_map. apply Forall_and. split; assumption. }
  destruct (Iconv.decode T) as [|c T'] eqn:ET.
  { destruct T; [congruence | discriminate ET]. }
  assert (Hsplit : gather (map Iconv.decode ws) a0
                   = gather (map Iconv.decode post) (absorb tagd a1)).
  { rewrite Hdec, gather_app. reflexivity. }
  assert (Hpk : g_packet (gather (map Iconv.decode ws) a0)
                = map Iconv.decode (pre ++ post)).
  { rewrite Hsplit, P3, Ha2. cbn [g_packet]. rewrite P1. cbn [g_packet a0 app].
    rewrite map_app. reflexivity. }
  rewrite <- Hpk.
  apply (feed_pos m (gather (map Iconv.decode ws) a0) c T' entry).
  - rewrite Hsplit, G3, Ha2. reflexivity.
  - exact Hsub.
  - rewrite Hgroups.
    change (pos m (gather (map Iconv.decode ws) a0)
                (at_rest m (Num 0) [] a0 None) (pieces cuts ws)).
    apply pos_A.
    + unfold ws. destruct pre; discriminate.
    + exact Hwf.
    + rewrite Hdec. apply quiet_all_app; [exact Q1|]. fold a1. split; [exact Qtag | exact Q3].
    + reflexivity.
  - intros ->. symmetry in Hgroups. apply pieces_not_nil in Hgroups. exact Hgroups.
  - exact Hne.
  - exact Hlast.
Qed.

(** The pieces of a sentence, put together again, are its bytes on the
    wire, wherever the prefixes are cut. *)
Lemma chunk_pieces (cuts : list nat) (ws : list Buffer) :
  chunk (pieces cuts ws) = Wire.sentence ws.
Proof.
  unfold Wire.sentence. revert cuts.
  induction ws as [|w ws IH]; intros cuts; [reflexivity|].
  rewrite pieces_cons, !chunk_app, chunk_prefix_pieces, chunk_payload, IH.
  cbn [map concat]. unfold Wire.word. rewrite <- !app_assoc. reflexivity.
Qed.

Lemma concat_chunks (groups : list (list piece)) :
  concat (map chunk groups) = chunk (concat groups).
Proof.
  induction groups as [|g gs IH]; [reflexivity|].
  cbn [map concat]. rewrite chunk_app, IH. reflexivity.
Qed.

(** The sentence in one chunk is one of the segmentations. *)
Lemma whole_sentence (w : Buffer) (ws1 ws2 : list Buffer) :
  begins_whole (pieces [] (ws1 ++ w :: ws2)) /\
  last [pieces [] (ws1 ++ w :: ws2)] <> Some [Whole [0]].
Proof.
  split.
  - destruct ws1 as [|w1 ws1]; cbn [app]; rewrite pieces_cons; exact I.
  - cbn [last]. intros [= H].
    destruct ws1 as [|w1 ws1]; cbn [app] in H; rewrite pieces_cons in H;
      cbn [hd prefix_pieces Nat.ltb Nat.leb andb app] in H;
      injection H as _ H; apply app_eq_nil in H as [_ H];
      exact (pieces_not_nil _ _ H).
Qed.

(** C1 (as amended). A tagged reply reaches its subscriber whole and
    once, however the transport cuts it, as long as the terminator
    does not come in a chunk of its own and no chunk begins with a
    part of a length prefix that is not the whole rest of it. So a
    chunk may end anywhere in a payload, between a prefix and its
    payload, between two words, and also inside a length prefix where
    the chunk does not begin with this prefix (it then holds the end of
    the word before) and the next chunk holds the rest of the prefix.
    The reply is a sentence of non-empty words, none the single byte
    0 and none of 2^31 bytes or more, with one tag word [.tag=T], [T]
    not empty and subscribed, no other word that starts with [.tag=],
    no word that starts with [!] after the tag word and no [!fatal]
    before it. The Receiver is idle. Then the chunks are the bytes of
    the sentence, the outcome is that of the sentence handed over in
    one chunk, and it is: the subscriber called exactly once, with the
    words of the sentence but the tag word, decoded; no exception; the
    Receiver cleared. *)
Theorem tagged_reply_any_segmentation (r : Receiver.t) (pre post : list Buffer)
    (T : Buffer) (entry : Tag) (cuts : list nat) (groups : list (list piece)) :
  let ws := pre ++ (bytes ".tag=" ++ T) :: post in
  let chunks := map chunk groups in
  idle r ->
  T <> [] ->
  tags r !! Iconv.decode T = Some entry ->
  Forall wf_word ws ->
  Forall (fun w => starts_with (lit ".tag=") (Iconv.decode w) = false) (pre ++ post) ->
  Forall (fun w => starts_with (lit "!") (Iconv.decode w) = false) post ->
  Forall (fun w => Iconv.decode w <> lit "!fatal") pre ->
  concat groups = pieces cuts ws ->
  Forall begins_whole groups ->
  last groups <> Some [Whole [0]] ->
  concat chunks = Wire.sentence ws /\
  feed chunks r = feed [Wire.sentence ws] r /\
  feed chunks r
  = (cleared r, [Called (callback entry) (map Iconv.decode (pre ++ post))], []).
Proof.
  intros ws chunks Hidle HT Hsub Hwf Hnotag Hnobang Hnofatal Hgroups Hne Hlast.
  assert (Hchunks : concat chunks = Wire.sentence ws).
  { unfold chunks. rewrite concat_chunks, Hgroups. apply chunk_pieces. }
  assert (Hfeed : feed chunks r
                  = (cleared r,
                     [Called (callback entry) (map Iconv.decode (pre ++ post))], []))
    by (apply (feed_tagged_reply r pre post T entry cuts groups); assumption).
  split; [exact Hchunks|]. split; [|exact Hfeed].
  rewrite Hfeed. symmetry. rewrite <- (chunk_pieces [] ws).
  change [chunk (pieces [] ws)] with (map chunk [pieces [] ws]).
  destruct (whole_sentence (bytes ".tag=" ++ T) pre post) as [W1 W2].
  apply (feed_tagged_reply r pre post T entry [] [pieces [] ws]); try assumption.
  - cbn [concat]. apply app_nil_r.
  - constructor; [exact W1 | constructor].
Qed.

Lemma tagged_reply_any_segmentation_witness :
  let r := read (lit "1") 7%nat new in
  let name := bytes "=comment=" ++ repeat 97 200 in
  let pre := [bytes "!re"] in
  let post := [name] in
  let ws := pre ++ (bytes ".tag=" ++ bytes "1") :: post in
  let groups := [[Whole [3]; Whole [33]];
                 [Whole [114]; Whole [101]; Whole [6]] ++ payload (bytes ".tag=1")
                   ++ [Head [128]];
                 Whole [209] :: payload name ++ [Whole [0]]] in
  let chunks := [[3; 33]; [114; 101; 6; 46; 116; 97; 103; 61; 49; 128];
                 [209] ++ name ++ [0]] in
  concat groups = pieces [0; 0; 1]%nat ws /\
  map chunk groups = chunks /\
  concat chunks = Wire.sentence ws /\
  feed chunks r = feed [Wire.sentence ws] r /\
  feed chunks r
  = (cleared r, [Called 7%nat [lit "!re"; Iconv.decode name]], []).
Proof.
  cbv zeta. split; [vm_compute; reflexivity|]. split; [vm_compute; reflexivity|].
  apply (tagged_reply_any_segmentation
           (read (lit "1") 7%nat new) [bytes "!re"]
           [bytes "=comment=" ++ repeat 97 200]
           (bytes "1") (mkTag (lit "1") 7%nat) [0; 0; 1]%nat
           [[Whole [3]; Whole [33]];
            [Whole [114]; Whole [101]; Whole [6]] ++ payload (bytes ".tag=1")
              ++ [Head [128]];
            Whole [209] :: payload (bytes "=comment=" ++ repeat 97 200) ++ [Whole [0]]]).
  - repeat split; reflexivity.
  - discriminate.
  - reflexivity.
  - repeat constructor; try discriminate; vm_compute; reflexivity.
  - repeat constructor.
  - repeat constructor.
  - repeat constructor; discriminate.
  - vm_compute. reflexivity.
  - repeat constructor.
  - vm_compute. discriminate.
Defined.

End ReceiverLoops.

(** ** The Receiver on concrete streams *)

Section ReceiverScenarios.
Import JS Eff Receiver Wire.
Local Open Scope Z_scope.

(** Scenario S1 of the specification: the bytes of [["/login"]]. *)
Lemma S1_bytes :
  sentence [bytes "/login"] = [0x06; 47; 108; 111; 103; 105; 110; 0x00].
Proof. reflexivity. Qed.

(** C1 as stated fails. The sentence [["/login"]] of scenario S1
    carries no [.tag], and the Receiver hands a packet over only
    through [sendTagData]: fed one byte at a time, or as one chunk, to
    a fresh Receiver (with or without a subscriber), the word ends up
    in [currentPacket] and nothing is delivered. And delivery depends
    on the segmentation: the reply [!done .tag=1] reaches the
    subscriber of tag 1 when it arrives as one chunk, and does not
    when it arrives one byte at a time. No call throws. *)
Lemma S1_delivers_nothing :
  let S1 := sentence [bytes "/login"] in
  let reply := sentence [bytes "!done"; bytes ".tag=1"] in
  let r1 := read (lit "1") 7%nat new in
  delivered (bytewise S1) new = [] /\
  delivered [S1] new = [] /\
  delivered (bytewise S1) r1 = [] /\
  currentPacket (fst (fst (feed (bytewise S1) new))) = [lit "/login"] /\
  delivered [reply] r1 = [Called 7%nat [lit "!done"]] /\
  delivered (bytewise reply) r1 = [] /\
  snd (feed (bytewise S1) new) = [] /\
  snd (feed (bytewise reply) r1) = [].
Proof. vm_compute. repeat split. Qed.

(** C3 at its failing input: a fresh Receiver ([dataLength = 0]) that
    gets the first byte [0x81] of the two-byte prefix [81 2C] of
    scenario S2 alone. [decodeLength] reports two prefix bytes and the
    length [NaN]; [processRawData] stores [NaN] as [dataLength] and
    keeps no [lengthDescriptorSegment], so the byte is lost: the next
    chunk [2C 61 61] is read as a prefix of its own, a word of 44
    bytes. The branch in the middle of a sentence does keep the partial
    prefix: after [!re] the same byte is stored and the prefix is read
    as 300 once the rest arrives. *)
Lemma partial_prefix_at_word_start :
  let o := processRawData [0x81] new in
  let o' := processRawData [0x2C; 97; 97] (final o) in
  let m := processRawData (word (bytes "!re") ++ [0x81]) new in
  let m' := processRawData [0x2C; 97; 97] (final m) in
  Length.decodeLength [0x81] = (2%nat, NaN) /\
  ending o = Return tt /\
  ending o' = Return tt /\
  lengthDescriptorSegment (final o) = None /\
  dataLength (final o) = NaN /\
  dataLength (final o') = Num (44 - 2) /\
  lengthDescriptorSegment (final m) = Some [0x81] /\
  dataLength (final m) = NaN /\
  dataLength (final m') = Num (300 - 2).
Proof. vm_compute. repeat split. Qed.

(** C6 at its failing input: tag 1 has a subscriber, tag 9 has none,
    and the reply [!done .tag=9] arrives. [sendTagData] throws
    [UNREGISTEREDTAG] before it reaches [cleanUp], so the packet, the
    tag and the reply stay, and [processingSentencePipe] stays [true]:
    from then on [processSentence] returns at once, the lines of later
    replies pile up in [sentencePipe], and the subscriber of tag 1 is
    never called again. *)
Lemma unregistered_tag_blocks_the_receiver :
  let r1 := read (lit "1") 7%nat new in
  let unknown := sentence [bytes "!done"; bytes ".tag=9"] in
  let known := sentence [bytes "!done"; bytes ".tag=1"] in
  let o := processRawData unknown r1 in
  let o' := processRawData known (final o) in
  delivered [known] r1 = [Called 7%nat [lit "!done"]] /\
  ending o = Throw (RosException "UNREGISTEREDTAG") /\
  processingSentencePipe (final o) = true /\
  currentPacket (final o) = [lit "!done"] /\
  currentTag (final o) = Some (lit "9") /\
  currentReply (final o) = Some (lit "!done") /\
  ending o' = Return tt /\
  emitted o' = [] /\
  length (sentencePipe (final o')) = 2%nat /\
  delivered [known; known; known] (final o) = [].
Proof. vm_compute. repeat split. Qed.

(** The cuts that the Receiver does not get over, on a reply whose
    third word has the three-byte prefix [C0 40 00]. Cut once inside
    this prefix, behind the end of the word before, the reply is
    delivered. It is lost when a chunk begins with the first byte of
    the prefix, when the prefix is cut twice, and when the terminator
    comes in a chunk of its own. *)
Lemma cuts_that_lose_the_reply :
  let r1 := read (lit "1") 7%nat new in
  let s := sentence [bytes "!re"; bytes ".tag=1"; repeat 97 (Z.to_nat 16384)] in
  take 3 (drop 11 s) = [0xC0; 0x40; 0x00] /\
  length (delivered [s] r1) = 1%nat /\
  delivered [take 12 s; drop 12 s] r1 = delivered [s] r1 /\
  delivered [take 13 s; drop 13 s] r1 = delivered [s] r1 /\
  delivered [take 11 s; take 1 (drop 11 s); drop 12 s] r1 = [] /\
  delivered [take 12 s; take 1 (drop 12 s); drop 13 s] r1 = [] /\
  delivered [take (length s - 1) s; [0]] r1 = [].
Proof. vm_compute. repeat split. Qed.

(** A last word that is the single byte 0, at the end of a chunk, is
    taken for padding: the reply is sent at once, without this word,
    where the same reply in one chunk with its terminator is sent with
    it. *)
Lemma zero_byte_word_is_dropped :
  let r1 := read (lit "1") 7%nat new in
  let words := [bytes "!re"; bytes ".tag=1"; [0]] in
  delivered [concat (map word words)] r1 = [Called 7%nat [lit "!re"]] /\
  delivered [concat (map word words); [0]] r1 = [Called 7%nat [lit "!re"]] /\
  delivered [sentence words] r1 = [Called 7%nat [lit "!re"; [0]]].
Proof. vm_compute. repeat split. Qed.

End ReceiverScenarios.

(** ** The Connector *)

Section ConnectorFacts.
Import JS Eff Connector.
Local Open Scope Z_scope.

(** [destroy] on a Connector that has connected. *)
Lemma destroy_connected c :
  socket c = true ->
  destroy c
  = mkOutcome (with_listeners [] c) [SocketDestroy; RemoveAllListeners] (Return tt).
Proof.
  intros H. unfold destroy, on_socket, bind, this, emit, assign. cbn. rewrite H.
  reflexivity.
Qed.

(** C4 (as amended). On a transport error the Connector, when its
    owner listens for [error], emits [error] with the exception built
    from the error's [errno], destroys the socket and removes all of
    its listeners, in this order; when nobody listens for [error] the
    exception is thrown by [emit] and the socket is not destroyed. On a
    timeout it emits [timeout] with [SOCKTMOUT], destroys the socket
    and removes all of its listeners. It changes no other field: its
    flags stay as they were, the Receiver keeps every subscription, and
    no subscriber is called. *)
Theorem onError_onTimeout_destroy (c : t) (errno : string) :
  socket c = true ->
  onError errno c
  = (if listens "error" c
     then mkOutcome (with_listeners [] c)
                    [Emit "error" (Some (RosException errno));
                     SocketDestroy; RemoveAllListeners] (Return tt)
     else mkOutcome c [] (Throw (RosException errno))) /\
  onTimeout c
  = mkOutcome (with_listeners [] c)
              [Emit "timeout" (Some (RosException "SOCKTMOUT"));
               SocketDestroy; RemoveAllListeners] (Return tt).
Proof.
  intros H.
  split; unfold onError, onTimeout, emit_event; rewrite bind_bind, bind_this.
  - cbn [String.eqb Ascii.eqb Bool.eqb andb].
    destruct (listens "error" c); cbn [negb].
    + unfold bind at 1. cbn [emit final ending emitted].
      rewrite destroy_connected by exact H. reflexivity.
    + reflexivity.
  - cbn [String.eqb Ascii.eqb Bool.eqb andb].
    unfold bind at 1. cbn [emit final ending emitted].
    rewrite destroy_connected by exact H. reflexivity.
Qed.

Lemma onError_onTimeout_destroy_witness :
  let c := connected_with_subscriber in
  socket c = true /\
  listens "error" c = true /\
  onError "ECONNRESET" c
  = mkOutcome (with_listeners [] c)
              [Emit "error" (Some (RosException "ECONNRESET"));
               SocketDestroy; RemoveAllListeners] (Return tt) /\
  onTimeout c
  = mkOutcome (with_listeners [] c)
              [Emit "timeout" (Some (RosException "SOCKTMOUT"));
               SocketDestroy; RemoveAllListeners] (Return tt).
Proof.
  cbv zeta. split; [reflexivity|]. split; [reflexivity|].
  apply (onError_onTimeout_destroy connected_with_subscriber "ECONNRESET").
  reflexivity.
Defined.

(** C4 as stated fails: after a transport error, and after a timeout, on
    a connected Connector with a subscriber for tag 1 (and a listener
    for [error]), the subscriber has not been called (no synthetic
    [!fatal] or anything else was delivered), tag 1 is still
    subscribed, and [connected] is still [true]. *)
Lemma onError_keeps_subscriptions :
  let c := connected_with_subscriber in
  let after_error := onError "ECONNRESET" c in
  let after_timeout := onTimeout c in
  ending after_error = Return tt /\
  ending after_timeout = Return tt /\
  existsb calls_subscriber (emitted after_error) = false /\
  existsb calls_subscriber (emitted after_timeout) = false /\
  (Receiver.tags <$> receiver (final after_error)) ≫= (fun m => m !! lit "1")
  = Some (Receiver.mkTag (lit "1") 7%nat) /\
  (Receiver.tags <$> receiver (final after_timeout)) ≫= (fun m => m !! lit "1")
  = Some (Receiver.mkTag (lit "1") 7%nat) /\
  connected (final after_error) = true /\
  connected (final after_timeout) = true.
Proof. vm_compute. repeat split. Qed.

(** C9 at its failing input: no port and no TLS. The constructor
    leaves [port] undefined, [connect()] calls
    [socket.connect(undefined, host)] and that call throws a
    [TypeError]: nothing connects to port 8728. [connecting] stays set,
    so a later [connect()] does nothing. The TLS branch does have its
    default: with TLS and no port the Connector calls [tls.connect] with
    port 8729 and returns. *)
Lemma connect_plain_without_port :
  let h := lit "10.0.0.1" in
  let options := mkOptions h (Num 10) Undefined TlsUndefined in
  let o := connect (constructor options) in
  let with_tls := mkOptions h (Num 10) Undefined (TlsBoolean true) in
  port (constructor options) = Undefined /\
  target options = [(false, Undefined)] /\
  last (emitted o) = Some (SocketConnect Undefined h) /\
  ending o = Throw TypeError /\
  connecting (final o) = true /\
  connected (final o) = false /\
  connect (final o) = mkOutcome (final o) [] (Return tt) /\
  target with_tls = [(true, Num 8729)] /\
  ending (connect (constructor with_tls)) = Return tt.
Proof. vm_compute. repeat split. Qed.

Lemma truthy_timeout_msecs (tmo : num) :
  truthy tmo = true -> valid_msecs (mul tmo (Num 1000)) = true ->
  exists z, tmo = Num z /\ (0 <=? z * 1000) = true.
Proof. destruct tmo as [z| |]; try discriminate. intros _ H. exists z. auto. Qed.

(** A Connector that is given a timeout connects to the port it is
    given, and over TLS to port 8729 when it is given none. With TLS
    configured, a positive timeout and either no port or a port from 1
    to 65535, [connect()] calls [tls.connect] with the given port, or
    with 8729, and returns. With [tls] left out or [false], a positive
    timeout and a port from 1 to 65535, it calls [socket.connect] with
    that port and returns. *)
Theorem connect_port (h : str) (tmo p : num) (v : tls_value) :
  truthy tmo = true ->
  valid_msecs (mul tmo (Num 1000)) = true ->
  (truthy p = true -> valid_port p = true) ->
  let given := truthy p in
  let o := connect (constructor (mkOptions h tmo p v)) in
  (tls_configured v = true ->
   target (mkOptions h tmo p v) = [(true, if given then p else Num 8729)] /\
   ending o = Return tt) /\
  (v = TlsUndefined \/ v = TlsBoolean false ->
   given = true ->
   target (mkOptions h tmo p v) = [(false, p)] /\
   ending o = Return tt).
Proof.
  intros Ht Hms Hp. cbv zeta.
  destruct (truthy_timeout_msecs tmo Ht Hms) as (z & -> & Hz).
  split.
  - intros Hv.
    destruct v as [|[|]|o|]; try discriminate Hv;
      unfold target, constructor;
      cbn [opt_tls opt_port opt_timeout opt_host is_object]; rewrite Ht;
      destruct (truthy p) eqn:Ep;
      try (specialize (Hp eq_refl)); cbn;
      unfold checked, bind, emit, ret, throw, assign, this; cbn;
      rewrite ?Hp, ?Hz; cbn; split; reflexivity.
  - intros Hv Hg. rewrite Hg in *. specialize (Hp eq_refl).
    destruct p as [pz| |]; try discriminate Hg.
    destruct Hv as [-> | ->]; unfold target, constructor;
      cbn [opt_tls opt_port opt_timeout opt_host is_object]; rewrite Ht, Hg;
      cbn; unfold checked, bind, emit, ret, throw, assign, this; cbn;
      cbn in Hp; rewrite ?Hp, ?Hz; cbn; split; reflexivity.
Qed.

Lemma connect_port_witness :
  let h := lit "10.0.0.1" in
  (target (mkOptions h (Num 10) Undefined (TlsBoolean true)) = [(true, Num 8729)] /\
   ending (connect (constructor (mkOptions h (Num 10) Undefined (TlsBoolean true))))
   = Return tt) /\
  (target (mkOptions h (Num 10) (Num 8730) (TlsObject [])) = [(true, Num 8730)] /\
   ending (connect (constructor (mkOptions h (Num 10) (Num 8730) (TlsObject []))))
   = Return tt) /\
  (target (mkOptions h (Num 10) (Num 8728) TlsUndefined) = [(false, Num 8728)] /\
   ending (connect (constructor (mkOptions h (Num 10) (Num 8728) TlsUndefined)))
   = Return tt).
Proof.
  cbv zeta. split; [|split].
  - apply (connect_port (lit "10.0.0.1") (Num 10) Undefined (TlsBoolean true));
      try reflexivity. discriminate.
  - apply (connect_port (lit "10.0.0.1") (Num 10) (Num 8730) (TlsObject []));
      reflexivity.
  - apply (connect_port (lit "10.0.0.1") (Num 10) (Num 8728) TlsUndefined);
      try reflexivity. left; reflexivity.
Defined.

(** A Connector that is given no timeout (or a timeout of 0, which
    counts as none) does not get through [connect()]:
    [socket.setTimeout] is called with [NaN] and throws a
    [RangeError]. In plain mode this is before [socket.connect], which
    is never called; over TLS it is after [tls.connect]. [connecting]
    stays set, so a later [connect()] does nothing. *)
Theorem connect_without_timeout (h : str) (tmo p : num) (v : tls_value) :
  truthy tmo = false ->
  (truthy p = true -> valid_port p = true) ->
  let o := connect (constructor (mkOptions h tmo p v)) in
  ending o = Throw RangeError /\
  last (emitted o) = Some (SocketSetTimeout NaN) /\
  (tls_truthy v = false -> target (mkOptions h tmo p v) = []) /\
  connect (final o) = mkOutcome (final o) [] (Return tt).
Proof.
  intros Ht Hp. cbv zeta.
  unfold target, constructor.
  cbn [opt_tls opt_port opt_timeout opt_host]. rewrite Ht.
  destruct (truthy p) eqn:Ep; try (specialize (Hp eq_refl));
    destruct v as [|[|]|o|]; cbn;
    unfold checked, bind, emit, ret, throw, assign, this; cbn;
    rewrite ?Hp; cbn; repeat split; try reflexivity; try discriminate.
Qed.

Lemma connect_without_timeout_witness :
  let o := connect (constructor (mkOptions (lit "10.0.0.1") Undefined (Num 8728)
                                           TlsUndefined)) in
  ending o = Throw RangeError /\
  last (emitted o) = Some (SocketSetTimeout NaN) /\
  (tls_truthy TlsUndefined = false ->
   target (mkOptions (lit "10.0.0.1") Undefined (Num 8728) TlsUndefined) = []) /\
  connect (final o) = mkOutcome (final o) [] (Return tt).
Proof.
  cbv zeta.
  apply (connect_without_timeout (lit "10.0.0.1") Undefined (Num 8728) TlsUndefined).
  - reflexivity.
  - reflexivity.
Defined.

End ConnectorFacts.

(** ** RStream *)

Section RStreamFacts.
Import JS Eff RStream.

(** C7 (as amended). What a trap does, for every stream. A trap whose
    message is [interrupted] only clears [streaming]: nothing is
    emitted, no callback is called. Any other message sets [stopped]
    and [trapped]; then a stream with a consumer callback calls it
    exactly once, with an error that carries the message and no data,
    and emits [trap]. A stream without one emits [error] and then
    [trap] when somebody listens for [error]; when nobody does, [emit]
    throws and [trap] is not emitted. *)
Theorem onTrap_outcome (s : t) (message : list Z) :
  let o := onTrap message s in
  (message = lit "interrupted" ->
   o = mkOutcome (with_streaming false s) [] (Return tt)) /\
  (message <> lit "interrupted" ->
   final o = with_trapped true (with_stopped true s) /\
   match callback s with
   | Some cb =>
       emitted o = [Invoke cb (Some message) Null; Emit "trap" (Trap message)] /\
       invocations (emitted o) = [(cb, Some message, Null)] /\
       ending o = Return tt
   | None =>
       invocations (emitted o) = [] /\
       if listens "error" s
       then emitted o = [Emit "error" (Trap message); Emit "trap" (Trap message)] /\
            ending o = Return tt
       else emitted o = [] /\ ending o = Throw UnhandledError
   end).
Proof.
  cbv zeta. unfold onTrap. split; intros Hm.
  - rewrite bool_decide_eq_true_2 by exact Hm. reflexivity.
  - rewrite bool_decide_eq_false_2 by exact Hm.
    destruct s as [sd st pg pd sg sp tr cs fs csp ch ps cbk db tm ls].
    unfold emit_event, bind, assign, this, emit, throw. cbn -[listens].
    unfold listens. cbn [listeners].
    destruct cbk as [cb|]; cbn -[existsb String.eqb].
    + repeat split.
    + destruct (existsb (String.eqb "error") ls); cbn; repeat split.
Qed.

Lemma onTrap_outcome_witness :
  let s := constructor (mkChannel (lit "a1")) [lit "/ip/address/listen"] (Some 3%nat) in
  let quiet := constructor (mkChannel (lit "a1")) [lit "/ip/address/listen"] None in
  onTrap (lit "interrupted") s = mkOutcome (with_streaming false s) [] (Return tt) /\
  emitted (onTrap (lit "no such command") s)
  = [Invoke 3%nat (Some (lit "no such command")) Null;
     Emit "trap" (Trap (lit "no such command"))] /\
  ending (onTrap (lit "no such command") quiet) = Throw UnhandledError.
Proof.
  cbv zeta.
  pose proof (onTrap_outcome
                (constructor (mkChannel (lit "a1")) [lit "/ip/address/listen"] (Some 3%nat))
                (lit "interrupted")) as [H1 _].
  pose proof (onTrap_outcome
                (constructor (mkChannel (lit "a1")) [lit "/ip/address/listen"] (Some 3%nat))
                (lit "no such command")) as [_ H2].
  pose proof (onTrap_outcome
                (constructor (mkChannel (lit "a1")) [lit "/ip/address/listen"] None)
                (lit "no such command")) as [_ H3].
  assert (Hne : lit "no such command" <> lit "interrupted") by discriminate.
  split; [apply H1; reflexivity|].
  split; [apply (H2 Hne) | apply (H3 Hne)].
Defined.

(** C7 as stated fails, in two ways. A stream that was built without
    a consumer callback has none to call: a trap makes it emit [error]
    to its listeners instead. And the state after a trap is not
    terminal. On a stream with a callback, started, the trap calls the
    callback and leaves the stream stopped and trapped, and [pause()]
    and [resume()] reject with [STREAMCLOSD]; but the [!done] reply
    that follows the trap makes [onDone] close the channel, and the
    listener that [start()] has put on the channel's [close] event
    clears [stopped]. From then on the trapped stream is taken for a
    running one: [resume()] resolves, and [pause()] and [stop()] each
    write a [/cancel]. *)
Lemma trap_not_as_claimed :
  let message := lit "no such command" in
  let cancel := CancelWrite [lit "/cancel"; lit "=tag=a1"] in
  let bare := constructor (mkChannel (lit "a1")) [lit "/ip/address/listen"] None in
  let bare := final (on "error" bare) in
  let s := constructor (mkChannel (lit "a1")) [lit "/ip/address/listen"] (Some 3%nat) in
  let s := final (start s) in
  let o := onTrap message s in
  let s1 := final o in
  let s2 := final (onDone s1) in
  let s3 := final (onClose s2) in
  invocations (emitted (onTrap message bare)) = [] /\
  emitted (onTrap message bare)
  = [Emit "error" (Trap message); Emit "trap" (Trap message)] /\
  emitted o = [Invoke 3%nat (Some message) Null; Emit "trap" (Trap message)] /\
  stopped s1 = true /\
  trapped s1 = true /\
  ending (pause s1) = Return (Rejected (RosException "STREAMCLOSD")) /\
  ending (resume s1) = Return (Rejected (RosException "STREAMCLOSD")) /\
  emitted (onDone s1) = [ChannelClose] /\
  emitted (onClose s2) = [Emit "close" Null] /\
  trapped s3 = true /\
  stopped s3 = false /\
  resume s3 = mkOutcome s3 [] (Return Resolved) /\
  emitted (pause s3) = [cancel] /\
  ending (pause s3) = Return Pending /\
  emitted (stop false s3) = [cancel] /\
  ending (stop false s3) = Return Pending.
Proof. vm_compute. repeat split. Qed.

(** C8 (as amended). On a stream whose [stopped] or [stopping] flag is
    set, [stop()] changes nothing, writes nothing and resolves;
    [pause()] changes nothing and writes nothing either, but its
    promise is rejected with [STREAMCLOSD]. *)
Theorem stop_pause_after_stop (s : t) (pausing_ : bool) :
  stopped s || stopping s = true ->
  stop pausing_ s = mkOutcome s [] (Return Resolved) /\
  pause s = mkOutcome s [] (Return (Rejected (RosException "STREAMCLOSD"))).
Proof.
  intros H. unfold stop, pause, bind, this. cbn. rewrite H. split; reflexivity.
Qed.

Lemma stop_pause_after_stop_witness :
  stopped stopped_stream || stopping stopped_stream = true /\
  stop false stopped_stream = mkOutcome stopped_stream [] (Return Resolved) /\
  pause stopped_stream
  = mkOutcome stopped_stream [] (Return (Rejected (RosException "STREAMCLOSD"))).
Proof.
  split; [reflexivity|].
  apply (stop_pause_after_stop stopped_stream false). reflexivity.
Defined.

(** C8 as stated fails for [pause]: on a stopped stream its promise is
    rejected, it does not complete successfully. *)
Lemma pause_after_stop_rejects :
  stopped stopped_stream = true /\
  ending (pause stopped_stream) = Return (Rejected (RosException "STREAMCLOSD")) /\
  ending (pause stopped_stream) <> Return Resolved.
Proof. split; [reflexivity|]. split; [reflexivity|]. discriminate. Qed.

(** C5 at its failing input. A stream with a consumer callback is
    started and receives a row of section [a]: the row is buffered and
    the section timer is set. [stop()] is called and its [/cancel]
    write resolves, so the stream is stopped; [stop] did not clear the
    section timer. When the timer fires, the callback is called with
    the buffered row. And a row that the channel still passes to the
    listener installed by [start] is emitted as [data] and handed to
    the callback: [onStream] does not look at [stopped]. *)
Lemma stopped_stream_still_delivers :
  let row := Row (Some (lit "a")) [(lit "name", lit "ether1")] in
  let late := Row None [(lit "name", lit "ether2")] in
  let s := constructor (mkChannel (lit "a1")) [lit "/tool/torch"] (Some 3%nat) in
  let s := final (start s) in
  let s := final (onStreamPacket row s) in
  let o := stop false s in
  let s := final (stop_then (final o)) in
  ending o = Return Pending /\
  stopped s = true /\
  sectionPacketSendingTimeout s = true /\
  invocations (emitted (sectionTimeout s)) = [(3%nat, None, Batch [row])] /\
  data_events (emitted (onStreamPacket late s)) = [OnePacket late] /\
  invocations (emitted (onStreamPacket late s)) = [(3%nat, None, OnePacket late)].
Proof. vm_compute. repeat split. Qed.

End RStreamFacts.

(** ** The Receiver on whole chunks *)

Section ReceiverChunks.
Import JS Eff Receiver Wire Reply Chunk.
Local Open Scope Z_scope.

#[local] Arguments lit : simpl never.
#[local] Arguments reply_is : simpl never.
#[local] Arguments starts_with : simpl never.
#[local] Arguments seq_lit : simpl never.
#[local] Arguments truthy_str : simpl never.
#[local] Arguments substring : simpl never.
#[local] Arguments Iconv.decode : simpl never.
#[local] Arguments Length.decodeLength : simpl never.
#[local] Arguments rawLoop : simpl never.
#[local] Arguments Length.encode_length : simpl never.
#[local] Arguments Length.prefix_size : simpl never.

Ltac split_stuck :=
  match goal with
  | |- context [if ?b then _ else _] => destruct b eqn:?
  | |- context [match ?x with Some _ => _ | None => _ end] => destruct x eqn:?
  | |- context [match ?x with [] => _ | _ :: _ => _ end] => destruct x eqn:?
  end.

(** ** What a call never touches *)

(** A field that neither [m] nor what follows it writes is not written
    by the two in sequence. *)
Lemma bind_keeps {S E X A B V} (f : S -> V) (m : Eff.M S E X A)
    (k : A -> Eff.M S E X B) :
  (forall s, f (final (m s)) = f s) ->
  (forall a s, f (final (k a s)) = f s) ->
  forall s, f (final (bind m k s)) = f s.
Proof.
  intros Hm Hk s. unfold bind. specialize (Hm s).
  destruct (m s) as [s1 e1 [a|x]]; cbn in *; [|exact Hm].
  specialize (Hk a s1). destruct (k a s1). cbn in *. congruence.
Qed.

Lemma process_keeps_tags fuel : forall r, tags (final (process fuel r)) = tags r.
Proof.
  induction fuel as [|fuel IH]; intros r; [reflexivity|].
  destruct r as [m dl pipe busy cl rp tg pk seg].
  destruct pipe as [|[d h] rest]; [reflexivity|].
  cbn [process].
  unfold sendCurrentTag, sendTagData, cleanUp, when, bind, assign, this, ret, emit, throw.
  cbn.
  repeat (split_stuck; cbn); try reflexivity;
    match goal with
    | |- context [process fuel ?st] =>
        pose proof (IH st) as Hst;
        destruct (process fuel st) as [s2 e2 c2];
        cbn in Hst |- *; exact Hst
    end.
Qed.

Lemma processSentence_keeps_tags r : tags (final (processSentence r)) = tags r.
Proof.
  unfold processSentence. rewrite bind_this.
  destruct (processingSentencePipe r); cbn [negb]; [reflexivity|].
  rewrite bind_assign. rewrite process_keeps_tags. destruct r; reflexivity.
Qed.

Ltac keeps_tags :=
  repeat first
    [ apply processSentence_keeps_tags
    | intros []; reflexivity
    | progress intros
    | apply bind_keeps
    | match goal with
      | |- context [when ?b _] => destruct b; cbn [when]
      | |- context [if ?b then _ else _] => destruct b
      | |- context [let '(_, _) := ?p in _] => destruct p
      end
    | reflexivity ].

Lemma rawLoop_keeps_tags fuel : forall data r,
  tags (final (rawLoop fuel data r)) = tags r.
Proof.
  induction fuel as [|fuel IH]; intros data; [reflexivity|].
  rewrite rawLoop_S. unfold dropPadding, pushLine.
  destruct (0 <? length data)%nat; [|reflexivity].
  apply bind_keeps; [reflexivity|]. intros r0.
  destruct (gt0 (dataLength r0)).
  - cbv zeta. destruct (le _ _).
    + keeps_tags.
    + destruct (Length.decodeLength _) as [descriptor_length len].
      keeps_tags; apply IH.
  - destruct (Length.decodeLength _) as [descriptor_length len].
    keeps_tags; apply IH.
Qed.

Lemma processRawData_keeps_tags (data : Buffer) (r : Receiver.t) :
  tags (final (processRawData data r)) = tags r.
Proof.
  unfold processRawData. revert r. apply bind_keeps; [reflexivity|]. intros r0.
  apply bind_keeps.
  - destruct (lengthDescriptorSegment r0); keeps_tags.
  - intros d. apply rawLoop_keeps_tags.
Qed.

(** The data that arrives never changes the subscriptions. Whatever
    bytes are fed to the Receiver, in whatever chunks, and whatever
    they make it do (deliver a reply, emit [fatal], throw for an
    unregistered tag), the tag map afterwards is the one before: only
    [read] and [stop] change it. *)
Theorem feed_keeps_tags (chunks : list Buffer) (r : Receiver.t) :
  tags (fst (fst (feed chunks r))) = tags r.
Proof.
  revert r. induction chunks as [|c rest IH]; intros r; [reflexivity|].
  cbn [feed]. cbv zeta.
  specialize (IH (final (processRawData c r))).
  destruct (feed rest (final (processRawData c r))) as [[r' evs] exns].
  cbn [fst] in *. rewrite IH. apply processRawData_keeps_tags.
Qed.

(** ** A Receiver whose [processingSentencePipe] is left set *)

Lemma push_process_wedged (l : Line) (r : Receiver.t) :
  processingSentencePipe r = true ->
  (pushLine l ;;; processSentence) r
  = mkOutcome (with_sentencePipe (sentencePipe r ++ [l]) r) [] (Return tt).
Proof.
  intros H. unfold pushLine, processSentence. rewrite bind_assign, bind_this.
  destruct r; cbn in *. subst. reflexivity.
Qed.

Lemma rawLoop_wedged fuel : forall data r,
  (length data < fuel)%nat ->
  processingSentencePipe r = true ->
  exists r', rawLoop fuel data r = mkOutcome r' [] (Return tt) /\ same_reply r r'.
Proof.
  induction fuel as [|fuel IH]; intros data r Hlen Hbusy; [lia|].
  rewrite rawLoop_S.
  destruct (0 <? length data)%nat eqn:Hpos.
  2:{ exists r. split; [reflexivity | repeat split]. }
  apply Nat.ltb_lt in Hpos.
  rewrite bind_this.
  destruct (gt0 (dataLength r)) eqn:Hgt.
  - cbv zeta. destruct (le _ _) eqn:Hle.
    + rewrite !bind_assign, bind_this.
      match goal with |- context [when ?b _] => destruct b end; cbn [when].
      * rewrite <- bind_bind.
        erewrite bind_quiet by (apply push_process_wedged; destruct r; exact Hbusy).
        eexists. split; [reflexivity|]. destruct r; repeat split; assumption.
      * eexists. split; [reflexivity|]. destruct r; repeat split; assumption.
    + apply gt0_offset in Hgt.
      rewrite bind_assign, bind_this, bind_assign.
      pose proof (decodeLength_idx (slice_from (offset (dataLength r)) data)) as Hidx.
      destruct (Length.decodeLength _) as [descriptor_length len]. cbn [fst] in Hidx.
      match goal with |- context [when ?b _] => destruct b end; cbn [when];
        repeat (rewrite bind_assign || rewrite bind_ret);
        unfold dropPadding; rewrite bind_bind, bind_this;
        match goal with |- context [if ?b then _ else _] => destruct b end;
        repeat (rewrite bind_bind || rewrite bind_assign || rewrite bind_ret);
        rewrite <- ?bind_bind;
        (erewrite bind_quiet by (apply push_process_wedged; destruct r; exact Hbusy));
        match goal with
        | |- context [rawLoop fuel ?d ?s] =>
            destruct (IH d s) as (r' & Hr' & Hsame);
            [ unfold slice_from; rewrite ?length_drop; lia
            | destruct r; exact Hbusy
            | exists r'; split; [exact Hr'|];
              destruct r; exact Hsame ]
        end.
  - pose proof (decodeLength_idx data) as Hidx.
    destruct (Length.decodeLength data) as [descriptor_length len]. cbn [fst] in Hidx.
    rewrite bind_assign.
    unfold dropPadding; rewrite bind_bind, bind_this;
      match goal with |- context [if ?b then _ else _] => destruct b end;
      repeat (rewrite bind_bind || rewrite bind_assign || rewrite bind_ret);
      match goal with
      | |- context [rawLoop fuel ?d ?s] =>
          destruct (IH d s) as (r' & Hr' & Hsame);
          [ unfold slice_from; rewrite ?length_drop; lia
          | destruct r; exact Hbusy
          | exists r'; split; [exact Hr'|];
            destruct r; exact Hsame ]
      end.
Qed.

(** ** The rounds of the loop *)

Lemma bind_ext {S E X A B} (m : Eff.M S E X A) (k1 k2 : A -> Eff.M S E X B) (s : S) :
  (forall a s1, k1 a s1 = k2 a s1) -> bind m k1 s = bind m k2 s.
Proof.
  intros H. unfold bind. destruct (m s) as [s1 e1 [a|x]]; [|reflexivity].
  rewrite H. reflexivity.
Qed.

(** With rounds enough, the loop does not depend on their number. *)
Lemma rawLoop_rounds fuel : forall fuel' data r,
  (length data < fuel)%nat -> (length data < fuel')%nat ->
  rawLoop fuel data r = rawLoop fuel' data r.
Proof.
  induction fuel as [|fuel IH]; intros fuel' data r Hlen Hlen'; [lia|].
  destruct fuel' as [|fuel']; [lia|].
  rewrite !rawLoop_S.
  destruct (0 <? length data)%nat eqn:Hpos; [|reflexivity].
  apply Nat.ltb_lt in Hpos.
  rewrite !bind_this.
  destruct (gt0 (dataLength r)) eqn:Hgt.
  - cbv zeta. destruct (le _ _); [reflexivity|].
    apply gt0_offset in Hgt.
    apply bind_ext. intros _ s1. apply bind_ext. intros r1 s2.
    apply bind_ext. intros _ s3.
    pose proof (decodeLength_idx (slice_from (offset (dataLength r)) data)) as Hidx.
    destruct (Length.decodeLength _) as [descriptor_length len]. cbn [fst] in Hidx.
    apply bind_ext. intros _ s4. apply bind_ext. intros _ s5.
    unfold dropPadding. rewrite !bind_bind. apply bind_ext. intros r6 s6.
    destruct (_ && _).
    + rewrite !bind_bind. apply bind_ext. intros _ s7. rewrite !bind_ret.
      apply bind_ext. intros _ s8. apply bind_ext. intros _ s9.
      apply IH; unfold slice_from; rewrite !length_drop; lia.
    + rewrite !bind_ret.
      apply bind_ext. intros _ s8. apply bind_ext. intros _ s9.
      apply IH; unfold slice_from; rewrite !length_drop; lia.
  - pose proof (decodeLength_idx data) as Hidx.
    destruct (Length.decodeLength data) as [descriptor_length len]. cbn [fst] in Hidx.
    apply bind_ext. intros _ s4.
    unfold dropPadding. rewrite !bind_bind. apply bind_ext. intros r6 s6.
    destruct (_ && _).
    + rewrite !bind_bind. apply bind_ext. intros _ s7. rewrite !bind_ret.
      apply IH; unfold slice_from; rewrite !length_drop; lia.
    + rewrite !bind_ret.
      apply IH; unfold slice_from; rewrite !length_drop; lia.
Qed.

Lemma loop_rounds fuel data r :
  (length data < fuel)%nat -> rawLoop fuel data r = loop data r.
Proof. intros H. unfold loop. apply rawLoop_rounds; lia. Qed.

Lemma processRawData_loop data r :
  lengthDescriptorSegment r = None -> processRawData data r = loop data r.
Proof.
  intros H. unfold processRawData. rewrite bind_this, H, bind_ret. reflexivity.
Qed.

Lemma loop_nil r : loop [] r = mkOutcome r [] (Return tt).
Proof. reflexivity. Qed.

Lemma loop_A n more m line a :
  0 < n < 2 ^ 31 -> ~ (n = 1 /\ more = [0]) ->
  loop (Length.encode_length n ++ more) (at_rest m (Num 0) line a None)
  = loop more (at_rest m (Num n) line a None).
Proof.
  intros Hn Hpad. unfold loop at 1. rewrite rawLoop_A by assumption.
  apply loop_rounds. rewrite length_app, length_encode_length.
  pose proof (prefix_size_pos n). lia.
Qed.

Lemma loop_B2 t n more m line a :
  t <> [] -> 0 <= n < 2 ^ 31 -> ~ (n = 1 /\ more = [0]) ->
  loop (t ++ Length.encode_length n ++ more)
       (at_rest m (Num (Z.of_nat (length t))) line a None)
  = bind (pushLine (mkLine (line ++ Iconv.decode t) (0 <? length more)%nat) ;;;
          processSentence)
         (fun _ => loop more)
         (at_rest m (Num n) [] a None).
Proof.
  intros Ht Hn Hpad. unfold loop at 1. rewrite rawLoop_B2 by assumption.
  apply bind_ext. intros _ s1. apply loop_rounds.
  rewrite !length_app, length_encode_length.
  pose proof (prefix_size_pos n). lia.
Qed.

Ltac step_if :=
  match goal with
  | H : ?b = true |- context [if ?b then _ else _] => rewrite H
  | H : ?b = false |- context [if ?b then _ else _] => rewrite H
  | H : ?b = true |- context [?b && _] => rewrite H
  | H : ?b = false |- context [?b && _] => rewrite H
  | H : ?b = true |- context [_ && ?b] => rewrite H
  | H : ?b = false |- context [_ && ?b] => rewrite H
  | H : ?x = [] |- context [match ?x with [] => _ | _ :: _ => _ end] => rewrite H
  | H : ?x = _ :: _ |- context [match ?x with [] => _ | _ :: _ => _ end] => rewrite H
  | H : ?x = Some _ |- context [match ?x with Some _ => _ | None => _ end] => rewrite H
  | H : ?x = None |- context [match ?x with Some _ => _ | None => _ end] => rewrite H
  end.

Ltac unfold_methods :=
  unfold pushLine, processSentence, sendCurrentTag, sendTagData, cleanUp,
    dropPadding, when, bind, assign, this, ret, emit, throw.

Ltac run := unfold_methods; cbn; repeat (step_if; unfold_methods; cbn).

(** A line that had more data after it. *)
Lemma push_process_take m dl cl a seg d :
  registered m d a ->
  (pushLine (mkLine d true) ;;; processSentence) (at_rest m dl cl a seg)
  = mkOutcome (at_rest m dl cl (take d a) seg) (flushed m d a) (Return tt).
Proof.
  intros Hreg. unfold registered, take, flushed, pending_tag in *.
  destruct a as [tg pk rp]. cbn [g_tag g_packet g_reply] in *. unfold at_rest.
  destruct (starts_with (lit ".tag=") d) eqn:Etag.
  - pose proof (bang_not_tag d) as Hb.
    destruct (starts_with (lit "!") d) eqn:Ebang; [specialize (Hb eq_refl); congruence|].
    destruct (seq_lit dl 0) eqn:Edl; run; reflexivity.
  - destruct (starts_with (lit "!") d) eqn:Ebang.
    + specialize (Hreg eq_refl).
      destruct tg as [[|c T]|].
      * destruct (seq_lit dl 0) eqn:Edl; run; reflexivity.
      * destruct (Hreg (c :: T) eq_refl) as [entry Hentry].
        destruct (seq_lit dl 0) eqn:Edl; run; reflexivity.
      * destruct (seq_lit dl 0) eqn:Edl; run; reflexivity.
    + destruct (seq_lit dl 0) eqn:Edl; run; reflexivity.
Qed.

Lemma bind_prepend {A} (mm : Receiver.M A) (k : A -> Receiver.M unit) s s1 e1 a :
  mm s = mkOutcome s1 e1 (Return a) -> bind mm k s = prepend e1 (k a s1).
Proof. intros H. unfold bind, prepend. rewrite H. destruct (k a s1); reflexivity. Qed.

Lemma bind_loop_nil (mm : Receiver.M unit) s : bind mm (fun _ => loop []) s = mm s.
Proof.
  unfold bind. destruct (mm s) as [s1 e1 [[]|x]]; [|reflexivity].
  rewrite loop_nil, app_nil_r. reflexivity.
Qed.

Lemma sized_pos w : sized w -> (0 < length w)%nat.
Proof. intros [H _]. destruct w; [congruence | cbn; lia]. Qed.

(** The last word of the chunk, followed by its terminator. *)
Lemma loop_last m a lastw :
  sized lastw ->
  loop (lastw ++ [0]) (at_rest m (Num (Z.of_nat (length lastw))) [] a None)
  = (pushLine (mkLine (Iconv.decode lastw) false) ;;; processSentence)
      (at_rest m (Num 0) [] a None).
Proof.
  intros Hs. change [0] with (Length.encode_length 0 ++ []).
  rewrite loop_B2; [ | apply Hs | lia | intros [? _]; lia ].
  cbn [length Nat.ltb Nat.leb app]. apply bind_loop_nil.
Qed.

(** A word of the chunk that is not the last: the loop takes its line
    and goes on inside the next word. *)
Lemma loop_next m a t (e : bool) w more :
  sized t -> sized w -> more <> [] \/ w <> [0] ->
  registered m (Iconv.decode t) a ->
  loop (t ++ (if e then [0] else []) ++ word w ++ more)
       (at_rest m (Num (Z.of_nat (length t))) [] a None)
  = prepend (flushed m (Iconv.decode t) a)
            (loop (w ++ more)
                  (at_rest m (Num (Z.of_nat (length w))) []
                           (take (Iconv.decode t) a) None)).
Proof.
  intros Ht Hw Hmore Hreg.
  pose proof (sized_pos w Hw) as Hwpos. destruct Hw as [Hw1 Hw2].
  assert (Hlen : forall x : Buffer, (0 <? length (x ++ w ++ more))%nat = true).
  { intros x. apply Nat.ltb_lt. rewrite !length_app. lia. }
  assert (Hpad : ~ (Z.of_nat (length w) = 1 /\ w ++ more = [0])).
  { intros [_ H]. destruct Hmore as [Hmore | Hmore].
    - apply (f_equal (@length Z)) in H. rewrite length_app in H.
      cbn in H. destruct more; [congruence | cbn in H; lia].
    - destruct more as [|x more]; [rewrite app_nil_r in H; congruence|].
      apply (f_equal (@length Z)) in H. rewrite length_app in H. cbn in H. lia. }
  destruct e; cbv iota; unfold word; rewrite <- ?app_assoc.
  - change ([0] ++ Length.encode_length (Z.of_nat (length w)) ++ w ++ more)
      with (Length.encode_length 0 ++ (Length.encode_length (Z.of_nat (length w)) ++ w ++ more)).
    rewrite loop_B2; [ | apply Ht | lia | intros [? _]; lia ].
    rewrite Hlen. cbn [app].
    erewrite bind_prepend by (apply push_process_take; exact Hreg).
    f_equal. apply loop_A; [lia | exact Hpad].
  - cbn [app].
    rewrite loop_B2; [ | apply Ht | lia | exact Hpad ].
    assert (Hl : (0 <? length (w ++ more))%nat = true)
      by (apply Nat.ltb_lt; rewrite length_app; lia).
    rewrite Hl. cbn [app].
    erewrite bind_prepend by (apply push_process_take; exact Hreg).
    reflexivity.
Qed.

Lemma items_bytes_app its1 its2 :
  items_bytes (its1 ++ its2) = items_bytes its1 ++ items_bytes its2.
Proof. unfold items_bytes. rewrite map_app, concat_app. reflexivity. Qed.

Lemma items_bytes_last w : items_bytes [(w, true)] = word w ++ [0].
Proof. unfold items_bytes. cbn. rewrite app_nil_r. reflexivity. Qed.

(** The loop from inside a word of a chunk of whole sentences. *)
Lemma stream_loop m lastw its0 : forall t (e : bool) a,
  sized t -> Forall (fun it => sized (fst it)) its0 -> sized lastw ->
  registered_all m (Iconv.decode t :: map (fun it => Iconv.decode (fst it)) its0) a ->
  loop (t ++ (if e then [0] else []) ++ items_bytes (its0 ++ [(lastw, true)]))
       (at_rest m (Num (Z.of_nat (length t))) [] a None)
  = lines_outcome m (Iconv.decode t :: map (fun it => Iconv.decode (fst it)) its0)
                  (last_line m (Iconv.decode lastw)) a.
Proof.
  induction its0 as [|[w e'] its0 IH]; intros t e a Ht Hits Hlast [Hreg Hrest].
  - cbn [app map]. rewrite items_bytes_last.
    rewrite loop_next by (assumption || (left; discriminate)).
    cbn [lines_outcome]. f_equal. apply loop_last. exact Hlast.
  - apply Forall_cons in Hits as [Hw Hits]. cbn [fst] in Hw.
    cbn [app map]. 
    change (items_bytes ((w, e') :: its0 ++ [(lastw, true)]))
      with (item_bytes (w, e') ++ items_bytes (its0 ++ [(lastw, true)])).
    unfold item_bytes. cbn [fst snd]. rewrite <- app_assoc.
    rewrite loop_next; [ | assumption | assumption | | assumption ].
    2:{ left. rewrite items_bytes_app, items_bytes_last. intros E.
        apply (f_equal (@length Z)) in E. rewrite !length_app in E.
        cbn [length] in E. lia. }
    cbn [lines_outcome]. f_equal. cbn [fst]. apply IH; assumption.
Qed.

(** A chunk of whole sentences, from the start of a word. *)
Lemma chunk_lines m lastw its0 a :
  Forall (fun it => sized (fst it)) its0 -> sized lastw ->
  registered_all m (map (fun it => Iconv.decode (fst it)) its0) a ->
  loop (items_bytes (its0 ++ [(lastw, true)])) (at_rest m (Num 0) [] a None)
  = lines_outcome m (map (fun it => Iconv.decode (fst it)) its0)
                  (last_line m (Iconv.decode lastw)) a.
Proof.
  intros Hits Hlast Hreg.
  destruct its0 as [|[w e] its0].
  - cbn [app map lines_outcome]. rewrite items_bytes_last. unfold word.
    rewrite <- app_assoc.
    pose proof (sized_pos _ Hlast). destruct Hlast as [H1 H2].
    rewrite loop_A; [ | lia | ].
    + apply loop_last. split; assumption.
    + intros [_ E]. apply (f_equal (@length Z)) in E. rewrite length_app in E.
      cbn in E. lia.
  - apply Forall_cons in Hits as [Hw Hits]. cbn [fst] in Hw.
    cbn [app]. 
    change (items_bytes ((w, e) :: its0 ++ [(lastw, true)]))
      with (item_bytes (w, e) ++ items_bytes (its0 ++ [(lastw, true)])).
    unfold item_bytes. cbn [fst snd]. unfold word at 1. rewrite <- !app_assoc.
    pose proof (sized_pos _ Hw) as Hwpos. pose proof Hw as [H1 H2].
    rewrite loop_A; [ | lia | ].
    + apply (stream_loop m lastw its0 w e a); assumption.
    + intros [_ E]. apply (f_equal (@length Z)) in E. rewrite !length_app in E.
      rewrite items_bytes_app, items_bytes_last, length_app in E.
      unfold word in E. rewrite !length_app in E. cbn in E. lia.
Qed.

(** ** One sentence in one chunk *)

Lemma items_bytes_plain (ws : list Buffer) :
  items_bytes (map (fun w => (w, false)) ws) = concat (map word ws).
Proof.
  unfold items_bytes. induction ws as [|w ws IH]; [reflexivity|].
  cbn [map concat]. rewrite IH. unfold item_bytes. cbn [fst snd].
  rewrite app_nil_r. reflexivity.
Qed.

Lemma sentence_items (init : list Buffer) (lastw : Buffer) :
  sentence (init ++ [lastw])
  = items_bytes (map (fun w => (w, false)) init ++ [(lastw, true)]).
Proof.
  unfold sentence. rewrite items_bytes_app, items_bytes_plain, items_bytes_last.
  rewrite map_app, concat_app. cbn [map concat]. rewrite app_nil_r, <- app_assoc.
  reflexivity.
Qed.

Lemma prepend_nil {A} (o : outcome Receiver.t event exn A) : prepend [] o = o.
Proof. destruct o; reflexivity. Qed.

Lemma pending_falsy a : truthy_str (g_tag a) = false -> pending_tag a = None.
Proof. unfold pending_tag, truthy_str. destruct (g_tag a) as [[|]|]; intros; congruence. Qed.

(** A line that sends nothing is taken in as [absorb] says. *)
Lemma take_quiet m d a :
  (starts_with (lit "!") d = true -> truthy_str (g_tag a) = false) ->
  take d a = absorb d a /\ flushed m d a = [] /\ registered m d a.
Proof.
  intros H. unfold take, absorb, flushed, registered.
  destruct (starts_with (lit "!") d) eqn:Eb.
  - rewrite (pending_falsy a (H eq_refl)).
    repeat split. intros _ T HT. discriminate.
  - repeat split. intros E. discriminate.
Qed.

Lemma lines_quiet m lastl ds : forall a,
  quiet_all ds a ->
  registered_all m ds a /\
  lines_outcome m ds lastl a = lines_outcome m [] lastl (gather ds a).
Proof.
  induction ds as [|d ds IH]; intros a Hq; [split; [exact I | reflexivity]|].
  destruct Hq as [[_ Hd] Hq].
  destruct (take_quiet m d a Hd) as (Ht & Hf & Hr).
  destruct (IH (absorb d a) Hq) as [IH1 IH2].
  cbn [registered_all lines_outcome]. rewrite Ht, Hf, prepend_nil.
  split; [split; assumption | exact IH2].
Qed.

(** One sentence in one chunk, when none of its lines but the last
    sends anything. *)
Lemma sentence_quiet m a (init : list Buffer) (lastw : Buffer) :
  Forall sized init -> sized lastw ->
  quiet_all (map Iconv.decode init) a ->
  loop (sentence (init ++ [lastw])) (at_rest m (Num 0) [] a None)
  = (pushLine (mkLine (Iconv.decode lastw) false) ;;; processSentence)
      (at_rest m (Num 0) [] (gather (map Iconv.decode init) a) None).
Proof.
  intros Hinit Hlast Hq.
  destruct (lines_quiet m (last_line m (Iconv.decode lastw)) _ a Hq) as [Hreg Hout].
  rewrite sentence_items, chunk_lines.
  - rewrite map_map. cbn [fst]. exact Hout.
  - apply Forall_map. exact Hinit.
  - exact Hlast.
  - rewrite map_map. exact Hreg.
Qed.

(** The last line of a reply whose tag has no subscriber:
    [sendTagData] throws, and nothing is reset. *)
Lemma push_process_unregistered m cl a seg d c T :
  quiet d a ->
  g_tag (absorb d a) = Some (c :: T) ->
  m !! (c :: T) = None ->
  (pushLine (mkLine d false) ;;; processSentence) (at_rest m (Num 0) cl a seg)
  = mkOutcome (mk m (Num 0) [] true cl (g_reply (absorb d a)) (Some (c :: T))
                  (g_packet (absorb d a)) seg)
              [] (Throw (RosException "UNREGISTEREDTAG")).
Proof.
  intros [Hfatal Hbang] Htag Hm.
  assert (E0 : seq_lit (Num 0) 0 = true) by reflexivity.
  unfold absorb in *.
  destruct a as [tg pk rp]. cbn [g_tag g_packet g_reply] in *.
  unfold at_rest.
  destruct (starts_with (lit ".tag=") d) eqn:Etag;
    [clear Hbang
    |destruct (starts_with (lit "!") d) eqn:Ebang;
     [specialize (Hbang eq_refl)|clear Hbang]];
    cbn [g_tag g_packet g_reply] in *.
  - injection Htag as Htag. run. reflexivity.
  - subst tg. discriminate Hbang.
  - subst tg. run. reflexivity.
Qed.


Lemma quiet_all_snoc ds d a :
  quiet_all (ds ++ [d]) a -> quiet_all ds a /\ quiet d (gather ds a).
Proof.
  revert a. induction ds as [|x ds IH]; intros a H.
  - destruct H as [H _]. split; [exact I | exact H].
  - destruct H as [Hx H]. destruct (IH _ H) as [H1 H2].
    split; [split; assumption | exact H2].
Qed.

Lemma gather_snoc ds d a : gather (ds ++ [d]) a = absorb d (gather ds a).
Proof. rewrite gather_app. reflexivity. Qed.

Lemma split_last {A} (l : list A) : l <> [] -> exists init x, l = init ++ [x].
Proof.
  intros H. destruct (exists_last H) as (init & x & E). exists init, x. exact E.
Qed.

(** One sentence in one chunk, none of its lines sending anything
    before the last: what the last line does decides. *)
Lemma sentence_outcome m a (ws : list Buffer) :
  ws <> [] -> Forall sized ws ->
  quiet_all (map Iconv.decode ws) a ->
  let target := gather (map Iconv.decode ws) a in
  (forall c T entry,
     g_tag target = Some (c :: T) -> m !! (c :: T) = Some entry ->
     loop (sentence ws) (at_rest m (Num 0) [] a None)
     = mkOutcome (mk m (Num 0) [] false [] None None [] None)
                 [Called (callback entry) (g_packet target)] (Return tt)) /\
  (forall c T,
     g_tag target = Some (c :: T) -> m !! (c :: T) = None ->
     loop (sentence ws) (at_rest m (Num 0) [] a None)
     = mkOutcome (mk m (Num 0) [] true [] (g_reply target) (Some (c :: T))
                     (g_packet target) None)
                 [] (Throw (RosException "UNREGISTEREDTAG"))) /\
  (truthy_str (g_tag target) = false ->
     loop (sentence ws) (at_rest m (Num 0) [] a None)
     = mkOutcome (at_rest m (Num 0) [] target None) [] (Return tt)).
Proof.
  intros Hne Hsized Hq target.
  destruct (split_last ws Hne) as (init & lastw & ->).
  apply Forall_app in Hsized as [Hinit Hlast].
  apply Forall_cons in Hlast as [Hlast _].
  rewrite map_app in Hq. cbn [map] in Hq.
  apply quiet_all_snoc in Hq as [Hqi Hql].
  assert (Ht : target = absorb (Iconv.decode lastw) (gather (map Iconv.decode init) a)).
  { unfold target. rewrite map_app. cbn [map]. apply gather_snoc. }
  rewrite sentence_quiet by assumption.
  repeat split.
  - intros c T entry Htag Hm. rewrite Ht in *.
    apply push_process_final with (c := c) (T := T); assumption.
  - intros c T Htag Hm. rewrite Ht in *.
    apply push_process_unregistered; assumption.
  - intros Htag. rewrite Ht in *.
    apply push_process_quiet; [exact Hql | right; exact Htag].
Qed.

(** The lines of a tagged reply, taken in by a Receiver that has no
    tag pending. *)
Lemma gather_tagged (a : gathered) (pre post : list Buffer) (T : Buffer) :
  truthy_str (g_tag a) = false ->
  reply_is (g_reply a) (lit "!fatal") = false ->
  Forall (fun w => starts_with (lit ".tag=") (Iconv.decode w) = false) (pre ++ post) ->
  Forall (fun w => starts_with (lit "!") (Iconv.decode w) = false) post ->
  Forall (fun w => Iconv.decode w <> lit "!fatal") pre ->
  let ds := map Iconv.decode (pre ++ (bytes ".tag=" ++ T) :: post) in
  quiet_all ds a /\
  g_tag (gather ds a) = Some (Iconv.decode T) /\
  g_packet (gather ds a) = g_packet a ++ map Iconv.decode (pre ++ post).
Proof.
  intros Htag Hreply Hnotag Hnobang Hnofatal ds.
  apply Forall_app in Hnotag as [Hnotag_pre Hnotag_post].
  set (tagd := lit ".tag=" ++ Iconv.decode T).
  assert (Hdec : ds = map Iconv.decode pre ++ tagd :: map Iconv.decode post).
  { unfold ds, tagd. rewrite map_app. cbn [map]. rewrite decode_app. reflexivity. }
  destruct (gather_before_tag (map Iconv.decode pre) a) as (Q1 & G1 & P1 & R1);
    [ | exact Htag | exact Hreply | ].
  { apply Forall_map. apply Forall_and. split; assumption. }
  set (a1 := gather (map Iconv.decode pre) a) in *.
  assert (Htagd : starts_with (lit ".tag=") tagd = true) by apply starts_with_app.
  assert (Ha2 : absorb tagd a1
                = mkGathered (Some (Iconv.decode T)) (g_packet a1) (g_reply a1)).
  { unfold absorb. rewrite Htagd. unfold tagd, substring.
    change 5%nat with (length (lit ".tag=")). rewrite drop_app_length. reflexivity. }
  assert (Qtag : quiet tagd a1).
  { split; [exact R1|]. intros Hbang. apply bang_not_tag in Hbang. congruence. }
  destruct (gather_after_tag (map Iconv.decode post) (absorb tagd a1))
    as (Q3 & G3 & P3); [ | rewrite Ha2; exact R1 | ].
  { apply Forall_map. apply Forall_and. split; assumption. }
  assert (Hsplit : gather ds a = gather (map Iconv.decode post) (absorb tagd a1)).
  { rewrite Hdec, gather_app. reflexivity. }
  split; [|split].
  - rewrite Hdec. apply quiet_all_app; [exact Q1|]. fold a1. split; [exact Qtag | exact Q3].
  - rewrite Hsplit, G3, Ha2. reflexivity.
  - rewrite Hsplit, P3, Ha2. cbn [g_packet]. rewrite P1, map_app, <- app_assoc.
    reflexivity.
Qed.

Lemma idle_at_rest (r : Receiver.t) :
  idle r ->
  r = at_rest (tags r) (Num 0) [] (mkGathered (currentTag r) [] (currentReply r)) None /\
  truthy_str (currentTag r) = false /\
  reply_is (currentReply r) (lit "!fatal") = false.
Proof.
  intros (H1 & H2 & H3 & H4 & H5 & H6 & H7 & H8).
  destruct r as [m dl pipe busy cl rp tg pk seg]. cbn in *. subst.
  repeat split; assumption.
Qed.

Lemma decode_nonempty (T : Buffer) : T <> [] -> exists c T', Iconv.decode T = c :: T'.
Proof. destruct T as [|b T]; [congruence|]. intros _. eexists _, _. reflexivity. Qed.

Lemma tagged_words_nonempty {A} (pre post : list A) x : pre ++ x :: post <> [].
Proof. destruct pre; discriminate. Qed.

(** A Receiver that is left with [processingSentencePipe] set takes
    every later chunk in and sends nothing. *)
Lemma feed_wedged (chunks : list Buffer) : forall r,
  processingSentencePipe r = true ->
  exists r', feed chunks r = (r', [], []) /\ same_reply r r'.
Proof.
  induction chunks as [|c rest IH]; intros r Hbusy.
  - exists r. split; [reflexivity | repeat split].
  - assert (Hc : exists r1, processRawData c r = mkOutcome r1 [] (Return tt) /\
                            same_reply r r1).
    { unfold processRawData. rewrite bind_this.
      destruct (lengthDescriptorSegment r) as [seg|] eqn:Hseg.
      - rewrite bind_bind, bind_assign, bind_ret.
        destruct (rawLoop_wedged (S (length (seg ++ c))) (seg ++ c)
                    (with_lengthDescriptorSegment None r)) as (r1 & H1 & H2);
          [lia | destruct r; exact Hbusy |].
        exists r1. split; [exact H1|]. destruct r; exact H2.
      - rewrite bind_ret.
        apply rawLoop_wedged; [lia | exact Hbusy]. }
    destruct Hc as (r1 & Hr1 & (S1 & S2 & S3 & S4 & S5)).
    destruct (IH r1) as (r' & Hr' & (T1 & T2 & T3 & T4 & T5)); [congruence|].
    exists r'. cbn [feed]. cbv zeta. rewrite Hr1. cbn [final emitted ending].
    rewrite Hr'. split; [reflexivity|]. repeat split; congruence.
Qed.

(** Once [processingSentencePipe] is left set (by the exception of
    [sendTagData], or by the [return] after the [fatal] event), the
    Receiver is silent: whatever arrives, in whatever chunks, no
    subscriber is called, nothing is thrown, and the flag, the tag map
    and the reply in progress stay as they are. *)
Theorem wedged_receiver_is_silent (chunks : list Buffer) (r : Receiver.t) :
  processingSentencePipe r = true ->
  exists r', feed chunks r = (r', [], []) /\ same_reply r r'.
Proof. apply feed_wedged. Qed.

Lemma wedged_receiver_is_silent_witness :
  let r1 := read (lit "1") 7%nat new in
  let unknown := sentence [bytes "!done"; bytes ".tag=9"] in
  let known := sentence [bytes "!done"; bytes ".tag=1"] in
  let r := final (processRawData unknown r1) in
  processingSentencePipe r = true /\
  exists r', feed [known; known] r = (r', [], []) /\ same_reply r r'.
Proof.
  cbv zeta. split; [reflexivity|].
  apply (wedged_receiver_is_silent
           [sentence [bytes "!done"; bytes ".tag=1"];
            sentence [bytes "!done"; bytes ".tag=1"]]
           (final (processRawData (sentence [bytes "!done"; bytes ".tag=9"])
                                  (read (lit "1") 7%nat new)))).
  reflexivity.
Defined.



(** A sentence without a [.tag=] word, in one chunk, is not delivered
    and not dropped: its words stay in [currentPacket]. They reach the
    subscriber of the next tagged reply, in front of the words of that
    reply. *)
Theorem untagged_sentence_joins_next_reply (r : Receiver.t)
    (ws pre post : list Buffer) (T : Buffer) (entry : Tag) :
  let reply := pre ++ (bytes ".tag=" ++ T) :: post in
  idle r ->
  ws <> [] ->
  Forall sized ws ->
  Forall (fun w => starts_with (lit ".tag=") (Iconv.decode w) = false) ws ->
  Forall (fun w => Iconv.decode w <> lit "!fatal") ws ->
  T <> [] ->
  tags r !! Iconv.decode T = Some entry ->
  Forall sized reply ->
  Forall (fun w => starts_with (lit ".tag=") (Iconv.decode w) = false) (pre ++ post) ->
  Forall (fun w => starts_with (lit "!") (Iconv.decode w) = false) post ->
  Forall (fun w => Iconv.decode w <> lit "!fatal") pre ->
  (exists r1, feed [sentence ws] r = (r1, [], []) /\
              currentPacket r1 = map Iconv.decode ws) /\
  feed [sentence ws; sentence reply] r
  = (cleared r,
     [Called (callback entry) (map Iconv.decode (ws ++ pre ++ post))], []).
Proof.
  intros reply Hidle Hne Hsized Hnotag Hnofatal HT Hsub Hrsized Hrnotag Hrnobang Hrnofatal.
  destruct (idle_at_rest r Hidle) as (Hr & Htag & Hreply).
  pose proof Hidle as (_ & _ & _ & _ & _ & _ & Hseg & _).
  set (a0 := mkGathered (currentTag r) [] (currentReply r)) in *.
  (* the untagged sentence *)
  destruct (gather_before_tag (map Iconv.decode ws) a0) as (Q1 & G1 & P1 & R1);
    [ | exact Htag | exact Hreply | ].
  { apply Forall_map. apply Forall_and. split; assumption. }
  set (a1 := gather (map Iconv.decode ws) a0) in *.
  destruct (sentence_outcome (tags r) a0 ws Hne Hsized Q1) as (_ & _ & Hkept).
  fold a1 in Hkept. rewrite G1 in Hkept. specialize (Hkept Htag).
  assert (H1 : processRawData (sentence ws) r
               = mkOutcome (at_rest (tags r) (Num 0) [] a1 None) [] (Return tt)).
  { rewrite processRawData_loop by exact Hseg. rewrite Hr at 1. exact Hkept. }
  (* the reply *)
  assert (Htag1 : truthy_str (g_tag a1) = false) by (rewrite G1; exact Htag).
  destruct (gather_tagged a1 pre post T Htag1 R1 Hrnotag Hrnobang Hrnofatal)
    as (Hq & Hg & Hp).
  destruct (decode_nonempty T HT) as (c & T' & ET).
  destruct (sentence_outcome (tags r) a1 reply (tagged_words_nonempty _ _ _) Hrsized Hq)
    as (Hdeliver & _ & _).
  fold reply in Hg, Hp. rewrite ET in Hg, Hsub.
  specialize (Hdeliver c T' entry Hg Hsub).
  assert (H2 : processRawData (sentence reply) (at_rest (tags r) (Num 0) [] a1 None)
               = mkOutcome (cleared r)
                   [Called (callback entry) (map Iconv.decode (ws ++ pre ++ post))]
                   (Return tt)).
  { rewrite processRawData_loop by reflexivity. rewrite Hdeliver, Hp, P1.
    cbn [a0 g_packet app]. rewrite <- map_app. reflexivity. }
  split.
  - exists (at_rest (tags r) (Num 0) [] a1 None). cbn [feed]. cbv zeta.
    rewrite H1. cbn [final emitted ending app]. split; [reflexivity|].
    cbn [at_rest currentPacket]. rewrite P1. reflexivity.
  - cbn [feed]. cbv zeta. rewrite H1. cbn [final emitted ending app].
    rewrite H2. reflexivity.
Qed.

Lemma untagged_sentence_joins_next_reply_witness :
  let r := read (lit "1") 7%nat new in
  let ws := [bytes "!done"; bytes "=ret=abc"] in
  let reply := [bytes "!re"] ++ (bytes ".tag=" ++ bytes "1") :: [bytes "=name=ether1"] in
  (exists r1, feed [sentence ws] r = (r1, [], []) /\
              currentPacket r1 = [lit "!done"; lit "=ret=abc"]) /\
  feed [sentence ws; sentence reply] r
  = (cleared r,
     [Called 7%nat [lit "!done"; lit "=ret=abc"; lit "!re"; lit "=name=ether1"]], []).
Proof.
  cbv zeta.
  apply (untagged_sentence_joins_next_reply (read (lit "1") 7%nat new)
           [bytes "!done"; bytes "=ret=abc"] [bytes "!re"] [bytes "=name=ether1"]
           (bytes "1") (mkTag (lit "1") 7%nat)).
  - repeat split; reflexivity.
  - discriminate.
  - repeat constructor; try discriminate; vm_compute; reflexivity.
  - repeat constructor.
  - repeat constructor; discriminate.
  - discriminate.
  - reflexivity.
  - repeat constructor; try discriminate; vm_compute; reflexivity.
  - repeat constructor.
  - repeat constructor.
  - repeat constructor; discriminate.
Defined.




(** ** Several replies in one chunk *)

Lemma prepend_prepend {A} e1 e2 (o : outcome Receiver.t event exn A) :
  prepend e1 (prepend e2 o) = prepend (e1 ++ e2) o.
Proof. unfold prepend. cbn. rewrite app_assoc. reflexivity. Qed.

(** Lines that send nothing, in front of others. *)
Lemma lines_quiet_app m lastl ds1 ds2 : forall a,
  quiet_all ds1 a ->
  lines_outcome m (ds1 ++ ds2) lastl a = lines_outcome m ds2 lastl (gather ds1 a) /\
  (registered_all m ds2 (gather ds1 a) -> registered_all m (ds1 ++ ds2) a).
Proof.
  induction ds1 as [|d ds1 IH]; intros a Hq; [split; [reflexivity | auto]|].
  destruct Hq as [[_ Hd] Hq].
  destruct (take_quiet m d a Hd) as (Ht & Hf & Hr).
  destruct (IH (absorb d a) Hq) as [IH1 IH2].
  cbn [app registered_all lines_outcome]. rewrite Ht, Hf, prepend_nil.
  split; [exact IH1 | intros H; split; [exact Hr | apply IH2; exact H]].
Qed.

Lemma gather_keeps_reply ds : forall a,
  Forall (fun d => starts_with (lit "!") d = false) ds ->
  g_reply (gather ds a) = g_reply a.
Proof.
  induction ds as [|d ds IH]; intros a Hds; [reflexivity|].
  apply Forall_cons in Hds as [Hd Hds].
  change (gather (d :: ds) a) with (gather ds (absorb d a)).
  rewrite IH by exact Hds. unfold absorb. rewrite Hd.
  destruct (starts_with (lit ".tag=") d); reflexivity.
Qed.

Lemma tag_not_bang d :
  starts_with (lit ".tag=") d = true -> starts_with (lit "!") d = false.
Proof.
  intros H. destruct (starts_with (lit "!") d) eqn:E; [|reflexivity].
  apply bang_not_tag in E. congruence.
Qed.

(** The reply word of a reply, from a Receiver between two replies:
    what was gathered before is sent, and the packet starts over. *)
Lemma bang_step m a evs d :
  ready m a evs ->
  starts_with (lit "!") d = true ->
  registered m d a /\ flushed m d a = evs /\
  exists tg, take d a = mkGathered tg [d] (Some d) /\ truthy_str tg = false.
Proof.
  intros Hready Hb.
  pose proof (bang_not_tag d Hb) as Hnt.
  unfold registered, flushed, take. rewrite Hb, Hnt.
  destruct Hready as [(Htag & Hpk & ->) | (rp & Hwf & -> & ->)].
  - rewrite (pending_falsy a Htag). repeat split.
    + intros _ T HT. discriminate.
    + exists (g_tag a). rewrite Hpk. split; [reflexivity | exact Htag].
  - destruct Hwf as (_ & _ & _ & _ & HT & Hsub).
    destruct (decode_nonempty _ HT) as (c & T' & ET).
    unfold pending_tag, gathered_reply. cbn [g_tag g_packet]. rewrite ET in *.
    rewrite Hsub. repeat split.
    + intros _ T0 [= <-]. rewrite Hsub. eauto.
    + exists None. split; reflexivity.
Qed.

(** The words of a reply after its reply word. *)
Lemma reply_body m (rp : reply) tg :
  well_formed m rp ->
  truthy_str tg = false ->
  let a := mkGathered tg [Iconv.decode (bang rp)] (Some (Iconv.decode (bang rp))) in
  let ds := map Iconv.decode (before rp ++ (bytes ".tag=" ++ tag rp) :: behind rp) in
  quiet_all ds a /\ gather ds a = gathered_reply rp.
Proof.
  intros (Hsized & Hb & Hnf & Hplain & HT & Hsub) Htg a ds.
  assert (Hp1 : Forall (fun w => starts_with (lit ".tag=") (Iconv.decode w) = false)
                       (before rp ++ behind rp))
    by (eapply Forall_impl; [exact Hplain | intros w [H _]; exact H]).
  assert (Hp2 : Forall (fun w => starts_with (lit "!") (Iconv.decode w) = false)
                       (before rp ++ behind rp))
    by (eapply Forall_impl; [exact Hplain | intros w [_ H]; exact H]).
  pose proof Hp2 as Hp2'. apply Forall_app in Hp2' as [Hb1 Hb2].
  destruct (gather_tagged a (before rp) (behind rp) (tag rp)) as (Hq & Hg & Hp);
    [ exact Htg | apply reply_is_other; exact Hnf | exact Hp1 | exact Hb2 | | ].
  { eapply Forall_impl; [exact Hb1|]. intros w Hw E. cbv beta in Hw.
    rewrite E in Hw. discriminate Hw. }
  fold ds in Hq, Hg, Hp. split; [exact Hq|].
  assert (Hr : g_reply (gather ds a) = g_reply a).
  { apply gather_keeps_reply. unfold ds. rewrite map_app. cbn [map].
    apply Forall_app. split; [apply Forall_map; exact Hb1|].
    constructor; [|apply Forall_map; exact Hb2].
    rewrite decode_app. apply tag_not_bang. apply starts_with_app. }
  destruct (gather ds a) as [g1 g2 g3]. cbn [g_tag g_packet g_reply] in *.
  subst. reflexivity.
Qed.

Lemma items_of_cons w w' ws : items_of (w :: w' :: ws) = (w, false) :: items_of (w' :: ws).
Proof. reflexivity. Qed.

Lemma items_of_fst ws : map fst (items_of ws) = ws.
Proof.
  induction ws as [|w ws IH]; [reflexivity|].
  destruct ws as [|w' ws]; [reflexivity|].
  rewrite items_of_cons. cbn [map fst]. rewrite IH. reflexivity.
Qed.

Lemma items_of_bytes ws : ws <> [] -> items_bytes (items_of ws) = sentence ws.
Proof.
  induction ws as [|w ws IH]; [congruence|]. intros _.
  destruct ws as [|w' ws].
  - cbn [items_of]. rewrite items_bytes_last. unfold sentence. cbn [map concat].
    rewrite app_nil_r. reflexivity.
  - rewrite items_of_cons.
    change (items_bytes ((w, false) :: items_of (w' :: ws)))
      with (item_bytes (w, false) ++ items_bytes (items_of (w' :: ws))).
    rewrite IH by discriminate. unfold item_bytes, sentence. cbn [fst snd map concat].
    rewrite app_nil_r, <- !app_assoc. reflexivity.
Qed.

Lemma sentences_items (ss : list (list Buffer)) :
  Forall (fun ws => ws <> []) ss ->
  concat (map sentence ss) = items_bytes (concat (map items_of ss)).
Proof.
  induction 1 as [|ws ss Hws _ IH]; [reflexivity|].
  cbn [map concat]. rewrite items_bytes_app, items_of_bytes, IH by exact Hws.
  reflexivity.
Qed.

(** A whole reply in front of other lines. *)
Lemma lines_reply m lastl (rp : reply) a evs rest :
  ready m a evs -> well_formed m rp ->
  lines_outcome m (map Iconv.decode (reply_words rp) ++ rest) lastl a
  = prepend evs (lines_outcome m rest lastl (gathered_reply rp)) /\
  (registered_all m rest (gathered_reply rp) ->
   registered_all m (map Iconv.decode (reply_words rp) ++ rest) a).
Proof.
  intros Hready Hwf.
  pose proof Hwf as (_ & Hb & _).
  destruct (bang_step m a evs _ Hready Hb) as (Hreg & Hfl & tg & Htake & Htg).
  destruct (reply_body m rp tg Hwf Htg) as [Hq Hg].
  unfold reply_words. cbn [map app lines_outcome registered_all].
  rewrite Hfl, Htake.
  destruct (lines_quiet_app m lastl _ rest _ Hq) as [H1 H2].
  rewrite Hg in H1, H2. rewrite H1.
  split; [reflexivity | intros H; split; [exact Hreg | apply H2; exact H]].
Qed.

(** Whole replies in front of other lines: every reply but the last
    has been sent when the others are through. *)
Lemma lines_replies m lastl rest (R : list reply) : forall a evs,
  ready m a evs -> Forall (well_formed m) R ->
  exists a' evs1 evs',
    lines_outcome m (concat (map (fun rp => map Iconv.decode (reply_words rp)) R) ++ rest)
                  lastl a
    = prepend evs1 (lines_outcome m rest lastl a') /\
    ready m a' evs' /\
    evs1 ++ evs' = evs ++ map reply_call R /\
    (registered_all m rest a' ->
     registered_all m
       (concat (map (fun rp => map Iconv.decode (reply_words rp)) R) ++ rest) a).
Proof.
  induction R as [|rp R IH]; intros a evs Hready HR.
  - exists a, [], evs. cbn [map concat app]. rewrite prepend_nil, app_nil_r.
    repeat split; auto.
  - apply Forall_cons in HR as [Hrp HR].
    cbn [map concat]. rewrite <- app_assoc.
    destruct (lines_reply m lastl rp a evs
                (concat (map (fun rp => map Iconv.decode (reply_words rp)) R) ++ rest)
                Hready Hrp) as [H1 H2].
    destruct (IH (gathered_reply rp) [reply_call rp]) as (a' & evs1 & evs' & I1 & I2 & I3 & I4);
      [right; exists rp; split; [exact Hrp | split; reflexivity] | exact HR |].
    exists a', (evs ++ evs1), evs'.
    rewrite H1, I1, prepend_prepend.
    split; [reflexivity|]. split; [exact I2|]. split.
    + rewrite <- app_assoc, I3. reflexivity.
    + intros Hrest. apply H2. apply I4. exact Hrest.
Qed.

(** The last reply of the chunk. *)
Lemma lines_last_reply m (rp : reply) a evs :
  ready m a evs -> well_formed m rp ->
  exists winit lastw,
    reply_words rp = (bang rp :: winit) ++ [lastw] /\
    lines_outcome m (map Iconv.decode (bang rp :: winit))
                  (last_line m (Iconv.decode lastw)) a
    = mkOutcome (mk m (Num 0) [] false [] None None [] None)
                (evs ++ [reply_call rp]) (Return tt) /\
    registered_all m (map Iconv.decode (bang rp :: winit)) a.
Proof.
  intros Hready Hwf.
  pose proof Hwf as (_ & Hb & _ & _ & HT & Hsub).
  destruct (bang_step m a evs _ Hready Hb) as (Hreg & Hfl & tg & Htake & Htg).
  destruct (reply_body m rp tg Hwf Htg) as [Hq Hg].
  destruct (split_last (before rp ++ (bytes ".tag=" ++ tag rp) :: behind rp)
              (tagged_words_nonempty _ _ _)) as (winit & lastw & E).
  exists winit, lastw. rewrite E in Hq, Hg.
  rewrite map_app in Hq, Hg. cbn [map] in Hq, Hg.
  apply quiet_all_snoc in Hq as [Hqi Hql]. rewrite gather_snoc in Hg.
  destruct (lines_quiet m (last_line m (Iconv.decode lastw)) _ _ Hqi) as [Hri Hout].
  destruct (decode_nonempty _ HT) as (c & T' & ET).
  split; [unfold reply_words; rewrite E; reflexivity|].
  cbn [map lines_outcome registered_all]. rewrite Hfl, Htake, Hout.
  cbn [lines_outcome]. unfold last_line.
  rewrite (push_process_final m [] _ None _ c T' (subscriber rp));
    [ | exact Hql | rewrite Hg; cbn [gathered_reply g_tag]; rewrite ET; reflexivity
      | rewrite <- ET; exact Hsub ].
  rewrite Hg. unfold prepend. cbn [final emitted ending gathered_reply g_packet].
  split; [reflexivity | split; assumption].
Qed.

Lemma items_lines (ss : list (list Buffer)) :
  map (fun it => Iconv.decode (fst it)) (concat (map items_of ss))
  = concat (map (map Iconv.decode) ss).
Proof.
  induction ss as [|ws ss IH]; [reflexivity|].
  cbn [map concat]. rewrite map_app, IH. f_equal.
  rewrite <- (items_of_fst ws) at 2. rewrite map_map. reflexivity.
Qed.

Lemma items_sized (ss : list (list Buffer)) :
  Forall (Forall sized) ss ->
  Forall (fun it => sized (fst it)) (concat (map items_of ss)).
Proof.
  induction 1 as [|ws ss Hws _ IH]; [constructor|].
  cbn [map concat]. apply Forall_app. split; [|exact IH].
  apply Forall_forall. intros it Hin. rewrite Forall_forall in Hws. apply Hws.
  rewrite <- (items_of_fst ws). apply (list_elem_of_fmap_2 fst). exact Hin.
Qed.

(** Whole replies in one chunk, from a Receiver between two replies. *)
Lemma replies_chunk m a0 evs (replies : list reply) :
  ready m a0 evs ->
  replies <> [] ->
  Forall (well_formed m) replies ->
  loop (concat (map (fun rp => sentence (reply_words rp)) replies))
       (at_rest m (Num 0) [] a0 None)
  = mkOutcome (mk m (Num 0) [] false [] None None [] None)
              (evs ++ map reply_call replies) (Return tt).
Proof.
  intros Hready Hne Hwf.
  destruct (split_last replies Hne) as (R & rpl & ->).
  apply Forall_app in Hwf as [HR Hl]. apply Forall_cons in Hl as [Hl _].
  (* the lines *)
  set (Ls := concat (map (fun rp => map Iconv.decode (reply_words rp)) R)).
  assert (Hlines : exists winit lastw,
             reply_words rpl = (bang rpl :: winit) ++ [lastw] /\
             lines_outcome m (Ls ++ map Iconv.decode (bang rpl :: winit))
                           (last_line m (Iconv.decode lastw)) a0
             = mkOutcome (mk m (Num 0) [] false [] None None [] None)
                         (evs ++ map reply_call (R ++ [rpl])) (Return tt) /\
             registered_all m (Ls ++ map Iconv.decode (bang rpl :: winit)) a0).
  { destruct (split_last (before rpl ++ (bytes ".tag=" ++ tag rpl) :: behind rpl)
                (tagged_words_nonempty _ _ _)) as (winit0 & lastw0 & E0).
    destruct (lines_replies m (last_line m (Iconv.decode lastw0))
                (map Iconv.decode (bang rpl :: winit0)) R a0 evs Hready HR)
      as (a' & evs1 & evs' & I1 & I2 & I3 & I4).
    destruct (lines_last_reply m rpl a' evs' I2 Hl) as (winit & lastw & E & O & Rg).
    assert (Hsame : winit = winit0 /\ lastw = lastw0).
    { unfold reply_words in E. rewrite E0 in E.
      change ((bang rpl :: winit) ++ [lastw]) with (bang rpl :: winit ++ [lastw]) in E.
      injection E as E. apply app_inj_tail in E as [-> ->]. split; reflexivity. }
    destruct Hsame as [-> ->].
    exists winit0, lastw0. split; [exact E|].
    fold Ls in I1, I4. rewrite I1, O. unfold prepend. cbn [final emitted ending].
    rewrite app_assoc, I3, map_app, <- app_assoc. cbn [app map].
    split; [reflexivity | apply I4; exact Rg]. }
  destruct Hlines as (winit & lastw & E & Hout & Hreg).
  (* the bytes *)
  set (its0 := concat (map items_of (map reply_words R))
               ++ map (fun w => (w, false)) (bang rpl :: winit)).
  assert (Hbytes : concat (map (fun rp => sentence (reply_words rp)) (R ++ [rpl]))
                   = items_bytes (its0 ++ [(lastw, true)])).
  { rewrite map_app, concat_app. cbn [map concat]. rewrite app_nil_r.
    rewrite <- (map_map reply_words sentence), sentences_items.
    - unfold its0. rewrite <- app_assoc, items_bytes_app, E, sentence_items.
      reflexivity.
    - apply Forall_map. apply Forall_forall. intros rp _. discriminate. }
  assert (Hl0 : map (fun it => Iconv.decode (fst it)) its0
                = Ls ++ map Iconv.decode (bang rpl :: winit)).
  { unfold its0, Ls. rewrite map_app, items_lines, !map_map. reflexivity. }
  assert (Hs0 : Forall (fun it => sized (fst it)) its0 /\ sized lastw).
  { destruct Hl as (Hsl & _). rewrite E in Hsl.
    apply Forall_app in Hsl as [Hsi Hsw]. apply Forall_cons in Hsw as [Hsw _].
    split; [|exact Hsw]. unfold its0. apply Forall_app. split.
    - apply items_sized. apply Forall_map.
      eapply Forall_impl; [exact HR|]. intros rp (H & _). exact H.
    - apply Forall_map. exact Hsi. }
  destruct Hs0 as [Hs0 Hsw].
  rewrite Hbytes, chunk_lines; [ | exact Hs0 | exact Hsw | rewrite Hl0; exact Hreg ].
  rewrite Hl0, Hout. reflexivity.
Qed.

(** Several tagged replies in one chunk: each of them reaches its own
    subscriber, once, with its own words, in the order of arrival; no
    exception is thrown and the Receiver is cleared. Every reply but
    the last is sent when the reply word of the next one is read; the
    last one is sent at the end of the chunk. *)
Theorem replies_in_one_chunk (r : Receiver.t) (replies : list reply) :
  idle r ->
  replies <> [] ->
  Forall (well_formed (tags r)) replies ->
  processRawData (concat (map (fun rp => sentence (reply_words rp)) replies)) r
  = mkOutcome (cleared r) (map reply_call replies) (Return tt).
Proof.
  intros Hidle Hne Hwf.
  destruct (idle_at_rest r Hidle) as (Hr & Htag & Hreply).
  pose proof Hidle as (_ & _ & _ & _ & _ & _ & Hseg & _).
  rewrite processRawData_loop by exact Hseg. rewrite Hr.
  apply (replies_chunk (tags r) _ [] replies); [|exact Hne|exact Hwf].
  left. repeat split. exact Htag.
Qed.

Lemma replies_in_one_chunk_witness :
  let r := read (lit "2") 8%nat (read (lit "1") 7%nat new) in
  let re := mkReply (bytes "!re") [bytes "=name=ether1"] (bytes "1") [bytes "=mtu=1500"]
                    (mkTag (lit "1") 7%nat) in
  let done := mkReply (bytes "!done") [] (bytes "2") [] (mkTag (lit "2") 8%nat) in
  processRawData (sentence (reply_words re) ++ sentence (reply_words re)
                  ++ sentence (reply_words done)) r
  = mkOutcome (cleared r)
              [Called 7%nat [lit "!re"; lit "=name=ether1"; lit "=mtu=1500"];
               Called 7%nat [lit "!re"; lit "=name=ether1"; lit "=mtu=1500"];
               Called 8%nat [lit "!done"]]
              (Return tt).
Proof.
  cbv zeta.
  pose proof (replies_in_one_chunk
                (read (lit "2") 8%nat (read (lit "1") 7%nat new))
                [mkReply (bytes "!re") [bytes "=name=ether1"] (bytes "1") [bytes "=mtu=1500"]
                         (mkTag (lit "1") 7%nat);
                 mkReply (bytes "!re") [bytes "=name=ether1"] (bytes "1") [bytes "=mtu=1500"]
                         (mkTag (lit "1") 7%nat);
                 mkReply (bytes "!done") [] (bytes "2") [] (mkTag (lit "2") 8%nat)]) as H.
  cbn [map concat] in H. rewrite app_nil_r in H. apply H.
  - repeat split; reflexivity.
  - discriminate.
  - repeat constructor; try discriminate; try (vm_compute; reflexivity).
Defined.

(** ** A reply whose terminator comes later *)

(** The chunk ends with the last byte of the word in progress: its
    line is pushed with [hadMore] set. *)
Lemma loop_open_last m a lastw :
  sized lastw ->
  registered m (Iconv.decode lastw) a ->
  loop lastw (at_rest m (Num (Z.of_nat (length lastw))) [] a None)
  = prepend (flushed m (Iconv.decode lastw) a)
            (settled m (take (Iconv.decode lastw) a)).
Proof.
  intros Hs Hreg. pose proof (sized_pos _ Hs) as Hpos.
  unfold loop. rewrite rawLoop_S.
  assert (Hlen : (0 <? length lastw)%nat = true) by (apply Nat.ltb_lt; exact Hpos).
  rewrite Hlen, bind_this. cbn [dataLength at_rest].
  assert (Hgt : gt0 (Num (Z.of_nat (length lastw))) = true) by (apply Z.ltb_lt; lia).
  assert (Hle : le (Num (Z.of_nat (length lastw))) (Num (Z.of_nat (length lastw))) = true)
    by (apply Z.leb_le; lia).
  rewrite Hgt. cbv zeta. rewrite Hle.
  rewrite !bind_assign, bind_this.
  cbn [at_rest with_dataLength with_currentLine dataLength currentLine sub
       tags sentencePipe processingSentencePipe currentReply currentTag
       currentPacket lengthDescriptorSegment app].
  rewrite Z.sub_diag.
  change (seq_lit (Num 0) 0) with true. cbn [when].
  assert (Hh : seq_lit (Num 0) (Z.of_nat (length lastw)) = false)
    by (apply Z.eqb_neq; lia).
  rewrite Hh. cbn [negb].
  rewrite <- bind_bind.
  erewrite bind_prepend.
  2:{ apply (push_process_take m (Num 0) (Iconv.decode lastw) a None). exact Hreg. }
  reflexivity.
Qed.

(** The loop from inside a word of a chunk that ends with the last
    byte of a word. *)
Lemma stream_open m lastw its0 : forall t (e : bool) a,
  sized t -> Forall (fun it => sized (fst it)) its0 -> sized lastw -> lastw <> [0] ->
  registered_all m (Iconv.decode t :: map (fun it => Iconv.decode (fst it)) its0
                    ++ [Iconv.decode lastw]) a ->
  loop (t ++ (if e then [0] else []) ++ items_bytes its0 ++ word lastw)
       (at_rest m (Num (Z.of_nat (length t))) [] a None)
  = lines_outcome m (Iconv.decode t :: map (fun it => Iconv.decode (fst it)) its0
                     ++ [Iconv.decode lastw])
                  (settled m) a.
Proof.
  induction its0 as [|[w e'] its0 IH]; intros t e a Ht Hits Hlast Hnz [Hreg Hrest].
  - cbn [app map] in *. destruct Hrest as [Hrl _].
    change (items_bytes [] ++ word lastw) with (word lastw).
    rewrite <- (app_nil_r (word lastw)).
    rewrite loop_next by (assumption || (right; assumption)).
    cbn [lines_outcome]. f_equal. rewrite app_nil_r.
    apply loop_open_last; assumption.
  - apply Forall_cons in Hits as [Hw Hits]. cbn [fst] in Hw.
    cbn [app map] in *.
    change (items_bytes ((w, e') :: its0))
      with (item_bytes (w, e') ++ items_bytes its0).
    unfold item_bytes. cbn [fst snd]. rewrite <- !app_assoc.
    rewrite loop_next; [ | assumption | assumption | | assumption ].
    2:{ left. intros E. apply (f_equal (@length Z)) in E.
        unfold word in E. rewrite !length_app in E.
        pose proof (sized_pos _ Hlast). cbn [length] in E. lia. }
    cbn [lines_outcome]. f_equal. apply IH; assumption.
Qed.

(** A chunk that ends with the last byte of a word, from the start of
    a word. *)
Lemma chunk_open m lastw its0 a :
  Forall (fun it => sized (fst it)) its0 -> sized lastw -> lastw <> [0] ->
  registered_all m (map (fun it => Iconv.decode (fst it)) its0 ++ [Iconv.decode lastw]) a ->
  loop (items_bytes its0 ++ word lastw) (at_rest m (Num 0) [] a None)
  = lines_outcome m (map (fun it => Iconv.decode (fst it)) its0 ++ [Iconv.decode lastw])
                  (settled m) a.
Proof.
  intros Hits Hlast Hnz Hreg.
  destruct its0 as [|[w e] its0].
  - cbn [app map lines_outcome] in *. destruct Hreg as [Hreg _].
    change (items_bytes [] ++ word lastw) with (word lastw). unfold word.
    pose proof (sized_pos _ Hlast). pose proof Hlast as [H1 H2].
    rewrite loop_A; [ | lia | intros [_ E]; congruence ].
    apply loop_open_last; assumption.
  - apply Forall_cons in Hits as [Hw Hits]. cbn [fst] in Hw.
    change (items_bytes ((w, e) :: its0))
      with (item_bytes (w, e) ++ items_bytes its0).
    unfold item_bytes. cbn [fst snd]. unfold word at 1. rewrite <- !app_assoc.
    pose proof (sized_pos _ Hw) as Hwpos. pose proof Hw as [H1 H2].
    rewrite loop_A; [ | lia | ].
    + apply (stream_open m lastw its0 w e a); assumption.
    + intros [_ E]. apply (f_equal (@length Z)) in E. rewrite !length_app in E.
      unfold word in E. rewrite !length_app in E.
      pose proof (sized_pos _ Hlast). cbn in E. lia.
Qed.

(** The terminator in a chunk of its own, between two words: nothing
    happens. *)
Lemma loop_terminator m a : loop [0] (at_rest m (Num 0) [] a None) = settled m a.
Proof. reflexivity. Qed.

(** A reply whose terminator arrives in a chunk of its own is held
    back, not lost. The reply is one whose last word is not the single
    byte 0 (such a word, at the end of a chunk, is taken for padding
    and dropped, and the reply is sent at once). When its words have
    arrived, and when the terminator has arrived, nothing is sent: the
    Receiver keeps the packet and the tag. The reply is sent when the
    reply word of the next reply is read, in front of the replies of
    that chunk. *)
Theorem held_reply_goes_with_next (r : Receiver.t) (rp : reply) (replies : list reply) :
  idle r ->
  well_formed (tags r) rp ->
  last (reply_words rp) <> Some [0] ->
  replies <> [] ->
  Forall (well_formed (tags r)) replies ->
  let held := concat (map word (reply_words rp)) in
  let next := concat (map (fun rp => sentence (reply_words rp)) replies) in
  (exists r1, feed [held; [0]] r = (r1, [], []) /\
              currentPacket r1 = reply_packet rp /\
              currentTag r1 = Some (Iconv.decode (tag rp))) /\
  feed [held; [0]; next] r
  = (cleared r, reply_call rp :: map reply_call replies, []).
Proof.
  intros Hidle Hrp Hnz Hne Hwf held next.
  destruct (idle_at_rest r Hidle) as (Hr & Htag & Hreply).
  pose proof Hidle as (_ & _ & _ & _ & _ & _ & Hseg & _).
  set (m := tags r) in *.
  set (a0 := mkGathered (currentTag r) [] (currentReply r)) in *.
  assert (Hready : ready m a0 []) by (left; repeat split; exact Htag).
  (* the words of the reply *)
  assert (H1 : processRawData held r = settled m (gathered_reply rp)).
  { rewrite processRawData_loop by exact Hseg. rewrite Hr. fold m a0.
    destruct (split_last (reply_words rp) ltac:(discriminate)) as (init & lastw & E).
    destruct (lines_reply m (settled m) rp a0 [] [] Hready Hrp) as [Hout Hreg].
    rewrite app_nil_r in Hout, Hreg. specialize (Hreg I).
    pose proof Hrp as (Hsized & _). rewrite E in Hsized, Hnz, Hout, Hreg.
    apply Forall_app in Hsized as [Hsi Hsl]. apply Forall_cons in Hsl as [Hsl _].
    rewrite last_snoc in Hnz.
    rewrite map_app in Hout, Hreg. cbn [map] in Hout, Hreg.
    unfold held. rewrite E, map_app, concat_app. cbn [map concat].
    rewrite app_nil_r, <- items_bytes_plain.
    rewrite chunk_open.
    - rewrite map_map.
      change (fun x : list Z => Iconv.decode (fst (x, false))) with Iconv.decode.
      rewrite Hout. cbn [lines_outcome]. apply prepend_nil.
    - apply Forall_map. exact Hsi.
    - exact Hsl.
    - congruence.
    - rewrite map_map.
      change (fun x : list Z => Iconv.decode (fst (x, false))) with Iconv.decode.
      exact Hreg. }
  assert (H2 : processRawData [0] (at_rest m (Num 0) [] (gathered_reply rp) None)
               = settled m (gathered_reply rp)).
  { rewrite processRawData_loop by reflexivity. apply loop_terminator. }
  assert (H3 : processRawData next (at_rest m (Num 0) [] (gathered_reply rp) None)
               = mkOutcome (cleared r) (reply_call rp :: map reply_call replies)
                           (Return tt)).
  { rewrite processRawData_loop by reflexivity.
    apply (replies_chunk m (gathered_reply rp) [reply_call rp] replies);
      [|exact Hne|exact Hwf].
    right. exists rp. split; [exact Hrp | split; reflexivity]. }
  split.
  - exists (at_rest m (Num 0) [] (gathered_reply rp) None).
    cbn [feed]. cbv zeta. rewrite H1. cbn [settled final emitted ending app].
    rewrite H2. cbn [settled final emitted ending app].
    repeat split.
  - cbn [feed]. cbv zeta. rewrite H1. cbn [settled final emitted ending app].
    rewrite H2. cbn [settled final emitted ending app].
    rewrite H3. cbn [final emitted ending app]. rewrite app_nil_r. reflexivity.
Qed.

Lemma held_reply_goes_with_next_witness :
  let r := read (lit "2") 8%nat (read (lit "1") 7%nat new) in
  let re := mkReply (bytes "!re") [bytes "=name=ether1"] (bytes "1") []
                    (mkTag (lit "1") 7%nat) in
  let done := mkReply (bytes "!done") [] (bytes "2") [] (mkTag (lit "2") 8%nat) in
  let held := concat (map word (reply_words re)) in
  (exists r1, feed [held; [0]] r = (r1, [], []) /\
              currentPacket r1 = [lit "!re"; lit "=name=ether1"] /\
              currentTag r1 = Some (lit "1")) /\
  feed [held; [0]; sentence (reply_words done)] r
  = (cleared r,
     [Called 7%nat [lit "!re"; lit "=name=ether1"]; Called 8%nat [lit "!done"]], []).
Proof.
  cbv zeta.
  pose proof (held_reply_goes_with_next
                (read (lit "2") 8%nat (read (lit "1") 7%nat new))
                (mkReply (bytes "!re") [bytes "=name=ether1"] (bytes "1") []
                         (mkTag (lit "1") 7%nat))
                [mkReply (bytes "!done") [] (bytes "2") [] (mkTag (lit "2") 8%nat)]) as H.
  cbn [map concat] in H. rewrite app_nil_r in H. apply H.
  - repeat split; reflexivity.
  - repeat constructor; try discriminate; try (vm_compute; reflexivity).
  - discriminate.
  - discriminate.
  - repeat constructor; try discriminate; try (vm_compute; reflexivity).
Defined.

(** ** The tag map *)

(** [stop] undoes [read]: on a tag that has no subscriber, [read]
    makes the entry that a lookup finds, [stop] after it leaves the
    Receiver as it was, and [stop] alone changes nothing (and throws
    nothing). *)
Theorem read_then_stop (r : Receiver.t) (tag : str) (cb : Callback) :
  tags r !! tag = None ->
  tags (read tag cb r) !! tag = Some (mkTag tag cb) /\
  stop tag (read tag cb r) = r /\
  stop tag r = r.
Proof.
  intros H. unfold read, stop, with_tags. destruct r as [m dl pipe busy cl rp tg pk seg].
  cbn [Receiver.tags dataLength sentencePipe processingSentencePipe currentLine
       currentReply currentTag currentPacket lengthDescriptorSegment] in *.
  split; [apply lookup_insert_eq|]. split; f_equal.
  - rewrite delete_insert_eq. apply delete_id. exact H.
  - apply delete_id. exact H.
Qed.

Lemma read_then_stop_witness :
  tags (read (lit "1") 7%nat new) !! lit "1" = Some (mkTag (lit "1") 7%nat) /\
  stop (lit "1") (read (lit "1") 7%nat new) = new /\
  stop (lit "1") new = new.
Proof. apply (read_then_stop new (lit "1") 7%nat). reflexivity. Defined.

End ReceiverChunks.

(** ** The life of a Connector *)

Section ConnectorLifeFacts.
Import JS Eff Connector ConnectorLife.
Local Open Scope Z_scope.

#[local] Arguments Receiver.processRawData : simpl never.

Lemma on_socket_true what c :
  socket c = true -> on_socket what c = mkOutcome c [what] (Return tt).
Proof. intros H. unfold on_socket, bind, this, emit. cbn. rewrite H. reflexivity. Qed.

Lemma on_socket_false what c :
  socket c = false -> on_socket what c = mkOutcome c [] (Throw TypeError).
Proof. intros H. unfold on_socket, bind, this, throw. cbn. rewrite H. reflexivity. Qed.

Lemma write_outcome (data : list str) (c : Connector.t) :
  write data c
  = if socket c
    then mkOutcome c (map (fun w => TransmitterWrite (Some w)) data
                      ++ [TransmitterWrite None]) (Return tt)
    else mkOutcome c [] (Throw TypeError).
Proof.
  unfold write. destruct (socket c) eqn:Hs.
  - induction data as [|w data IH].
    + rewrite bind_ret. apply on_socket_true. exact Hs.
    + rewrite bind_bind.
      rewrite (bind_outcome _ _ c c c tt tt _ _
                 (on_socket_true (TransmitterWrite (Some w)) c Hs) IH).
      reflexivity.
  - destruct data as [|w data].
    + rewrite bind_ret. apply on_socket_false. exact Hs.
    + rewrite bind_bind. unfold bind at 1. rewrite on_socket_false by exact Hs.
      reflexivity.
Qed.

(** [write] hands every word of the sentence to the Transmitter, in
    order, and then [null], which ends the sentence; it changes no
    field of the Connector. Before [connect()] there is no
    Transmitter: the call throws a [TypeError] and nothing is
    written, whatever the sentence. *)
Theorem write_words (data : list str) (c : Connector.t) :
  write data c
  = if socket c
    then mkOutcome c (map (fun w => TransmitterWrite (Some w)) data
                      ++ [TransmitterWrite None]) (Return tt)
    else mkOutcome c [] (Throw TypeError).
Proof. apply write_outcome. Qed.

Lemma run_cons {S E X} (call : Eff.M S E X unit) rest s :
  Calls.run (call :: rest) s
  = (fst (Calls.run rest (final (call s))),
     emitted (call s) ++ snd (Calls.run rest (final (call s)))).
Proof. cbn [Calls.run]. destruct (Calls.run rest (final (call s))). reflexivity. Qed.

Lemma count_app (p : call -> bool) l1 l2 :
  length (List.filter p (l1 ++ l2))
  = (length (List.filter p l1) + length (List.filter p l2))%nat.
Proof. rewrite List.filter_app, length_app. reflexivity. Qed.

Lemma filter_from_receiver (p : call -> bool) l :
  (forall ev, p (FromReceiver ev) = false) ->
  List.filter p (map FromReceiver l) = [].
Proof.
  intros H. induction l as [|ev l IH]; [reflexivity|].
  cbn [map List.filter]. rewrite H. exact IH.
Qed.

Ltac crunch c :=
  destruct c as [cd cg cl h tmo p tl sk rc ls];
  unfold connect, close, onConnect, onEnd, onError, onTimeout, destroy,
    read, stopRead, onData, on, emit_event, listens, tls_connect,
    socket_setTimeout, socket_connect, checked, on_socket, when, bind, assign,
    this, ret, emit, throw;
  cbn;
  repeat (match goal with
          | |- context [if ?b then _ else _] => is_var b; destruct b
          | |- context [negb ?b] => is_var b; destruct b
          | |- context [match ?x with Some _ => _ | None => _ end] => is_var x; destruct x
          | |- context [tls_truthy ?x] => destruct (tls_truthy x)
          | |- context [valid_port ?x] => destruct (valid_port x)
          | |- context [valid_msecs ?x] => destruct (valid_msecs x)
          | |- context [existsb ?f ?x] => destruct (existsb f x)
          | |- context [match ?x with Num _ => _ | NaN => _ | Undefined => _ end] =>
              is_var x; destruct x
          end; cbn).

Lemma filter_writes (p : call -> bool) (data : list str) :
  (forall l, p (TransmitterWrite l) = false) ->
  List.filter p (map (fun w => TransmitterWrite (Some w)) data ++ [TransmitterWrite None])
  = [].
Proof.
  intros H. rewrite List.filter_app. cbn [List.filter]. rewrite H.
  induction data as [|w data IH]; [reflexivity|].
  cbn [map List.filter]. rewrite H. exact IH.
Qed.

Lemma step_sockets (o : op) (c : Connector.t) :
  (sockets_opened (emitted (step o c)) + sockets_left (final (step o c))
   <= sockets_left c)%nat.
Proof.
  unfold sockets_opened, sockets_left.
  destruct o; cbn [step].
  2:{ rewrite write_outcome. destruct (socket c); cbn [final emitted].
      - rewrite filter_writes by reflexivity. cbn. lia.
      - cbn. lia. }
  all: crunch c; rewrite ?filter_from_receiver by reflexivity; cbn;
    repeat match goal with |- context [if ?b || _ then _ else _] => destruct b; cbn end;
    repeat match goal with |- context [if ?b then _ else _] => destruct b; cbn end;
    lia.
Qed.

Lemma life_sockets (ops : list op) : forall c,
  (sockets_opened (snd (life ops c)) <= sockets_left c)%nat.
Proof.
  unfold life. induction ops as [|o ops IH]; intros c; [cbn; lia|].
  change (map step (o :: ops)) with (step o :: map step ops).
  rewrite (run_cons (step o)). cbn [snd].
  unfold sockets_opened in *. rewrite count_app.
  pose proof (step_sockets o c) as H. unfold sockets_opened in H.
  specialize (IH (final (step o c))). lia.
Qed.

(** A Connector creates at most one socket in its life. Whatever its
    owner calls and whatever its socket reports, in whatever order,
    [connect()] creates a socket the first time and does nothing
    afterwards, also when the connection has ended, failed or was
    destroyed in between: the flags [connected] and [connecting] are
    never reset. *)
Theorem at_most_one_socket (options : Options) (ops : list op) :
  (sockets_opened (snd (life ops (constructor options))) <= 1)%nat /\
  sockets_opened (snd (life (Connect :: ops) (constructor options))) = 1%nat.
Proof.
  split.
  - etransitivity; [apply life_sockets|]. unfold sockets_left.
    destruct (_ || _); lia.
  - unfold life. change (map step (Connect :: ops)) with (step Connect :: map step ops).
    rewrite (run_cons (step Connect)). cbn [snd step].
    unfold sockets_opened. rewrite count_app.
    assert (H1 : length (List.filter opens (emitted (connect (constructor options)))) = 1%nat
                 /\ sockets_left (final (connect (constructor options))) = 0%nat).
    { unfold constructor, sockets_left.
      destruct options as [oh ot op otls].
      cbn [opt_host opt_timeout opt_port opt_tls].
      destruct (truthy ot), (truthy op), otls as [| [] | |]; cbn;
        unfold tls_connect, socket_setTimeout, socket_connect, checked, bind,
          emit, ret, throw, assign, this; cbn;
        repeat (match goal with
                | |- context [valid_port ?x] => destruct (valid_port x)
                | |- context [valid_msecs ?x] => destruct (valid_msecs x)
                | |- context [match ?x with Num _ => _ | NaN => _ | Undefined => _ end] =>
                    destruct x
                end; cbn);
        split; reflexivity. }
    destruct H1 as [H1 H2]. rewrite H1.
    pose proof (life_sockets ops (final (connect (constructor options)))) as H.
    unfold life, sockets_opened in H. lia.
Qed.

Lemma step_ends (o : op) (c : Connector.t) :
  (sockets_ended (emitted (step o c)) + ends_left (final (step o c))
   <= ends_left c)%nat.
Proof.
  unfold sockets_ended, ends_left.
  destruct o; cbn [step].
  2:{ rewrite write_outcome. destruct (socket c); cbn [final emitted].
      - rewrite filter_writes by reflexivity. cbn. lia.
      - cbn. lia. }
  all: crunch c; rewrite ?filter_from_receiver by reflexivity; cbn;
    repeat match goal with |- context [if ?b then _ else _] => destruct b; cbn end;
    lia.
Qed.

Lemma life_ends (ops : list op) : forall c,
  (sockets_ended (snd (life ops c)) <= ends_left c)%nat.
Proof.
  unfold life. induction ops as [|o ops IH]; intros c; [cbn; lia|].
  change (map step (o :: ops)) with (step o :: map step ops).
  rewrite (run_cons (step o)). cbn [snd].
  unfold sockets_ended in *. rewrite count_app.
  pose proof (step_ends o c) as H. unfold sockets_ended in H.
  specialize (IH (final (step o c))). lia.
Qed.

(** [close()] ends the socket at most once in the life of a Connector,
    whatever else happens: [closing] is never reset. And [close()]
    before [connect()] throws a [TypeError], since there is no socket
    yet, but only after it has set [closing]: from then on no
    [close()] ever ends the socket that a later [connect()] creates. *)
Theorem close_ends_once (options : Options) (c : Connector.t) (ops : list op) :
  (sockets_ended (snd (life ops c)) <= 1)%nat /\
  ending (close (constructor options)) = Throw TypeError /\
  sockets_ended (snd (life (Close :: ops) (constructor options))) = 0%nat.
Proof.
  assert (Hc : close (constructor options)
               = mkOutcome (with_closing true (constructor options)) []
                           (Throw TypeError)).
  { unfold constructor. destruct options as [oh ot op otls].
    cbn [opt_host opt_timeout opt_port opt_tls].
    destruct (truthy ot), (truthy op), otls as [| [] | |]; reflexivity. }
  split; [|split].
  - etransitivity; [apply life_ends|]. unfold ends_left. destruct (closing c); lia.
  - rewrite Hc. reflexivity.
  - unfold life. change (map step (Close :: ops)) with (step Close :: map step ops).
    rewrite (run_cons (step Close)). cbn [snd step]. rewrite Hc.
    cbn [final emitted app].
    pose proof (life_ends ops (with_closing true (constructor options))) as H.
    unfold life, ends_left in H. cbn [with_closing closing] in H. lia.
Qed.

Lemma step_keeps_subscription (o : op) (c : Connector.t) (r : Receiver.t) (tag : str) :
  receiver c = Some r ->
  connected c || connecting c = true ->
  touches tag o = false ->
  exists r1, receiver (final (step o c)) = Some r1 /\
             Receiver.tags r1 !! tag = Receiver.tags r !! tag /\
             connected (final (step o c)) || connecting (final (step o c)) = true.
Proof.
  intros Hr Hflag Htouch.
  destruct o; cbn [step touches] in *.
  2:{ rewrite write_outcome. exists r. destruct (socket c); cbn [final]; auto. }
  all: try (apply bool_decide_eq_false in Htouch).
  all: destruct c as [cd cg cl h tmo p tl sk rc ls]; cbn [receiver connected connecting] in *;
    subst rc;
    unfold connect, close, onConnect, onEnd, onError, onTimeout, destroy,
      read, stopRead, onData, on, emit_event, listens, on_socket, when, bind,
      assign, this, ret, emit, throw;
    cbn.
  - (* connect *)
    destruct cd, cg; try discriminate Hflag; cbn; exists r; auto.
  - (* read *)
    eexists. split; [reflexivity|]. split; [|exact Hflag].
    unfold Receiver.read. cbn. apply lookup_insert_ne. exact Htouch.
  - (* stopRead *)
    eexists. split; [reflexivity|]. split; [|exact Hflag].
    unfold Receiver.stop. cbn. apply lookup_delete_ne. exact Htouch.
  - (* close *)
    destruct cl, sk; cbn; exists r; auto.
  - (* destroy *)
    destruct sk; cbn; exists r; auto.
  - (* onConnect *)
    destruct sk; cbn; exists r; repeat split; auto using orb_true_r.
  - (* onEnd *)
    destruct sk; cbn; exists r; auto.
  - (* onError *)
    destruct (existsb _ ls), sk; cbn; exists r; auto.
  - (* onTimeout *)
    destruct sk; cbn; exists r; auto.
  - (* onData *)
    eexists. split; [reflexivity|]. split; [|exact Hflag].
    rewrite processRawData_keeps_tags. reflexivity.
  - (* on *)
    exists r. auto.
Qed.

(** A subscription made through [read] stays until [stopRead] takes
    it away. Once [connect()] has been called, nothing else that
    happens to the Connector touches it: no data (whatever the
    Receiver does with it: a [!done], a [!trap] or a [!fatal] reply,
    an exception), no error, timeout or end of the socket, no
    [close()] or [destroy()], and no subscription or unsubscription of
    another tag. *)
Theorem subscription_stays (c : Connector.t) (r : Receiver.t) (tag : str)
    (ops : list op) :
  receiver c = Some r ->
  connected c || connecting c = true ->
  Forall (fun o => touches tag o = false) ops ->
  exists r', receiver (fst (life ops c)) = Some r' /\
             Receiver.tags r' !! tag = Receiver.tags r !! tag.
Proof.
  revert c r. unfold life. induction ops as [|o ops IH]; intros c r Hr Hflag Hops.
  - exists r. split; [exact Hr | reflexivity].
  - apply Forall_cons in Hops as [Ho Hops].
    destruct (step_keeps_subscription o c r tag Hr Hflag Ho) as (r1 & H1 & H2 & H3).
    destruct (IH (final (step o c)) r1 H1 H3 Hops) as (r' & H4 & H5).
    exists r'. change (map step (o :: ops)) with (step o :: map step ops).
    rewrite (run_cons (step o)). cbn [fst].
    split; [exact H4 | congruence].
Qed.

Lemma subscription_stays_witness :
  let c := connected_with_subscriber in
  let ops := [OnData (Wire.sentence [Wire.bytes "!done"; Wire.bytes ".tag=1"]);
              OnError "ECONNRESET"; Read (lit "2") 8%nat; StopRead (lit "2");
              OnTimeout; OnEnd; Close; Destroy; Connect] in
  exists r', receiver (fst (life ops c)) = Some r' /\
             Receiver.tags r' !! lit "1" = Some (Receiver.mkTag (lit "1") 7%nat).
Proof.
  cbv zeta.
  apply (subscription_stays connected_with_subscriber
           (Receiver.read (lit "1") 7%nat Receiver.new) (lit "1")
           [OnData (Wire.sentence [Wire.bytes "!done"; Wire.bytes ".tag=1"]);
            OnError "ECONNRESET"; Read (lit "2") 8%nat; StopRead (lit "2");
            OnTimeout; OnEnd; Close; Destroy; Connect]).
  - reflexivity.
  - reflexivity.
  - repeat constructor.
Defined.

End ConnectorLifeFacts.

(** ** The stream's batches and its pause *)

Section RStreamLife.
Import JS Eff RStream.

Ltac methods :=
  unfold onStreamPacket, onStream, sectionTimeout, sendData, pause, pause_then,
    resume, start, stop, stop_then, onClose, onDone, debounce_cancel, debounce_run,
    prepareDebounceEmptyData, section_changed, emit_event, when, bind, assign, this,
    ret, emit, throw.






(** A row of another section. The rows that wait are handed to the
    consumer at once, and the new row takes their place; but the
    timer that was set for it is cleared with theirs: no timer is
    pending afterwards, so the new row is handed over only when
    another row arrives. *)
Theorem section_change_flushes (s : t) (cb : Callback) (c : Z) (sec : str)
    (fields : list (str * str)) :
  callback s = Some cb ->
  currentSectionPacket s <> [] ->
  currentSection s <> Some (c :: sec) ->
  let p := Row (Some (c :: sec)) fields in
  let o := onStream p s in
  emitted o = [Emit "data" (OnePacket p); Invoke cb None (Batch (currentSectionPacket s))] /\
  ending o = Return tt /\
  currentSectionPacket (final o) = [p] /\
  currentSection (final o) = Some (c :: sec) /\
  sectionPacketSendingTimeout (final o) = false /\
  sectionTimeout (final o) = mkOutcome (final o) [] (Return tt).
Proof.
  intros Hcb Hwait Hsec p o. unfold o, p.
  destruct s as [sd st pg pd sg sp tr cs fs csp ch ps cbk db tm ls].
  cbn [callback currentSectionPacket currentSection] in *. subst cbk.
  destruct csp as [|q csp]; [congruence|].
  methods. cbn.
  rewrite bool_decide_eq_false_2 by congruence.
  cbn. repeat split.
Qed.

Lemma section_change_flushes_witness :
  let s0 := constructor (mkChannel (lit "a1")) [lit "/interface/print"] (Some 3%nat) in
  let p1 := Row (Some (lit "0")) [(lit "name", lit "ether1")] in
  let p := Row (Some (lit "1")) [(lit "name", lit "ether2")] in
  let s := final (onStream p1 s0) in
  let o := onStream p s in
  emitted o = [Emit "data" (OnePacket p); Invoke 3%nat None (Batch [p1])] /\
  ending o = Return tt /\
  currentSectionPacket (final o) = [p] /\
  currentSection (final o) = Some (lit "1") /\
  sectionPacketSendingTimeout (final o) = false /\
  sectionTimeout (final o) = mkOutcome (final o) [] (Return tt).
Proof.
  cbv zeta.
  apply (section_change_flushes
           (final (onStream (Row (Some (lit "0")) [(lit "name", lit "ether1")])
                     (constructor (mkChannel (lit "a1")) [lit "/interface/print"]
                                  (Some 3%nat))))
           3%nat 49%Z [] [(lit "name", lit "ether2")]).
  - reflexivity.
  - discriminate.
  - discriminate.
Defined.

(** A stream can be paused once. [pause()] writes [/cancel] and, when
    the write has resolved, leaves the stream paused; [resume()]
    starts it again but leaves [paused] set. From then on [pause()]
    resolves at once and does nothing, while the stream goes on, and
    [stop()] takes the stream for a paused one: it closes the channel
    and writes no [/cancel]. *)
Theorem pause_works_once (s : t) :
  streaming s = true -> stopped s = false -> stopping s = false ->
  pausing s = false -> paused s = false ->
  let cancel := CancelWrite [lit "/cancel"; lit "=tag=" ++ Id (channel s)] in
  let s1 := final (pause s) in
  let s2 := final (stop_then s1) in
  let s3 := final (pause_then s2) in
  let s4 := final (resume s3) in
  emitted (pause s) = [cancel] /\ ending (pause s) = Return Pending /\
  paused s3 = true /\ streaming s3 = false /\
  ending (resume s3) = Return Resolved /\
  In (ChannelWrite (params s)) (emitted (resume s3)) /\
  streaming s4 = true /\ paused s4 = true /\
  pause s4 = mkOutcome s4 [] (Return Resolved) /\
  emitted (stop false s4) = [ChannelClose] /\
  ending (stop false s4) = Return Resolved.
Proof.
  intros H1 H2 H3 H4 H5.
  destruct s as [sd st pg pd sg sp tr cs fs csp ch ps cbk db tm ls].
  cbn [streaming stopped stopping pausing paused] in *. subst.
  destruct db as [d|], sd; methods; cbn; repeat split; auto 12.
Qed.

Lemma pause_works_once_witness :
  let s := final (start (constructor (mkChannel (lit "a1")) [lit "/ip/address/listen"]
                                     (Some 3%nat))) in
  let cancel := CancelWrite [lit "/cancel"; lit "=tag=a1"] in
  let s1 := final (pause s) in
  let s2 := final (stop_then s1) in
  let s3 := final (pause_then s2) in
  let s4 := final (resume s3) in
  emitted (pause s) = [cancel] /\ ending (pause s) = Return Pending /\
  paused s3 = true /\ streaming s3 = false /\
  ending (resume s3) = Return Resolved /\
  In (ChannelWrite [lit "/ip/address/listen"]) (emitted (resume s3)) /\
  streaming s4 = true /\ paused s4 = true /\
  pause s4 = mkOutcome s4 [] (Return Resolved) /\
  emitted (stop false s4) = [ChannelClose] /\
  ending (stop false s4) = Return Resolved.
Proof.
  cbv zeta.
  apply (pause_works_once
           (final (start (constructor (mkChannel (lit "a1")) [lit "/ip/address/listen"]
                                      (Some 3%nat)))));
    reflexivity.
Defined.

(** [stopped] is not final. The listener that [start()] puts on the
    channel's [close] event clears the flag; when the channel has
    closed, a stream that was stopped is taken for one that is not:
    [resume()] resolves, registers the listeners and writes the
    command again. *)
Theorem close_event_clears_stopped (s : t) :
  stopped s = true -> stopping s = false -> streaming s = false ->
  let s' := final (onClose s) in
  stopped s' = false /\
  ending (resume s') = Return Resolved /\
  In (ChannelWrite (params s)) (emitted (resume s')) /\
  streaming (final (resume s')) = true.
Proof.
  intros H1 H2 H3.
  destruct s as [sd st pg pd sg sp tr cs fs csp ch ps cbk db tm ls].
  cbn [streaming stopped stopping] in *. subst.
  destruct fs, pg, pd, tr, sd; methods; cbn; repeat split; auto 12.
Qed.

Lemma close_event_clears_stopped_witness :
  let s := stopped_stream in
  let s' := final (onClose s) in
  stopped s = true /\
  stopped s' = false /\
  ending (resume s') = Return Resolved /\
  In (ChannelWrite [lit "/ip/address/listen"]) (emitted (resume s')) /\
  streaming (final (resume s')) = true.
Proof.
  cbv zeta. split; [reflexivity|].
  apply (close_event_clears_stopped stopped_stream); reflexivity.
Defined.

(** The end of a trapped stream. A trap other than [interrupted]
    leaves the stream stopped and trapped, whether or not the trap
    could be handed over; the [done] reply that follows it then closes
    the channel. The channel's [close] event makes the stream emit
    [close] without [done], where a stream that was not trapped emits
    [done] and then [close]; a stream that is pausing or paused, and
    that its owner has not stopped, emits neither. On a stream that is
    not stopped the [done] reply does nothing. *)
Theorem trapped_stream_ends_without_done (s : t) (message : str) :
  message <> lit "interrupted" ->
  let s1 := final (onTrap message s) in
  let announces := forcelyStop s || (negb (pausing s) && negb (paused s)) in
  stopped s1 = true /\ trapped s1 = true /\
  onDone s1 = mkOutcome s1 [ChannelClose] (Return tt) /\
  emitted (onClose s1) = (if announces then [Emit "close" Null] else []) /\
  (trapped s = false ->
   emitted (onClose s)
   = if announces then [Emit "done" Null; Emit "close" Null] else []) /\
  (stopped s = false -> onDone s = mkOutcome s [] (Return tt)).
Proof.
  intros Hm.
  destruct s as [sd st pg pd sg sp tr cs fs csp ch ps cbk db tm ls].
  cbn [pausing paused trapped stopped forcelyStop] in *.
  unfold onTrap. rewrite bool_decide_eq_false_2 by exact Hm.
  assert (Hs1 : exists evs c,
             (assign (with_stopped true) ;;;
              assign (with_trapped true) ;;;
              s <- this ;;
              match callback s with
              | Some cb => emit (Invoke cb (Some message) Null)
              | None => emit_event "error" (Trap message)
              end ;;;
              emit_event "trap" (Trap message))
               (mk sd st pg pd sg sp tr cs fs csp ch ps cbk db tm ls)
             = mkOutcome (mk sd st pg pd sg true true cs fs csp ch ps cbk db tm ls) evs c).
  { unfold emit_event, bind, assign, this, emit, throw. cbn -[listens].
    unfold listens. cbn [listeners].
    destruct cbk; cbn -[existsb String.eqb]; [eauto|].
    destruct (existsb (String.eqb "error") ls); cbn; eauto. }
  destruct Hs1 as (evs & c & ->). cbn [final].
  repeat split.
  - destruct fs, pg, pd; reflexivity.
  - intros ->. destruct fs, pg, pd; reflexivity.
  - intros ->. reflexivity.
Qed.

Lemma trapped_stream_ends_without_done_witness :
  let s := constructor (mkChannel (lit "a1")) [lit "/ip/address/listen"] (Some 3%nat) in
  let s1 := final (onTrap (lit "no such item") s) in
  stopped s1 = true /\ trapped s1 = true /\
  onDone s1 = mkOutcome s1 [ChannelClose] (Return tt) /\
  emitted (onClose s1) = [Emit "close" Null] /\
  (trapped s = false -> emitted (onClose s) = [Emit "done" Null; Emit "close" Null]) /\
  (stopped s = false -> onDone s = mkOutcome s [] (Return tt)).
Proof.
  cbv zeta.
  apply (trapped_stream_ends_without_done
           (constructor (mkChannel (lit "a1")) [lit "/ip/address/listen"] (Some 3%nat))
           (lit "no such item")).
  discriminate.
Defined.

End RStreamLife.

(** ** CommandBuilder *)

Section CommandBuilderFacts.
Import JS CommandBuilder.

Lemma apply_word (b : t) (c : call) :
  apply b c = mk (command b) (words b ++ [word_of c]).
Proof. destruct c; reflexivity. Qed.

Lemma chain_words (calls : list call) : forall b,
  chain calls b = mk (command b) (words b ++ map word_of calls).
Proof.
  unfold chain. induction calls as [|c calls IH]; intros b.
  - cbn. rewrite app_nil_r. destruct b; reflexivity.
  - cbn [fold_left map]. rewrite IH, apply_word. cbn [command words].
    rewrite <- app_assoc. reflexivity.
Qed.

(** A chain of calls builds the command word followed by one word per
    call, in the order of the calls, whatever the calls are; [build]
    takes nothing away, so a chain that is built and then continued
    gives the words it gave before, followed by the new ones. *)
Theorem build_in_call_order (cmd : str) (calls more : list call) :
  build (chain calls (constructor cmd)) = cmd :: map word_of calls /\
  build (chain more (chain calls (constructor cmd)))
  = build (chain calls (constructor cmd)) ++ map word_of more.
Proof.
  rewrite !chain_words. unfold build, constructor. cbn [command words app].
  split; reflexivity.
Qed.

(** Keys and values are not escaped: the words are plain
    concatenations, so an [=] inside a key or a value moves the border
    between them. The key [k=x] with the value [v] and the key [k]
    with the value [x=v] give the same word, for [param] and for
    [where]. *)
Theorem keys_are_not_escaped (k x v : str) (b : t) :
  build (param (k ++ lit "=" ++ x) (VString v) b)
  = build (param k (VString (x ++ lit "=" ++ v)) b) /\
  build (where_ (k ++ lit "=" ++ x) (VString v) b)
  = build (where_ k (VString (x ++ lit "=" ++ v)) b).
Proof.
  unfold param, where_, push, build, to_string. cbn [command words].
  rewrite <- !app_assoc. split; reflexivity.
Qed.

(** A chain with a value of each kind. *)
Lemma build_example :
  build (chain [Where (lit "name") (VString (lit "user1"));
                Select [lit ".id"; lit "name"];
                Param (lit "mtu") (VInteger (mkSafe 1500 I));
                Param (lit "priority") (VInteger (mkSafe (-42) I));
                Param (lit "disabled") (VBoolean true)]
               (constructor (lit "/ppp/secret/print")))
  = [lit "/ppp/secret/print"; lit "?=name=user1"; lit "=.proplist=.id,name";
     lit "=mtu=1500"; lit "=priority=-42"; lit "=disabled=true"].
Proof. reflexivity. Qed.

End CommandBuilderFacts.
